(** * ShippingCarrier: the token lifecycle manager and the UPS rate pipeline

    A shallow embedding of
      - [src/core/auth/token-manager.ts]              (module [TokenManager]),
      - [src/domain/errors/index.ts]                  (module [Errors]),
      - [src/carriers/ups/mappers/rate.mapper.ts]     (module [RateMapper]),
      - [src/carriers/ups/operations/rate.operation.ts] (module [RateOperation]),
      - [src/services/shipping.service.ts] and the request schema
                                                      (module [ShippingService]),
    preceded by the fragment of JavaScript these files rely on (module
    [Js]): numbers and their decimal notation, [parseFloat], [parseInt],
    truthiness, property access on values of type [any], the conversion of
    a value to a string, [JSON.stringify], thrown values.

    The embedding comes first, then the notions the statements are written
    with, then the properties: single flight, caching and expiry of the
    token manager; what the parser returns and when it fails; what the
    mapper's document depends on; how [execute] classifies failures.  A
    statement that settles one of the claims C1 to C10 of the specification
    names it. *)

From Stdlib Require Import Ascii String.
From stdpp Require Import base numbers list strings gmap.

Local Open Scope Z_scope.

(** ** JavaScript values *)

Module Js.

(** *** Characters and strings *)

Definition chr (n : nat) : ascii := Ascii.ascii_of_nat n.
Definition quote_char : ascii := chr 34.
Definition backslash_char : ascii := chr 92.

Definition ascii_eqb (a b : ascii) : bool := bool_decide (a = b).

Fixpoint str_list (s : string) : list ascii :=
  match s with
  | EmptyString => []
  | String c r => c :: str_list r
  end.

Fixpoint list_str (l : list ascii) : string :=
  match l with
  | [] => EmptyString
  | c :: r => String c (list_str r)
  end.

(** [s.includes(t)] *)
Fixpoint includes (s t : string) : bool :=
  String.prefix t s ||
  match s with
  | EmptyString => false
  | String _ r => includes r t
  end.

(** *** Numbers

    A JavaScript number is kept as the decimal it denotes: [Dec neg m e]
    stands for [(-1)^neg * m * 10^e].  The constructors of [Dec] produced
    by the functions below are normalised ([m] has no trailing decimal
    zero, and [e = 0] when [m = 0]), so equal numbers are equal terms.
    Rounding to the nearest IEEE double is not modelled. *)

Inductive number :=
| NaN
| Infinity (neg : bool)
| Dec (neg : bool) (m : N) (e : Z).

Fixpoint strip10 (fuel : nat) (m : N) (e : Z) : N * Z :=
  match fuel with
  | O => (m, e)
  | S f => if (m `mod` 10 =? 0)%N then strip10 f (m `div` 10)%N (e + 1) else (m, e)
  end.

Definition norm (neg : bool) (m : N) (e : Z) : number :=
  if (m =? 0)%N then Dec neg 0 0
  else let '(m', e') := strip10 (N.to_nat (N.size m)) m e in Dec neg m' e'.

Definition of_Z (z : Z) : number := norm (z <? 0) (Z.abs_N z) 0.

(** [x * y] *)
Definition mul (x y : number) : number :=
  match x, y with
  | NaN, _ | _, NaN => NaN
  | Infinity a, Infinity b => Infinity (xorb a b)
  | Infinity a, Dec b m _ | Dec b m _, Infinity a =>
      if (m =? 0)%N then NaN else Infinity (xorb a b)
  | Dec a m e, Dec b m' e' => norm (xorb a b) (m * m') (e + e')
  end.

(** [0 <= x], false for [NaN] as every comparison with [NaN] is. *)
Definition nonneg (x : number) : bool :=
  match x with
  | NaN => false
  | Infinity neg => negb neg
  | Dec neg m _ => negb neg || (m =? 0)%N
  end.

(** *** Decimal digits *)

Definition digit_char (d : N) : ascii := chr (48 + N.to_nat d).

Definition is_digit (c : ascii) : bool :=
  let n := Ascii.nat_of_ascii c in (48 <=? n)%nat && (n <=? 57)%nat.

Definition digit_val (c : ascii) : N := N.of_nat (Ascii.nat_of_ascii c - 48).

Fixpoint digits_go (fuel : nat) (m : N) (acc : list ascii) : list ascii :=
  match fuel with
  | O => acc
  | S f =>
      let acc' := digit_char (m `mod` 10)%N :: acc in
      if (m <? 10)%N then acc' else digits_go f (m `div` 10)%N acc'
  end.

(** The decimal digits of [m], most significant first ("0" for 0). *)
Definition digits (m : N) : list ascii := digits_go (S (N.to_nat (N.size m))) m [].

Definition digits_val (ds : list ascii) : N :=
  foldl (fun acc c => (acc * 10 + digit_val c)%N) 0%N ds.

Definition Z_toString (z : Z) : string :=
  list_str ((if z <? 0 then [chr 45] else []) ++ digits (Z.abs_N z)).

(** [String(x)] for a number [x] (Number::toString, radix 10). *)
Definition Number_toString (x : number) : string :=
  match x with
  | NaN => "NaN"
  | Infinity neg => if neg then "-Infinity" else "Infinity"
  | Dec neg m e =>
      if (m =? 0)%N then "0"
      else
        let s := digits m in
        let k := Z.of_nat (length s) in
        let n := e + k in
        let zeros (z : Z) := replicate (Z.to_nat z) (chr 48) in
        let body :=
          if (k <=? n) && (n <=? 21) then s ++ zeros (n - k)
          else if (0 <? n) && (n <=? 21) then
            take (Z.to_nat n) s ++ [chr 46] ++ drop (Z.to_nat n) s
          else if (-6 <? n) && (n <=? 0) then
            [chr 48; chr 46] ++ zeros (- n) ++ s
          else
            let ex := [chr 101; if n - 1 <? 0 then chr 45 else chr 43]
                        ++ digits (Z.abs_N (n - 1)) in
            match s with
            | [d] => d :: ex
            | d :: r => d :: chr 46 :: r ++ ex
            | [] => ex
            end in
        list_str ((if neg then [chr 45] else []) ++ body)
  end.

(** *** [parseFloat] and [parseInt] on strings

    Only the ASCII white space characters are skipped; the Unicode ones
    (which take several bytes) are not modelled. *)

Definition is_space (c : ascii) : bool :=
  let n := Ascii.nat_of_ascii c in ((9 <=? n)%nat && (n <=? 13)%nat) || (n =? 32)%nat.

Fixpoint skip_spaces (l : list ascii) : list ascii :=
  match l with
  | c :: r => if is_space c then skip_spaces r else l
  | [] => []
  end.

Fixpoint span (p : ascii -> bool) (l : list ascii) : list ascii * list ascii :=
  match l with
  | c :: r => if p c then let '(a, b) := span p r in (c :: a, b) else ([], l)
  | [] => ([], [])
  end.

Definition read_sign (l : list ascii) : bool * list ascii :=
  match l with
  | c :: r =>
      if ascii_eqb c (chr 45) then (true, r)
      else if ascii_eqb c (chr 43) then (false, r)
      else (false, l)
  | [] => (false, [])
  end.

(** The value of the ExponentPart [l] starts with, 0 when it starts with none. *)
Definition read_exponent (l : list ascii) : Z :=
  match l with
  | c :: r =>
      if ascii_eqb c (chr 101) || ascii_eqb c (chr 69) then
        let '(neg, r') := read_sign r in
        match fst (span is_digit r') with
        | [] => 0
        | ds => if neg then - Z.of_N (digits_val ds) else Z.of_N (digits_val ds)
        end
      else 0
  | [] => 0
  end.

Fixpoint starts_with (p l : list ascii) : bool :=
  match p, l with
  | [], _ => true
  | a :: p', b :: l' => ascii_eqb a b && starts_with p' l'
  | _ :: _, [] => false
  end.

(** [parseFloat(s)]: the longest prefix of the trimmed string that is a
    StrDecimalLiteral. *)
Definition parseFloat (s : string) : number :=
  let '(neg, l) := read_sign (skip_spaces (str_list s)) in
  if starts_with (str_list "Infinity") l then Infinity neg
  else
    let '(ip, r1) := span is_digit l in
    let '(fp, r2) :=
      match r1 with
      | c :: r => if ascii_eqb c (chr 46) then span is_digit r else ([], r1)
      | [] => ([], [])
      end in
    match ip, fp with
    | [], [] => NaN
    | _, _ => norm neg (digits_val (ip ++ fp)) (read_exponent r2 - Z.of_nat (length fp))
    end.

Definition is_hex_digit (c : ascii) : bool :=
  let n := Ascii.nat_of_ascii c in
  is_digit c || ((97 <=? n)%nat && (n <=? 102)%nat) || ((65 <=? n)%nat && (n <=? 70)%nat).

Definition hex_val (c : ascii) : N :=
  let n := Ascii.nat_of_ascii c in
  if is_digit c then digit_val c
  else if (97 <=? n)%nat then N.of_nat (n - 87) else N.of_nat (n - 55).

(** [parseInt(s)] with no radix argument. *)
Definition parseInt (s : string) : number :=
  let '(neg, l) := read_sign (skip_spaces (str_list s)) in
  let hex :=
    match l with
    | z :: x :: r =>
        if ascii_eqb z (chr 48) && (ascii_eqb x (chr 120) || ascii_eqb x (chr 88))
        then Some r else None
    | _ => None
    end in
  match hex with
  | Some r =>
      match fst (span is_hex_digit r) with
      | [] => NaN
      | ds => norm neg (foldl (fun acc c => (acc * 16 + hex_val c)%N) 0%N ds) 0
      end
  | None =>
      match fst (span is_digit l) with
      | [] => NaN
      | ds => norm neg (digits_val ds) 0
      end
  end.

(** *** Values of type [any] *)

#[local] Set Warnings "-register-all".
Inductive value :=
| JUndefined
| JNull
| JBool (b : bool)
| JNum (n : number)
| JStr (s : string)
| JArr (xs : list value)
| JObj (fields : list (string * value)).

(** ToBoolean *)
Definition truthy (v : value) : bool :=
  match v with
  | JUndefined | JNull => false
  | JBool b => b
  | JNum n => match n with NaN => false | Infinity _ => true | Dec _ m _ => negb (m =? 0)%N end
  | JStr s => negb (String.eqb s "")
  | JArr _ | JObj _ => true
  end.

(** [a || b] *)
Definition or_else (a b : value) : value := if truthy a then a else b.

(** A string that may be [undefined], as a value. *)
Definition of_opt_string (o : option string) : value :=
  match o with Some s => JStr s | None => JUndefined end.

(** An object is a finite map from keys to values; in the list that
    represents it the first binding of a key is the one in force. *)
Fixpoint assoc (k : string) (fields : list (string * value)) : value :=
  match fields with
  | [] => JUndefined
  | (k', v) :: r => if String.eqb k k' then v else assoc k r
  end.

(** [v?.k].  The keys read in this development are none of the built-in
    properties of arrays, strings, numbers and booleans, so reading one off
    such a value gives [undefined]. *)
Definition opt_get (v : value) (k : string) : value :=
  match v with
  | JObj fs => assoc k fs
  | _ => JUndefined
  end.

Definition isArray (v : value) : bool :=
  match v with JArr _ => true | _ => false end.

(** [v[0]] *)
Definition index0 (v : value) : value :=
  match v with
  | JArr (x :: _) => x
  | _ => JUndefined
  end.

Definition join (sep : list ascii) (parts : list (list ascii)) : list ascii :=
  match parts with
  | [] => []
  | p :: r => p ++ concat (map (fun q => sep ++ q) r)
  end.

(** *** Errors and abrupt completion *)

(** The response a transport error carries ([error.response]). *)
Record HttpErrorResponse := {
  r_status : option Z;
  r_data : value;
  r_headers : option (gmap string string);
}.

(** A thrown value, as far as the code below inspects it. *)
Record error := {
  e_name : option string;
  e_message : option string;
  e_code : option string;
  e_response : option HttpErrorResponse;
  e_config : value;
  e_isSyntaxError : bool;
}.

(** [new Error(msg)] *)
Definition Error (msg : string) : error :=
  {| e_name := Some "Error"; e_message := Some msg; e_code := None;
     e_response := None; e_config := JUndefined; e_isSyntaxError := false |}.

(** A [TypeError], as the engine raises it. *)
Definition TypeError (msg : string) : error :=
  {| e_name := Some "TypeError"; e_message := Some msg; e_code := None;
     e_response := None; e_config := JUndefined; e_isSyntaxError := false |}.

(** [String(error)] for an error object (Error.prototype.toString). *)
Definition String_error (e : error) : string :=
  let name := match e_name e with Some n => n | None => "Error" end in
  let msg := match e_message e with Some m => m | None => "" end in
  if String.eqb name "" then msg
  else if String.eqb msg "" then name
  else name +:+ ": " +:+ msg.

(** How an evaluation completes: normally with a value, or abruptly. *)
Inductive result (E A : Type) :=
| Return (a : A)
| Throw (e : E).
Arguments Return {E A} a.
Arguments Throw {E A} e.

Definition bind {E A B} (m : result E A) (k : A -> result E B) : result E B :=
  match m with
  | Return a => k a
  | Throw e => Throw e
  end.

#[global] Instance result_bind {E} : MBind (result E) := fun A B k m => bind m k.
#[global] Instance result_ret {E} : MRet (result E) := fun A a => Return a.

(** [v.k] *)
Definition get (v : value) (k : string) : result error value :=
  match v with
  | JUndefined =>
      Throw (TypeError ("Cannot read properties of undefined (reading '" +:+ k +:+ "')"))
  | JNull =>
      Throw (TypeError ("Cannot read properties of null (reading '" +:+ k +:+ "')"))
  | _ => Return (opt_get v k)
  end.

(** *** Conversion to a string *)

Definition has_key (k : string) (fields : list (string * value)) : bool :=
  existsb (fun kv => String.eqb (fst kv) k) fields.

(** ToString.  The values are data, as a parsed document holds them: none
    is a function.  An object is converted by the [toString] it inherits,
    unless it has an entry of that name of its own, which is then not
    callable: the conversion fails with a [TypeError], the [valueOf] it
    falls back on giving no primitive value either.  An array is converted
    by [join], which converts its entries from left to right. *)
Fixpoint ToString_chars (v : value) : result error (list ascii) :=
  match v with
  | JUndefined => Return (str_list "undefined")
  | JNull => Return (str_list "null")
  | JBool b => Return (str_list (if b then "true" else "false"))
  | JNum n => Return (str_list (Number_toString n))
  | JStr s => Return (str_list s)
  | JArr xs =>
      match
        (fix entries (l : list value) : result error (list (list ascii)) :=
           match l with
           | [] => Return []
           | x :: r =>
               match
                 match x with
                 | JUndefined | JNull => Return []
                 | _ => ToString_chars x
                 end
               with
               | Throw e => Throw e
               | Return p =>
                   match entries r with
                   | Throw e => Throw e
                   | Return ps => Return (p :: ps)
                   end
               end
           end) xs
      with
      | Throw e => Throw e
      | Return parts => Return (join [chr 44] parts)
      end
  | JObj fields =>
      if has_key "toString" fields
      then Throw (TypeError "Cannot convert object to primitive value")
      else Return (str_list "[object Object]")
  end.

Definition ToString (v : value) : result error string :=
  l ← ToString_chars v; Return (list_str l).

(** [parseFloat(v)] for [v] of type [any]: the argument is converted to a
    string first. *)
Definition parseFloat_any (v : value) : result error number :=
  s ← ToString v; Return (parseFloat s).

(** *** [JSON.stringify] *)

Definition hex_char (d : nat) : ascii := if (d <? 10)%nat then chr (48 + d) else chr (87 + d).

Definition escape_char (c : ascii) : list ascii :=
  let n := Ascii.nat_of_ascii c in
  if ascii_eqb c quote_char then [backslash_char; quote_char]
  else if ascii_eqb c backslash_char then [backslash_char; backslash_char]
  else if (n =? 8)%nat then [backslash_char; chr 98]
  else if (n =? 9)%nat then [backslash_char; chr 116]
  else if (n =? 10)%nat then [backslash_char; chr 110]
  else if (n =? 12)%nat then [backslash_char; chr 102]
  else if (n =? 13)%nat then [backslash_char; chr 114]
  else if (n <? 32)%nat then
    [backslash_char; chr 117; chr 48; chr 48; hex_char (n / 16); hex_char (n mod 16)]
  else [c].

Definition quoted (s : list ascii) : list ascii :=
  quote_char :: concat (map escape_char s) ++ [quote_char].

(** SerializeJSONProperty: [None] stands for [undefined]. *)
Fixpoint serialize (v : value) : option (list ascii) :=
  match v with
  | JUndefined => None
  | JNull => Some (str_list "null")
  | JBool b => Some (str_list (if b then "true" else "false"))
  | JNum n =>
      Some (str_list match n with Dec _ _ _ => Number_toString n | _ => "null" end)
  | JStr s => Some (quoted (str_list s))
  | JArr xs =>
      Some ([chr 91]
            ++ join [chr 44]
                 (map (fun x => match serialize x with
                                | Some j => j
                                | None => str_list "null"
                                end) xs)
            ++ [chr 93])
  | JObj fs =>
      Some ([chr 123]
            ++ join [chr 44]
                 ((fix members (l : list (string * value)) : list (list ascii) :=
                     match l with
                     | [] => []
                     | (k, x) :: r =>
                         match serialize x with
                         | Some j => (quoted (str_list k) ++ [chr 58] ++ j) :: members r
                         | None => members r
                         end
                     end) fs)
            ++ [chr 125])
  end.

(** [JSON.stringify(v)], a string or [undefined]. *)
Definition JSON_stringify (v : value) : value :=
  match serialize v with
  | Some j => JStr (list_str j)
  | None => JUndefined
  end.

End Js.


(** ** The token lifecycle manager ([src/core/auth/token-manager.ts])

    [getToken] and [refresh] are [async]: each runs synchronously up to its
    first [await] and is resumed later, when the awaited promise has
    settled.  The manager is therefore modelled as a machine whose steps are
    the synchronous segments of the two methods, interleaved in any order
    the event loop allows (and in some it does not: a safety property
    proved for every interleaving holds for the real ones). *)

Module TokenManager.
Import Js.

(** What the injected [fetchToken] resolves with. *)
Record TokenResponse := {
  access_token : string;
  expires_in : Z;
}.

(** The state of a promise returned by [refresh()]. *)
Inductive promise :=
| Pending
| Fulfilled (token : string)
| Rejected (reason : error).

(** The fields of the manager, the promises [refresh()] has returned so far
    (promise [p] belongs to the [p]-th call of [fetchToken], counting from
    0), the activations of [getToken] parked at [await this.refreshing]
    (each named by the promise it awaits), and the clock [Date.now()]. *)
Record state := {
  token : option string;
  expiresAt : option Z;
  refreshing : option nat;
  promises : list promise;
  parked : list nat;
  now : Z;
}.

(** [new TokenManager(fetchToken)] at time [t]. *)
Definition create (t : Z) : state :=
  {| token := None; expiresAt := None; refreshing := None;
     promises := []; parked := []; now := t |}.

(** How many times [fetchToken] has been called. *)
Definition fetchCalls (s : state) : nat := length (promises s).

Definition is_pending (p : promise) : bool :=
  match p with Pending => true | _ => false end.

(** How many calls of [fetchToken] have not settled yet. *)
Definition outstanding (s : state) : nat :=
  length (filter (fun p => is_pending p = true) (promises s)).

(** [this.token && Date.now() < this.expiresAt!], with the token when it
    holds.  A comparison with [undefined] is false. *)
Definition cached (s : state) : option string :=
  match token s, expiresAt s with
  | Some t, Some e => if negb (String.eqb t "") && (now s <? e) then Some t else None
  | _, _ => None
  end.

(** What a call of [getToken] hands to its caller: the cached token, the
    promise of a refresh already in flight, or the promise of the refresh
    it has started. *)
Inductive outcome :=
| Hit (t : string)
| Joined (p : nat)
| Started (p : nat).

(** [getToken()] up to its first suspension.  In the last case [refresh()]
    runs up to its own [await], so [fetchToken()] has been called when the
    marker is set. *)
Definition getToken (s : state) : outcome * state :=
  match cached s with
  | Some t => (Hit t, s)
  | None =>
      match refreshing s with
      | Some p => (Joined p, s)
      | None =>
          let p := length (promises s) in
          (Started p,
           {| token := token s; expiresAt := expiresAt s;
              refreshing := Some p;
              promises := promises s ++ [Pending];
              parked := p :: parked s;
              now := now s |})
      end
  end.

(** [refresh()] resumed with the fetch result [res]: it stores the token and
    its expiry and fulfils its promise. *)
Definition refresh_resolved (p : nat) (res : TokenResponse) (s : state) : option state :=
  match promises s !! p with
  | Some Pending =>
      Some {| token := Some (access_token res);
              expiresAt := Some (now s + expires_in res * 1000 - 30000);
              refreshing := refreshing s;
              promises := <[p := Fulfilled (access_token res)]> (promises s);
              parked := parked s;
              now := now s |}
  | _ => None
  end.

(** [refresh()] resumed with a fetch failure: its promise is rejected with
    the same reason and nothing is stored. *)
Definition refresh_rejected (p : nat) (reason : error) (s : state) : option state :=
  match promises s !! p with
  | Some Pending =>
      Some {| token := token s; expiresAt := expiresAt s;
              refreshing := refreshing s;
              promises := <[p := Rejected reason]> (promises s);
              parked := parked s;
              now := now s |}
  | _ => None
  end.

Definition unpark (p : nat) (l : list nat) : list nat := filter (fun q => q <> p) l.

(** The activation of [getToken] parked on [p] resumed after its [await]:
    on a fulfilled promise it runs [this.refreshing = undefined] and
    returns; on a rejected one the [await] throws and the assignment is
    never reached. *)
Definition getToken_resumed (p : nat) (s : state) : option state :=
  if bool_decide (p ∈ parked s) then
    match promises s !! p with
    | Some (Fulfilled _) =>
        Some {| token := token s; expiresAt := expiresAt s;
                refreshing := None;
                promises := promises s;
                parked := unpark p (parked s);
                now := now s |}
    | Some (Rejected _) =>
        Some {| token := token s; expiresAt := expiresAt s;
                refreshing := refreshing s;
                promises := promises s;
                parked := unpark p (parked s);
                now := now s |}
    | _ => None
    end
  else None.

(** The clock moves forward by [dt] milliseconds. *)
Definition tick (dt : N) (s : state) : state :=
  {| token := token s; expiresAt := expiresAt s; refreshing := refreshing s;
     promises := promises s; parked := parked s; now := now s + Z.of_N dt |}.

Inductive event :=
| Call
| FetchResolved (p : nat) (res : TokenResponse)
| FetchRejected (p : nat) (reason : error)
| Resumed (p : nat)
| Tick (dt : N).

(** One step; [None] when the event cannot happen in [s].  A call also
    yields what the caller is handed. *)
Definition step (ev : event) (s : state) : option (list outcome * state) :=
  match ev with
  | Call => let '(o, s') := getToken s in Some ([o], s')
  | FetchResolved p res => s' ← refresh_resolved p res s; Some ([], s')
  | FetchRejected p reason => s' ← refresh_rejected p reason s; Some ([], s')
  | Resumed p => s' ← getToken_resumed p s; Some ([], s')
  | Tick dt => Some ([], tick dt s)
  end.

(** A run: the outcomes of its calls, in order, and the final state. *)
Fixpoint run (evs : list event) (s : state) : option (list outcome * state) :=
  match evs with
  | [] => Some ([], s)
  | ev :: rest =>
      '(o1, s1) ← step ev s;
      '(o2, s2) ← run rest s1;
      Some (o1 ++ o2, s2)
  end.

(** The states a manager created at some time can be in. *)
Definition reachable (s : state) : Prop :=
  ∃ t evs outs, run evs (create t) = Some (outs, s).

(** What promise [p] has settled to, if it has: a token or a rejection
    reason. *)
Definition promise_result (s : state) (p : nat) : option (result error string) :=
  match promises s !! p with
  | Some (Fulfilled t) => Some (Return t)
  | Some (Rejected r) => Some (Throw r)
  | _ => None
  end.

(** What the promise handed to a caller has settled to, if it has.  The
    caller that started the refresh gets its answer once its activation has
    resumed. *)
Definition settled (s : state) (o : outcome) : option (result error string) :=
  match o with
  | Hit t => Some (Return t)
  | Joined p => promise_result s p
  | Started p => if bool_decide (p ∈ parked s) then None else promise_result s p
  end.

Definition is_call (ev : event) : bool :=
  match ev with Call => true | _ => false end.

Definition is_call_or_tick (ev : event) : bool :=
  match ev with Call | Tick _ => true | _ => false end.

(** How many calls of [getToken] a run holds. *)
Definition calls (evs : list event) : nat :=
  length (filter (fun ev => is_call ev = true) evs).

(** The responses the fetches of a run resolved with. *)
Fixpoint responses (evs : list event) : list TokenResponse :=
  match evs with
  | [] => []
  | FetchResolved _ res :: rest => res :: responses rest
  | _ :: rest => responses rest
  end.

End TokenManager.

(** ** The error taxonomy ([src/domain/errors/index.ts]) *)

Module Errors.
Import Js.

(** [details?: Record<string, any>] *)
Definition Details : Type := option (list (string * value)).

(** The subclasses of [ShippingServiceError], each with the arguments of its
    constructor.  (The default values of the [message] parameters are not
    modelled: every construction below passes a message.) *)
Inductive ShippingServiceError :=
| AuthenticationError (message : string) (details : Details)
| ValidationError (message : string) (details : Details)
| TimeoutError (message : string) (timeoutMs : option Z) (details : Details)
| HttpServerError (statusCode : Z) (message : string) (retryable : bool) (details : Details)
| HttpClientError (statusCode : Z) (message : string) (details : Details)
| MalformedResponseError (message : string) (rawResponse : value) (details : Details)
| RateLimitError (message : string) (retryAfterMs : option number) (details : Details)
| NetworkError (message : string) (originalError : option error) (details : Details).

(** [this.name] *)
Definition name (c : ShippingServiceError) : string :=
  match c with
  | AuthenticationError _ _ => "AuthenticationError"
  | ValidationError _ _ => "ValidationError"
  | TimeoutError _ _ _ => "TimeoutError"
  | HttpServerError _ _ _ _ => "HttpServerError"
  | HttpClientError _ _ _ => "HttpClientError"
  | MalformedResponseError _ _ _ => "MalformedResponseError"
  | RateLimitError _ _ _ => "RateLimitError"
  | NetworkError _ _ _ => "NetworkError"
  end.

(** [this.code], the first argument of [super(...)] *)
Definition code (c : ShippingServiceError) : string :=
  match c with
  | AuthenticationError _ _ => "AUTH_FAILED"
  | ValidationError _ _ => "VALIDATION_ERROR"
  | TimeoutError _ _ _ => "TIMEOUT"
  | HttpServerError _ _ _ _ => "HTTP_SERVER_ERROR"
  | HttpClientError _ _ _ => "HTTP_CLIENT_ERROR"
  | MalformedResponseError _ _ _ => "MALFORMED_RESPONSE"
  | RateLimitError _ _ _ => "RATE_LIMIT"
  | NetworkError _ _ _ => "NETWORK_ERROR"
  end.

(** [this.statusCode], the third argument of [super(...)] *)
Definition statusCode (c : ShippingServiceError) : option Z :=
  match c with
  | AuthenticationError _ _ => Some 401
  | ValidationError _ _ => Some 400
  | TimeoutError _ _ _ => None
  | HttpServerError st _ _ _ => Some st
  | HttpClientError st _ _ => Some st
  | MalformedResponseError _ _ _ => None
  | RateLimitError _ _ _ => Some 429
  | NetworkError _ _ _ => None
  end.

Definition message (c : ShippingServiceError) : string :=
  match c with
  | AuthenticationError m _ | ValidationError m _ | TimeoutError m _ _
  | HttpServerError _ m _ _ | HttpClientError _ m _ | MalformedResponseError m _ _
  | RateLimitError m _ _ | NetworkError m _ _ => m
  end.

(** An instance of the taxonomy seen as a thrown value: it has a name, a
    message and a code, no [response] and no [config], and is no
    [SyntaxError]. *)
Definition as_error (c : ShippingServiceError) : error :=
  {| e_name := Some (name c); e_message := Some (message c); e_code := Some (code c);
     e_response := None; e_config := JUndefined; e_isSyntaxError := false |}.

End Errors.

(** ** The request/response mapper ([src/carriers/ups/mappers/rate.mapper.ts]) *)

Module RateMapper.
Import Js.

(** *** The domain model ([src/domain/models/rate.ts]) *)

Record Address := {
  name : string;
  addressLines : list string;
  city : string;
  state : option string;
  postalCode : string;
  countryCode : string;
}.

Inductive WeightUnit := LBS | KGS.
Inductive DimensionUnit := IN | CM.

Record Package := {
  weight : number;
  weightUnit : WeightUnit;
  length : number;
  width : number;
  height : number;
  dimensionUnit : DimensionUnit;
}.

Record RateRequest := {
  shipFrom : Address;
  shipTo : Address;
  packages : list Package;
}.

(** The fields of a quote hold whatever the response held: the mapper does
    not check that a code or a description is a string. *)
Record RateQuote := {
  carrier : string;
  serviceCode : value;
  serviceName : value;
  amount : number;
  currency : value;
  baseCharge : option number;
  transportationCharge : option number;
  alerts : option (list value);
}.

(** *** The wire request, as the return type of [mapToUpsRequest] spells it *)

Record CodeDescription := {
  Code : string;
  Description : string;
}.

Record WireAddress := {
  AddressLine : list string;
  City : string;
  StateProvinceCode : string;
  PostalCode : string;
  CountryCode : string;
}.

Record WireShipper := {
  Shipper_Name : string;
  ShipperNumber : string;
  Shipper_Address : WireAddress;
}.

Record WireParty := {
  Name : string;
  Address_ : WireAddress;
}.

Record WireDimensions := {
  Dimensions_UnitOfMeasurement : CodeDescription;
  Length : string;
  Width : string;
  Height : string;
}.

Record WirePackageWeight := {
  Weight_UnitOfMeasurement : CodeDescription;
  Weight : string;
}.

Record WirePackage := {
  PackagingType : CodeDescription;
  Dimensions : WireDimensions;
  PackageWeight : WirePackageWeight;
}.

(** [PaymentDetails.ShipmentCharge] *)
Record WireShipmentCharge := {
  Type_ : string;
  BillShipper_AccountNumber : string;
}.

Record WireShipment := {
  Shipper : WireShipper;
  ShipTo : WireParty;
  ShipFrom : WireParty;
  PaymentDetails_ShipmentCharge : WireShipmentCharge;
  Service : CodeDescription;
  NumOfPieces : string;
  Package_ : list WirePackage;
}.

(** [Request.TransactionReference] *)
Record WireTransactionReference := {
  CustomerContext : string;
  TransactionIdentifier : string;
}.

(** The document under the key [RateRequest]. *)
Record WireRequest := {
  Request_TransactionReference : WireTransactionReference;
  Shipment : WireShipment;
}.

(** *** [crypto.randomUUID]

    The generator is a source of identifiers that is read one further at
    each call: [draws] lists what it returns, [drawn] counts the calls. *)
Record Crypto := {
  draws : nat -> string;
  drawn : nat;
}.

Definition randomUUID (c : Crypto) : string * Crypto :=
  (draws c (drawn c), {| draws := draws c; drawn := S (drawn c) |}).

(** *** [mapToUpsRequest] *)

(** [a.state || ''] *)
Definition state_or_empty (a : Address) : string :=
  match state a with
  | Some s => if String.eqb s "" then "" else s
  | None => ""
  end.

Definition wire_address (a : Address) : WireAddress :=
  {| AddressLine := addressLines a;
     City := city a;
     StateProvinceCode := state_or_empty a;
     PostalCode := postalCode a;
     CountryCode := countryCode a |}.

Definition weightUnit_code (u : WeightUnit) : string :=
  match u with LBS => "LBS" | KGS => "KGS" end.

Definition dimensionUnit_code (u : DimensionUnit) : string :=
  match u with IN => "IN" | CM => "CM" end.

(** The callback of [request.packages.map]. *)
Definition wire_package (pkg : Package) : WirePackage :=
  {| PackagingType := {| Code := "02"; Description := "Packaging" |};
     Dimensions :=
       {| Dimensions_UnitOfMeasurement :=
            {| Code := dimensionUnit_code (dimensionUnit pkg);
               Description :=
                 if String.eqb (dimensionUnit_code (dimensionUnit pkg)) "IN"
                 then "Inches" else "Centimeters" |};
          Length := Number_toString (length pkg);
          Width := Number_toString (width pkg);
          Height := Number_toString (height pkg) |};
     PackageWeight :=
       {| Weight_UnitOfMeasurement :=
            {| Code := weightUnit_code (weightUnit pkg);
               Description :=
                 if String.eqb (weightUnit_code (weightUnit pkg)) "LBS"
                 then "Pounds" else "Kilograms" |};
          Weight := Number_toString (weight pkg) |} |}.

(** The document, given the identifier [randomUUID()] returned. *)
Definition wire_request (request : RateRequest) (shipperNumber uuid : string) : WireRequest :=
  {| Request_TransactionReference :=
       {| CustomerContext := "RatingService"; TransactionIdentifier := uuid |};
     Shipment :=
       {| Shipper :=
            {| Shipper_Name := name (shipFrom request);
               ShipperNumber := shipperNumber;
               Shipper_Address := wire_address (shipFrom request) |};
          ShipTo :=
            {| Name := name (shipTo request);
               Address_ := wire_address (shipTo request) |};
          ShipFrom :=
            {| Name := name (shipFrom request);
               Address_ := wire_address (shipFrom request) |};
          PaymentDetails_ShipmentCharge :=
            {| Type_ := "01"; BillShipper_AccountNumber := shipperNumber |};
          Service := {| Code := "03"; Description := "Ground" |};
          NumOfPieces := Z_toString (Z.of_nat (List.length (packages request)));
          Package_ := map wire_package (packages request) |} |}.

(** [mapToUpsRequest(request, shipperNumber)]: it draws an identifier from
    the generator and builds the document around it. *)
Definition mapToUpsRequest (request : RateRequest) (shipperNumber : string)
    (c : Crypto) : WireRequest * Crypto :=
  let '(uuid, c') := randomUUID c in
  (wire_request request shipperNumber uuid, c').

(** *** [parseUpsResponse] *)

(** The body of the two [forEach] loops: the truthy [Description] of each
    entry is pushed onto [alerts]. *)
Fixpoint push_descriptions (entries alerts : list value) : result error (list value) :=
  match entries with
  | [] => Return alerts
  | alert :: rest =>
      d ← get alert "Description";
      push_descriptions rest (if truthy d then alerts ++ [d] else alerts)
  end.

(** [if (loc && Array.isArray(loc)) loc.forEach(...)] *)
Definition collect_alerts (loc : value) (alerts : list value) : result error (list value) :=
  match loc with
  | JArr entries => push_descriptions entries alerts
  | _ => Return alerts
  end.

(** [o?.k?.MonetaryValue ? parseFloat(o.k.MonetaryValue) : undefined] *)
Definition charge (RatedPackage : value) (k : string) : result error (option number) :=
  let v := opt_get (opt_get RatedPackage k) "MonetaryValue" in
  if truthy v then x ← parseFloat_any v; Return (Some x) else Return None.

Definition parseUpsResponse (response : value) : result error (list RateQuote) :=
  let RateResponse := opt_get response "RateResponse" in
  if negb (truthy RateResponse) then
    Throw (Error "Invalid UPS response: missing RateResponse")
  else
    RatedShipment ← get RateResponse "RatedShipment";
    if negb (truthy RatedShipment) then
      Throw (Error "Invalid UPS response: missing RatedShipment")
    else
      Service0 ← get RatedShipment "Service";
      let Service := or_else Service0 (JObj []) in
      Code0 ← get Service "Code";
      let serviceCode := or_else Code0 (JStr "") in
      Description0 ← get Service "Description";
      let serviceName := or_else Description0 (JStr "") in
      TotalCharges0 ← get RatedShipment "TotalCharges";
      let TotalCharges := or_else TotalCharges0 (JObj []) in
      MonetaryValue ← get TotalCharges "MonetaryValue";
      amount ← parseFloat_any (or_else MonetaryValue (JStr "0"));
      CurrencyCode ← get TotalCharges "CurrencyCode";
      let currency := or_else CurrencyCode (JStr "USD") in
      RatedPackage0 ← get RatedShipment "RatedPackage";
      let RatedPackage :=
        if isArray RatedPackage0 then index0 RatedPackage0 else RatedPackage0 in
      baseCharge ← charge RatedPackage "BaseServiceCharge";
      transportationCharge ← charge RatedPackage "TransportationCharges";
      RatedShipmentAlert ← get RatedShipment "RatedShipmentAlert";
      alerts1 ← collect_alerts RatedShipmentAlert [];
      Response ← get RateResponse "Response";
      alerts2 ← collect_alerts (opt_get Response "Alert") alerts1;
      Return
        [ {| carrier := "UPS";
             serviceCode := serviceCode;
             serviceName := or_else serviceName JUndefined;
             amount := amount;
             currency := currency;
             baseCharge := baseCharge;
             transportationCharge := transportationCharge;
             alerts := match alerts2 with [] => None | _ => Some alerts2 end |} ].

End RateMapper.

(** ** The rate operation ([src/carriers/ups/operations/rate.operation.ts]) *)

Module RateOperation.
Import Js Errors RateMapper.

(** What leaves [execute] when it fails, by where it was made: an instance
    of the taxonomy built on the spot with [new] ([Classified]: by the
    [catch] block, or by [getRates]), or a value made elsewhere ([Raw]: the
    caught error thrown again by [throw error], or a [TypeError] raised by
    the engine inside the block).  The tag tells where the value comes
    from, not what it is: the caught error that is thrown again may itself
    be an instance of the taxonomy, when a collaborator threw one. *)
Inductive thrown :=
| Classified (c : ShippingServiceError)
| Raw (e : error).

(** [error.response?.status] *)
Definition response_status (e : error) : option Z :=
  r ← e_response e; r_status r.

(** [error.response?.data]; also [error.response.data] where the block
    reads it, which it does only after a test on the status has shown that
    there is a response. *)
Definition response_data (e : error) : value :=
  match e_response e with Some r => r_data r | None => JUndefined end.

(** [error.response.headers], read once the status is known to be 429. *)
Definition response_headers (e : error) : option (gmap string string) :=
  r ← e_response e; r_headers r.

Definition code_is (e : error) (c : string) : bool :=
  bool_decide (e_code e = Some c).

(** [error.message?.includes(t)], false on [undefined] *)
Definition message_includes (e : error) (t : string) : bool :=
  match e_message e with Some m => includes m t | None => false end.

(** [error.name?.includes('Error') && error.code] *)
Definition looks_classified (e : error) : bool :=
  match e_name e, e_code e with
  | Some n, Some c => includes n "Error" && negb (String.eqb c "")
  | _, _ => false
  end.

(** [error.message || String(error)] *)
Definition message_or_string (e : error) : string :=
  match e_message e with
  | Some m => if String.eqb m "" then String_error e else m
  | None => String_error e
  end.

Definition originalError_message (e : error) : Details :=
  Some [("originalError", of_opt_string (e_message e))].

(** The [catch] block from its sixth test on (no rule on the HTTP status
    applied). *)
Definition classify_transport (error : error) : thrown :=
  let timeout :=
    if code_is error "ECONNABORTED" then Return true
    else match e_message error with
         | Some m => Return (includes m "timeout")
         | None =>
             Throw (TypeError "Cannot read properties of undefined (reading 'includes')")
         end in
  match timeout with
  | Throw t => Raw t
  | Return true =>
      Classified (TimeoutError "UPS request timed out" (Some 30000)
                    (originalError_message error))
  | Return false =>
      if code_is error "ENOTFOUND" || code_is error "ECONNREFUSED" then
        Classified (NetworkError "Network error connecting to UPS API" (Some error)
                      (Some [("code", of_opt_string (e_code error));
                             ("originalError", of_opt_string (e_message error))]))
      else if message_includes error "JSON" || e_isSyntaxError error then
        Classified (MalformedResponseError "UPS API returned invalid JSON"
                      (response_data error) (originalError_message error))
      else if message_includes error "missing" || message_includes error "RateResponse" then
        Classified (MalformedResponseError "UPS API response missing required fields"
                      (JSON_stringify (response_data error))
                      (originalError_message error))
      else if looks_classified error then Raw error
      else
        Classified (HttpServerError 500 "Unknown error calling UPS API" true
                      (Some [("originalError", JStr (message_or_string error))]))
  end.

(** The [catch] block of [execute]: what it throws for the caught [error]. *)
Definition classify (error : error) : thrown :=
  let status := response_status error in
  if bool_decide (status = Some 401) then
    Classified (AuthenticationError
                  "UPS authentication failed: Invalid credentials or expired token"
                  (Some [("originalError", of_opt_string (e_message error));
                         ("status", JNum (of_Z 401))]))
  else if bool_decide (status = Some 400) then
    Classified (HttpClientError 400 "UPS rejected request: Invalid shipment data"
                  (Some [("originalError", response_data error);
                         ("request", e_config error)]))
  else if bool_decide (status = Some 429) then
    match response_headers error with
    | None =>
        Raw (TypeError "Cannot read properties of undefined (reading 'retry-after')")
    | Some headers =>
        let retryAfter := headers !! "retry-after" in
        Classified (RateLimitError "UPS rate limit exceeded"
                      match retryAfter with
                      | Some h =>
                          if String.eqb h "" then None
                          else Some (mul (parseInt h) (of_Z 1000))
                      | None => None
                      end
                      (originalError_message error))
    end
  else
    match status with
    | Some st =>
        if negb (st =? 0) && (400 <=? st) && (st <? 500) then
          Classified (HttpClientError st ("UPS request failed: HTTP " +:+ Z_toString st)
                        (Some [("originalError", response_data error)]))
        else if negb (st =? 0) && (500 <=? st) then
          Classified (HttpServerError st ("UPS server error: HTTP " +:+ Z_toString st) true
                        (Some [("originalError", response_data error)]))
        else classify_transport error
    | None => classify_transport error
    end.

(** What [this.http.post] resolves with. *)
Record HttpResponse := {
  status : Z;
  data : value;
}.

(** [config/env.ts] *)
Record Env := {
  baseUrl : string;
  shipperNumber : string;
}.

(** The injected collaborators and the ambient sources of one call: how
    [this.tokenManager.getToken()] settles, how [this.http.post] settles on
    the url, payload and headers it is given, what
    [generateTransactionId()] returns, and the identifier generator. *)
Record Collaborators := {
  tokenManager_getToken : result error string;
  http_post : string -> WireRequest -> list (string * string) -> result error HttpResponse;
  transID : string;
  crypto : Crypto;
}.

(** The body of the [try] block. *)
Definition attempt (env : Env) (io : Collaborators) (request : RateRequest)
    : result error (list RateQuote) :=
  token ← tokenManager_getToken io;
  let payload := fst (mapToUpsRequest request (shipperNumber env) (crypto io)) in
  response ← http_post io (baseUrl env +:+ "/api/rating/v2403/rate") payload
               [("Authorization", "Bearer " +:+ token);
                ("Content-Type", "application/json");
                ("transID", transID io);
                ("transactionSrc", "RatingService")];
  parseUpsResponse (data response).

(** [execute(request)] *)
Definition execute (env : Env) (io : Collaborators) (request : RateRequest)
    : result thrown (list RateQuote) :=
  match attempt env io request with
  | Return quotes => Return quotes
  | Throw error => Throw (classify error)
  end.

End RateOperation.

(** ** The service facade ([src/services/shipping.service.ts]) and the
    request schema ([src/domain/schemas/rate.schema.ts])

    The schema is written with the zod library, which is no part of the
    repository.  Its checks are modelled on requests that already have the
    type [RateRequest]: the checks of presence and of type cannot fail
    there, and those that remain are the bounds the schema states.  Of the
    two revisions of the schema the repository holds, the later one is
    embedded, the one that states bounds on the addresses and the packages;
    the earlier one asks for one package at least and nothing else. *)

Module ShippingService.
Import Js Errors RateMapper RateOperation.

(** The UTF-16 code units a UTF-8 byte contributes to [s.length]: one for an
    ASCII byte and for the lead byte of a sequence of 2 or 3 bytes, two for
    the lead byte of a sequence of 4 (a surrogate pair), none for a
    continuation byte. *)
Definition utf16_units (c : ascii) : nat :=
  let n := Ascii.nat_of_ascii c in
  if (n <? 128)%nat then 1%nat
  else if (n <? 192)%nat then 0%nat
  else if (n <? 240)%nat then 1%nat
  else 2%nat.

(** [s.length] *)
Fixpoint utf16_length (s : string) : nat :=
  match s with
  | EmptyString => 0%nat
  | String c r => (utf16_units c + utf16_length r)%nat
  end.

(** [z.string().min(1, ...)] *)
Definition min1 (s : string) : bool := (1 <=? utf16_length s)%nat.

Section Schema.

(** Whether [z.number()] lets an infinite value through: it does in
    version 3 of the library and does not in version 4. *)
Variable infinite_passes : bool.

(** [z.number().positive(...)]: a number, not [NaN], greater than 0. *)
Definition positive (x : number) : bool :=
  match x with
  | NaN => false
  | Infinity neg => infinite_passes && negb neg
  | Dec neg m _ => negb neg && negb (m =? 0)%N
  end.

Definition AddressSchema (a : Address) : bool :=
  min1 (name a)
  && forallb min1 (addressLines a) && (1 <=? List.length (addressLines a))%nat
  && min1 (city a)
  && min1 (postalCode a)
  && (utf16_length (countryCode a) =? 2)%nat.

Definition PackageSchema (p : Package) : bool :=
  positive (weight p)
  && positive (length p)
  && positive (width p)
  && positive (height p).

Definition RateRequestSchema (r : RateRequest) : bool :=
  AddressSchema (shipFrom r)
  && AddressSchema (shipTo r)
  && forallb PackageSchema (packages r) && (1 <=? List.length (packages r))%nat.

(** What the library reports of a request it refuses
    ([error.errors || error.message]). *)
Variable validationErrors : RateRequest -> value.

(** [getRates(request)], [rateOperation_execute] being
    [this.rateOperation.execute]. *)
Definition getRates (rateOperation_execute : RateRequest -> result thrown (list RateQuote))
    (request : RateRequest) : result thrown (list RateQuote) :=
  if RateRequestSchema request then rateOperation_execute request
  else
    Throw (Classified
             (ValidationError "Invalid rate request"
                (Some [("validationErrors", validationErrors request)]))).

End Schema.

End ShippingService.

(** * Notions used in the statements

    Predicates on the states of the manager, the sections of a response
    and the tests of the error handler, with the sample inputs the
    statements are tried on. *)

Section TokenManagerNotions.
Import Js TokenManager.

(** *** States of the manager *)

(** The invariant of the machine: an activation parked on [p] keeps the
    marker at [p], and a fetch that has not settled has its starter parked. *)
Record inv (s : state) : Prop := {
  inv_parked : ∀ p, p ∈ parked s → refreshing s = Some p;
  inv_pending : ∀ p, promises s !! p = Some Pending → p ∈ parked s;
}.

(** No token is usable once the clock has passed the stored expiry. *)
Definition expired (s : state) : Prop :=
  ∀ e, expiresAt s = Some e → e ≤ now s.

(** The token is good for 30 seconds at most: for no longer than the
    buffer. *)
Definition short_lived (res : TokenResponse) : Prop := expires_in res ≤ 30.

(** [s'] differs from [s] by the clock at most, which has not gone back. *)
Definition same_but_clock (s s' : state) : Prop :=
  token s' = token s ∧ expiresAt s' = expiresAt s ∧ refreshing s' = refreshing s
  ∧ promises s' = promises s ∧ parked s' = parked s ∧ now s ≤ now s'.

(** The refresh [p] was rejected with [reason], its promise is still the
    marker, and no token is usable. *)
Definition dead (p : nat) (reason : error) (s : state) : Prop :=
  inv s ∧ refreshing s = Some p ∧ promises s !! p = Some (Rejected reason)
  ∧ cached s = None.

(** The run of two calls in sequence: the first call, the fetch resolving
    with [res] after [latency] ms, the starter resuming, and a second call
    [gap] ms after the token was stored. *)
Definition two_calls (res : TokenResponse) (latency gap : N) : list event :=
  [Call; Tick latency; FetchResolved 0 res; Resumed 0; Tick gap; Call].

End TokenManagerNotions.

Section RateMapperNotions.
Import Js RateMapper.

(** *** Alert entries *)

(** [null] or [undefined] *)
Definition nullish (v : value) : bool :=
  match v with JUndefined | JNull => true | _ => false end.

(** The truthy [Description]s of the entries of an alert location, in
    order; none when the location holds no array. *)
Definition descriptions (loc : value) : list value :=
  match loc with
  | JArr entries =>
      filter (fun d => truthy d = true) (map (fun a => opt_get a "Description") entries)
  | _ => []
  end.

(** No entry of the array at an alert location is [null] or [undefined]. *)
Definition entries_ok (loc : value) : Prop :=
  match loc with
  | JArr entries => Forall (fun a => nullish a = false) entries
  | _ => True
  end.

(** *** The sections of a response the parser reads *)

Definition envelope (response : value) : value := opt_get response "RateResponse".

Definition ratedShipment (response : value) : value :=
  opt_get (envelope response) "RatedShipment".

Definition totalCharges (response : value) : value :=
  opt_get (ratedShipment response) "TotalCharges".

(** The rated-package section, or its first entry when it is an array. *)
Definition ratedPackage (response : value) : value :=
  let rp := opt_get (ratedShipment response) "RatedPackage" in
  if isArray rp then index0 rp else rp.

Definition shipmentAlerts (response : value) : value :=
  opt_get (ratedShipment response) "RatedShipmentAlert".

Definition responseAlerts (response : value) : value :=
  opt_get (opt_get (envelope response) "Response") "Alert".

(** *** The numbers the parser reads *)

(** [v] can be converted to a string: it is no object with an entry
    [toString] of its own, and no array whose conversion meets one. *)
Definition convertible (v : value) : Prop := ∃ s, ToString v = Return s.

(** The values [parseFloat] may be applied to, the total charge and the two
    charges of the rated package, can be converted to a string. *)
Definition charges_ok (response : value) : Prop :=
  convertible (opt_get (totalCharges response) "MonetaryValue")
  ∧ convertible (opt_get (opt_get (ratedPackage response) "BaseServiceCharge")
                   "MonetaryValue")
  ∧ convertible (opt_get (opt_get (ratedPackage response) "TransportationCharges")
                   "MonetaryValue").

(** The quote the specification describes for a response, [total], [base]
    and [transport] being what [parseFloat] made of its charges. *)
Definition described_quote (response : value) (total : number)
    (base transport : option number) : RateQuote :=
  {| carrier := "UPS";
     serviceCode :=
       or_else (opt_get (opt_get (ratedShipment response) "Service") "Code") (JStr "");
     serviceName :=
       or_else
         (or_else (opt_get (opt_get (ratedShipment response) "Service") "Description")
            (JStr ""))
         JUndefined;
     amount := total;
     currency := or_else (opt_get (totalCharges response) "CurrencyCode") (JStr "USD");
     baseCharge := base;
     transportationCharge := transport;
     alerts :=
       let l := descriptions (shipmentAlerts response)
                ++ descriptions (responseAlerts response) in
       match l with
       | [] => None
       | _ => Some l
       end |}.

(** [described_quote] with the alerts the loops collected. *)
Definition quote_with_alerts (response : value) (total : number)
    (base transport : option number) (al : list value) : RateQuote :=
  {| carrier := "UPS";
     serviceCode := serviceCode (described_quote response total base transport);
     serviceName := serviceName (described_quote response total base transport);
     amount := total;
     currency := currency (described_quote response total base transport);
     baseCharge := base;
     transportationCharge := transport;
     alerts := match al with [] => None | _ => Some al end |}.

(** The numbers the parser reads off a response, when it can read them. *)
Definition charges_read (response : value) (total : number)
    (base transport : option number) : Prop :=
  parseFloat_any (or_else (opt_get (totalCharges response) "MonetaryValue") (JStr "0"))
  = Return total
  ∧ charge (ratedPackage response) "BaseServiceCharge" = Return base
  ∧ charge (ratedPackage response) "TransportationCharges" = Return transport.

(** *** Sample responses and requests *)

(** The reply of the test suite with a [null] among the shipment's alerts. *)
Definition null_alert_response : value :=
  JObj [("RateResponse",
         JObj [("RatedShipment",
                JObj [("Service", JObj [("Code", JStr "03"); ("Description", JStr "Ground")]);
                      ("TotalCharges",
                       JObj [("CurrencyCode", JStr "USD"); ("MonetaryValue", JStr "15.54")]);
                      ("RatedShipmentAlert", JArr [JNull])])])].

(** The successful reply of the test suite. *)
Definition valid_response : value :=
  JObj [("RateResponse",
         JObj [("Response",
                JObj [("ResponseStatus",
                       JObj [("Code", JStr "1"); ("Description", JStr "Success")])]);
               ("RatedShipment",
                JObj [("Service", JObj [("Code", JStr "03"); ("Description", JStr "Ground")]);
                      ("TotalCharges",
                       JObj [("CurrencyCode", JStr "USD"); ("MonetaryValue", JStr "15.54")]);
                      ("RatedPackage",
                       JObj [("BaseServiceCharge", JObj [("MonetaryValue", JStr "14.46")]);
                             ("TransportationCharges",
                              JObj [("MonetaryValue", JStr "15.54")])])])])].

(** The quote of the successful reply. *)
Definition valid_quote : RateQuote :=
  described_quote valid_response (Dec false 1554 (-2))
    (Some (Dec false 1446 (-2))) (Some (Dec false 1554 (-2))).

(** A reply whose total charge is an object with an entry [toString]. *)
Definition object_total_response : value :=
  JObj [("RateResponse",
         JObj [("RatedShipment",
                JObj [("Service", JObj [("Code", JStr "03"); ("Description", JStr "Ground")]);
                      ("TotalCharges",
                       JObj [("CurrencyCode", JStr "USD");
                             ("MonetaryValue", JObj [("toString", JStr "15.54")])])])])].

(** A reply whose total charge is negative. *)
Definition negative_total_response : value :=
  JObj [("RateResponse",
         JObj [("RatedShipment",
                JObj [("Service", JObj [("Code", JStr "03"); ("Description", JStr "Ground")]);
                      ("TotalCharges",
                       JObj [("CurrencyCode", JStr "USD"); ("MonetaryValue", JStr "-1")])])])].

(** A reply that rates two services: an array of rated shipments. *)
Definition shop_response : value :=
  JObj [("RateResponse",
         JObj [("RatedShipment",
                JArr [JObj [("Service", JObj [("Code", JStr "03")]);
                            ("TotalCharges",
                             JObj [("CurrencyCode", JStr "USD");
                                   ("MonetaryValue", JStr "15.54")])];
                      JObj [("Service", JObj [("Code", JStr "02")]);
                            ("TotalCharges",
                             JObj [("CurrencyCode", JStr "USD");
                                   ("MonetaryValue", JStr "31.20")])]])])].

(** A request of the test suite: one package of 5 lb, 10 x 8 x 6 in. *)
Definition sample_request : RateRequest :=
  {| shipFrom := {| name := "A"; addressLines := ["1"]; city := "NY"; state := None;
                    postalCode := "10001"; countryCode := "US" |};
     shipTo := {| name := "B"; addressLines := ["2"]; city := "LA"; state := None;
                  postalCode := "90001"; countryCode := "US" |};
     packages := [ {| weight := of_Z 5; weightUnit := LBS;
                      length := of_Z 10; width := of_Z 8; height := of_Z 6;
                      dimensionUnit := IN |} ] |}.

(** A generator whose first two identifiers differ, as those of
    [randomUUID] do. *)
Definition sample_crypto : Crypto :=
  {| draws := fun n => match n with
                       | O => "3b241101-e2bb-4255-8caf-4136c566a962"
                       | _ => "9f0c2c6e-7d1a-4b8e-a3f5-0d2e6b7c8a91"
                       end;
     drawn := 0 |}.

End RateMapperNotions.

Section RateOperationNotions.
Import Js Errors RateMapper RateOperation.

(** *** The tests of the [catch] block *)

(** One of the rules on the HTTP status applies: there is a status, 400 or
    more. *)
Definition has_failure_status (e : error) : bool :=
  match response_status e with Some st => 400 <=? st | None => false end.

Definition is_timeout (e : error) : bool :=
  code_is e "ECONNABORTED" || message_includes e "timeout".

Definition is_connection_failure (e : error) : bool :=
  code_is e "ENOTFOUND" || code_is e "ECONNREFUSED".

Definition is_json_failure (e : error) : bool :=
  message_includes e "JSON" || e_isSyntaxError e.

Definition is_missing_field (e : error) : bool :=
  message_includes e "missing" || message_includes e "RateResponse".

(** *** Sample collaborators and failures *)

Definition sample_env : Env :=
  {| baseUrl := "https://wwwcie.ups.com"; shipperNumber := "123" |}.

(** The token is there and the transport fails with [e]. *)
Definition transport_fails (e : error) : Collaborators :=
  {| tokenManager_getToken := Return "test-token";
     http_post := fun _ _ _ => Throw e;
     transID := "1700000000000-k3j9x2m1q";
     crypto := sample_crypto |}.

(** The token fetch fails with [e]; the transport would answer. *)
Definition token_fails (e : error) : Collaborators :=
  {| tokenManager_getToken := Throw e;
     http_post := fun _ _ _ => Return {| status := 200; data := valid_response |};
     transID := "1700000000000-k3j9x2m1q";
     crypto := sample_crypto |}.

(** The token is there and the transport answers 200 with [body]. *)
Definition transport_answers (body : value) : Collaborators :=
  {| tokenManager_getToken := Return "test-token";
     http_post := fun _ _ _ => Return {| status := 200; data := body |};
     transID := "1700000000000-k3j9x2m1q";
     crypto := sample_crypto |}.

(** A connection reset, as Node reports it. *)
Definition econnreset : error :=
  {| e_name := Some "Error"; e_message := Some "socket hang up";
     e_code := Some "ECONNRESET"; e_response := None; e_config := JUndefined;
     e_isSyntaxError := false |}.

(** A 429 reply with [retry-after: 5], as the transport reports it. *)
Definition too_many_requests : error :=
  {| e_name := Some "AxiosError";
     e_message := Some "Request failed with status code 429";
     e_code := Some "ERR_BAD_REQUEST";
     e_response := Some {| r_status := Some 429;
                           r_data := JObj [("error", JStr "Too many requests")];
                           r_headers := Some {[ "retry-after" := "5" ]} |};
     e_config := JUndefined;
     e_isSyntaxError := false |}.


(** The transport's error for a reply with status [st] and body [body]. *)
Definition bad_status (st : Z) (body : value) : error :=
  {| e_name := Some "AxiosError";
     e_message := Some ("Request failed with status code " +:+ Z_toString st);
     e_code := Some (if st <? 500 then "ERR_BAD_REQUEST" else "ERR_BAD_RESPONSE");
     e_response := Some {| r_status := Some st; r_data := body; r_headers := Some ∅ |};
     e_config := JUndefined;
     e_isSyntaxError := false |}.

End RateOperationNotions.

Section MoreTokenManagerNotions.
Import Js TokenManager.

(** *** Runs of the manager *)

Definition is_started (o : outcome) : bool :=
  match o with Started _ => true | _ => false end.

(** How many of the calls started a refresh. *)
Definition started (outs : list outcome) : nat :=
  List.length (filter (fun o => is_started o = true) outs).

(** The time a run takes, in milliseconds. *)
Fixpoint elapsed (evs : list event) : Z :=
  match evs with
  | [] => 0
  | Tick dt :: rest => Z.of_N dt + elapsed rest
  | _ :: rest => elapsed rest
  end.

(** The token the last resolved fetch of a run returned. *)
Definition last_token (evs : list event) : option string :=
  access_token <$> last (responses evs).

(** Two refreshes in sequence: the first token is good for 40 s, and the
    second call comes 10 s after it was stored. *)
Definition two_refreshes : list event :=
  [Call; FetchResolved 0 {| access_token := "a"; expires_in := 40 |}; Resumed 0;
   Tick 10000; Call;
   FetchResolved 1 {| access_token := "b"; expires_in := 3600 |}; Resumed 1].

(** A cold start with a token good for an hour, and three calls over the
    59 minutes that follow. *)
Definition hour_token : list event :=
  [Call; FetchResolved 0 {| access_token := "t"; expires_in := 3600 |}; Resumed 0].

Definition three_calls : list event :=
  [Call; Tick 1800000; Call; Tick 1740000; Call].

End MoreTokenManagerNotions.

Section ServiceNotions.
Import Js Errors RateMapper RateOperation.

(** *** The operation on a token manager *)

(** The collaborators [io] with [r] for what [getToken()] settled to. *)
Definition with_token (r : result error string) (io : Collaborators) : Collaborators :=
  {| tokenManager_getToken := r;
     http_post := http_post io;
     transID := transID io;
     crypto := crypto io |}.

(** The [name] of what was thrown. *)
Definition thrown_name (t : thrown) : option string :=
  match t with
  | Classified c => Some (Errors.name c)
  | Raw e => e_name e
  end.

(** *** Numbers on the wire *)

(** The string starts with a decimal digit and is not "0". *)
Definition plain_positive (s : string) : Prop :=
  (∃ d rest, str_list s = d :: rest ∧ is_digit d = true) ∧ s ≠ "0".

End ServiceNotions.

(** * Properties of the token lifecycle manager *)

Section TokenManagerFacts.
Import Js TokenManager.

Lemma inv_create t : inv (create t).
Proof.
  split; simpl; intros p Hp.
  - by apply elem_of_nil in Hp.
  - by rewrite lookup_nil in Hp.
Qed.

Lemma elem_of_unpark p q l : q ∈ unpark p l ↔ q ∈ l ∧ q ≠ p.
Proof. unfold unpark. rewrite list_elem_of_filter. tauto. Qed.

Lemma inv_getToken s : inv s → inv (getToken s).2.
Proof.
  intros Hinv. unfold getToken.
  destruct (cached s); [done|].
  destruct (refreshing s) as [q|] eqn:Hr; [done|].
  destruct Hinv as [Hpk Hpd]. split; simpl.
  - intros p [->|Hp]%elem_of_cons; [done|].
    apply Hpk in Hp. congruence.
  - intros p Hp. apply elem_of_cons.
    destruct (decide (p = length (promises s))) as [|Hne]; [by left|right].
    apply Hpd. apply lookup_app_Some in Hp as [Hp|[Hge Hp]]; [done|].
    apply list_lookup_singleton_Some in Hp as [Hp _]. lia.
Qed.

Lemma inv_settle s p v :
  inv s → v ≠ Pending →
  inv {| token := token s; expiresAt := expiresAt s; refreshing := refreshing s;
         promises := <[p := v]> (promises s); parked := parked s; now := now s |}.
Proof.
  intros [Hpk Hpd] Hv. split; simpl; [done|].
  intros q Hq. apply Hpd.
  destruct (decide (p = q)) as [->|Hne].
  - apply list_lookup_insert_Some in Hq as [[_ [? _]]|[? ?]]; congruence.
  - by rewrite list_lookup_insert_ne in Hq.
Qed.

Lemma inv_step ev s outs s' : inv s → step ev s = Some (outs, s') → inv s'.
Proof.
  intros Hinv Hstep. destruct ev as [|p res|p reason|p|dt]; simpl in Hstep.
  - destruct (getToken s) as [o s1] eqn:Hg. simplify_eq.
    replace s' with (getToken s).2 by by rewrite Hg. by apply inv_getToken.
  - unfold refresh_resolved in Hstep.
    destruct (promises s !! p) as [[| |]|]; simplify_eq/=.
    set (v := Fulfilled (access_token res)).
    pose proof (inv_settle s p v Hinv ltac:(done)) as [H1 H2].
    split; simpl in *; done.
  - unfold refresh_rejected in Hstep.
    destruct (promises s !! p) as [[| |]|]; simplify_eq/=.
    by apply inv_settle.
  - unfold getToken_resumed in Hstep. case_bool_decide as Hin; [|done].
    destruct Hinv as [Hpk Hpd].
    destruct (promises s !! p) as [[| |]|] eqn:Hp; simplify_eq/=.
    + split; simpl.
      * intros q [Hq Hne]%elem_of_unpark.
        apply Hpk in Hq. apply Hpk in Hin. congruence.
      * intros q Hq. apply elem_of_unpark. split; [by apply Hpd|].
        intros ->. congruence.
    + split; simpl.
      * intros q [Hq _]%elem_of_unpark. by apply Hpk.
      * intros q Hq. apply elem_of_unpark. split; [by apply Hpd|].
        intros ->. congruence.
  - simplify_eq. destruct Hinv. by split.
Qed.

Lemma run_cons ev evs s outs s' :
  run (ev :: evs) s = Some (outs, s') ↔
  ∃ o1 s1 o2, step ev s = Some (o1, s1) ∧ run evs s1 = Some (o2, s') ∧ outs = o1 ++ o2.
Proof.
  simpl. split.
  - intros H. destruct (step ev s) as [[o1 s1]|]; [|done]. simpl in H.
    destruct (run evs s1) as [[o2 s2]|] eqn:H2; [|done]. simpl in H. simplify_eq.
    by exists o1, s1, o2.
  - intros (o1 & s1 & o2 & H1 & H2 & ->). rewrite H1. simpl. by rewrite H2.
Qed.

Lemma inv_run evs : ∀ s outs s', inv s → run evs s = Some (outs, s') → inv s'.
Proof.
  induction evs as [|ev evs IH]; intros s outs s' Hinv Hrun.
  - simpl in Hrun. by simplify_eq.
  - apply run_cons in Hrun as (o1 & s1 & o2 & Hstep & Hrun & _).
    eapply IH; [|done]. by eapply inv_step.
Qed.

Lemma inv_reachable s : reachable s → inv s.
Proof. intros (t & evs & outs & Hrun). eapply inv_run; [apply inv_create|done]. Qed.

(** Two fetches that have not settled are the same fetch. *)
Lemma inv_pending_unique s p q :
  inv s → promises s !! p = Some Pending → promises s !! q = Some Pending → p = q.
Proof.
  intros [Hpk Hpd] Hp Hq. apply Hpd, Hpk in Hp. apply Hpd, Hpk in Hq. congruence.
Qed.

Lemma filter_pending_nil (l : list promise) :
  (∀ i, l !! i ≠ Some Pending) → filter (fun p => is_pending p = true) l = [].
Proof.
  induction l as [|x l IH]; intros Hnone; [done|].
  rewrite filter_cons. destruct (decide (is_pending x = true)) as [Hx|Hx].
  - destruct x; try done. by specialize (Hnone 0%nat).
  - apply IH. intros i. apply (Hnone (S i)).
Qed.

Lemma pending_count (l : list promise) :
  (∀ i j, l !! i = Some Pending → l !! j = Some Pending → i = j) →
  (length (filter (fun p => is_pending p = true) l) ≤ 1)%nat.
Proof.
  induction l as [|x l IH]; intros Huniq; [simpl; lia|].
  rewrite filter_cons. destruct (decide (is_pending x = true)) as [Hx|Hx].
  - destruct x; try done. simpl.
    rewrite filter_pending_nil; [simpl; lia|].
    intros j Hj. by specialize (Huniq 0%nat (S j) eq_refl Hj).
  - apply IH. intros i j Hi Hj.
    specialize (Huniq (S i) (S j) Hi Hj). lia.
Qed.

Lemma no_pending_count (l : list promise) :
  (∀ i, l !! i ≠ Some Pending) →
  length (filter (fun p => is_pending p = true) l) = 0%nat.
Proof. intros Hnone. by rewrite filter_pending_nil. Qed.

Lemma outstanding_le_1 s : inv s → (outstanding s ≤ 1)%nat.
Proof.
  intros Hinv. apply pending_count. intros i j. by apply inv_pending_unique.
Qed.

Lemma idle_no_pending s :
  inv s → refreshing s = None → ∀ i, promises s !! i ≠ Some Pending.
Proof. intros [Hpk Hpd] Hr i Hi. apply Hpd, Hpk in Hi. congruence. Qed.

Lemma cached_None_later s s' :
  cached s = None → token s' = token s → expiresAt s' = expiresAt s →
  now s ≤ now s' → cached s' = None.
Proof.
  unfold cached. intros Hc -> -> Hle.
  destruct (token s) as [t|]; [|done]. destruct (expiresAt s) as [e|]; [|done].
  destruct (negb (String.eqb t "")); [|done]. simpl in *.
  destruct (now s <? e) eqn:H1; [done|].
  apply Z.ltb_ge in H1. assert ((now s' <? e) = false) as ->; [|done].
  apply Z.ltb_ge. lia.
Qed.

Lemma calls_cons ev evs :
  calls (ev :: evs) = if is_call ev then S (calls evs) else calls evs.
Proof.
  unfold calls. rewrite filter_cons.
  destruct (is_call ev); by case_decide.
Qed.

(** While a refresh is marked in flight and no token is usable, every call
    joins it and nothing else changes. *)
Lemma burst_joined evs :
  Forall (fun ev => is_call_or_tick ev = true) evs →
  ∀ s p, cached s = None → refreshing s = Some p →
  ∃ s', run evs s = Some (replicate (calls evs) (Joined p), s') ∧ same_but_clock s s'.
Proof.
  induction 1 as [|ev evs Hev _ IH]; intros s p Hc Hr.
  - exists s. split; [done|]. unfold same_but_clock. repeat split; lia.
  - destruct ev as [| | | |dt]; try done.
    + destruct (IH s p Hc Hr) as (s' & Hrun & Hsame).
      exists s'. split; [|done].
      rewrite calls_cons. simpl. unfold getToken. rewrite Hc, Hr. simpl.
      by rewrite Hrun.
    + assert (cached (tick dt s) = None) as Hc'.
      { apply (cached_None_later s); simpl; try done. lia. }
      destruct (IH (tick dt s) p Hc' Hr) as (s' & Hrun & Hsame).
      exists s'. split.
      * rewrite calls_cons. simpl. by rewrite Hrun.
      * destruct Hsame as (? & ? & ? & ? & ? & ?). simpl in *.
        unfold same_but_clock. repeat split; try done. lia.
Qed.

(** A burst of calls on a manager with no usable token and no refresh in
    flight: the first call starts the one fetch, the others join it. *)
Lemma burst_cold evs :
  Forall (fun ev => is_call_or_tick ev = true) evs →
  ∀ s, (1 ≤ calls evs)%nat → cached s = None → refreshing s = None →
  let p := length (promises s) in
  ∃ s', run evs s = Some (Started p :: replicate (calls evs - 1) (Joined p), s')
        ∧ token s' = token s ∧ expiresAt s' = expiresAt s
        ∧ refreshing s' = Some p ∧ promises s' = promises s ++ [Pending]
        ∧ parked s' = p :: parked s.
Proof.
  induction 1 as [|ev evs Hev Hevs IH]; intros s Hn Hc Hr p.
  - simpl in Hn. unfold calls in Hn. simpl in Hn. lia.
  - destruct ev as [| | | |dt]; try done.
    + set (s1 := (getToken s).2).
      assert (getToken s = (Started p, s1)) as Hg.
      { unfold s1, getToken. by rewrite Hc, Hr. }
      assert (cached s1 = None) as Hc1.
      { apply (cached_None_later s); try done; unfold s1, getToken;
          rewrite Hc, Hr; simpl; try done; lia. }
      assert (refreshing s1 = Some p) as Hr1.
      { unfold s1, getToken. by rewrite Hc, Hr. }
      destruct (burst_joined evs Hevs s1 p Hc1 Hr1) as (s' & Hrun & Hsame).
      exists s'. rewrite calls_cons. simpl. rewrite Hg. simpl. rewrite Hrun. simpl.
      replace (calls evs - 0)%nat with (calls evs) by lia.
      split; [done|].
      destruct Hsame as (Ht & He & Hrf & Hp & Hpk & _).
      rewrite Ht, He, Hrf, Hp, Hpk.
      unfold s1, getToken. by rewrite Hc, Hr.
    + rewrite calls_cons in Hn. simpl in Hn.
      assert (cached (tick dt s) = None) as Hc'.
      { apply (cached_None_later s); simpl; try done. lia. }
      destruct (IH (tick dt s) Hn Hc' Hr) as (s' & Hrun & Hrest).
      exists s'. rewrite calls_cons. simpl. simpl in Hrun. rewrite Hrun.
      split; [done|]. apply Hrest.
Qed.

Lemma outstanding_app_pending s s' :
  inv s → refreshing s = None → promises s' = promises s ++ [Pending] →
  outstanding s' = 1%nat.
Proof.
  intros Hinv Hr Hp. unfold outstanding. rewrite Hp, filter_app.
  rewrite filter_pending_nil by by apply idle_no_pending.
  done.
Qed.

Lemma outstanding_app_settled s l v :
  (∀ i, l !! i ≠ Some Pending) → v ≠ Pending → promises s = l ++ [v] →
  outstanding s = 0%nat.
Proof.
  intros Hl Hv Hp. unfold outstanding. rewrite Hp. apply no_pending_count.
  intros i Hi. apply lookup_app_Some in Hi as [Hi|[_ Hi]]; [by apply (Hl i)|].
  apply list_lookup_singleton_Some in Hi as [_ ?]. done.
Qed.

(** C1.  Single flight.  In every state a manager can reach, at most one
    call of the fetch capability is outstanding.  A call that finds no
    usable token and a refresh marked in flight is handed the promise of
    that refresh and starts nothing.  So whenever no usable token is cached
    and no refresh is in flight (a cold manager in particular), [N >= 1]
    calls of [getToken] issued before the fetch settles, however the clock
    moves between them, call [fetchToken] exactly once: the first call
    starts the refresh, every other call is handed the promise of that same
    refresh, and once the fetch has resolved all [N] callers have the token
    it returned, with no further fetch. *)
Theorem getToken_single_flight :
  (∀ s, reachable s → (outstanding s ≤ 1)%nat)
  ∧ (∀ s p, cached s = None → refreshing s = Some p → getToken s = (Joined p, s))
  ∧ (∀ s0 burst res,
       reachable s0 → cached s0 = None → refreshing s0 = None →
       Forall (fun ev => is_call_or_tick ev = true) burst → (1 ≤ calls burst)%nat →
       let p := fetchCalls s0 in
       ∃ outs s1 s2 s3,
         run burst s0 = Some (outs, s1)
         ∧ length outs = calls burst
         ∧ (∀ o, o ∈ outs → o = Started p ∨ o = Joined p)
         ∧ fetchCalls s1 = S (fetchCalls s0) ∧ outstanding s1 = 1%nat
         ∧ step (FetchResolved p res) s1 = Some ([], s2)
         ∧ step (Resumed p) s2 = Some ([], s3)
         ∧ fetchCalls s3 = S (fetchCalls s0) ∧ outstanding s3 = 0%nat
         ∧ ∀ o, o ∈ outs → settled s3 o = Some (Return (access_token res))).
Proof.
  split.
  { intros s Hs. by apply outstanding_le_1, inv_reachable. }
  split.
  { intros s p Hc Hr. unfold getToken. by rewrite Hc, Hr. }
  intros s0 burst res Hreach Hc Hr Hburst Hn p.
  pose proof (inv_reachable _ Hreach) as Hinv.
  destruct (burst_cold burst Hburst s0 Hn Hc Hr)
    as (s1 & Hrun & Ht1 & He1 & Hr1 & Hp1 & Hpk1).
  fold (fetchCalls s0) in *. fold p in Hrun, Hr1, Hpk1.
  assert (promises s1 !! p = Some Pending) as Hlook.
  { rewrite Hp1. by apply list_lookup_middle. }
  set (tok := access_token res).
  set (s2 := {| token := Some tok;
                expiresAt := Some (now s1 + expires_in res * 1000 - 30000);
                refreshing := refreshing s1;
                promises := <[p := Fulfilled tok]> (promises s1);
                parked := parked s1; now := now s1 |}).
  set (s3 := {| token := token s2; expiresAt := expiresAt s2; refreshing := None;
                promises := promises s2; parked := unpark p (parked s2);
                now := now s2 |}).
  assert (promises s2 = promises s0 ++ [Fulfilled tok]) as Hp2.
  { simpl. rewrite Hp1. unfold p, fetchCalls.
    replace (length (promises s0)) with (length (promises s0) + 0)%nat by lia.
    by rewrite insert_app_r. }
  assert (promises s2 !! p = Some (Fulfilled tok)) as Hlook2.
  { rewrite Hp2. by apply list_lookup_middle. }
  assert (p ∉ parked s3) as Hnotin.
  { simpl. rewrite elem_of_unpark. tauto. }
  exists (Started p :: replicate (calls burst - 1) (Joined p)), s1, s2, s3.
  split; [done|]. split.
  { simpl. rewrite length_replicate. lia. }
  split.
  { intros o [->|Ho]%elem_of_cons; [by left|].
    apply elem_of_replicate in Ho as [-> _]. by right. }
  split.
  { unfold fetchCalls. rewrite Hp1, length_app. simpl. lia. }
  split.
  { by apply (outstanding_app_pending s0). }
  split.
  { simpl. unfold refresh_resolved. by rewrite Hlook. }
  split.
  { simpl. unfold getToken_resumed.
    rewrite bool_decide_eq_true_2 by (simpl; rewrite Hpk1; apply elem_of_cons; by left).
    by rewrite Hlook2. }
  split.
  { unfold fetchCalls. change (promises s3) with (promises s2).
    rewrite Hp2, length_app. simpl. lia. }
  split.
  { apply (outstanding_app_settled s3 (promises s0) (Fulfilled tok)); try done.
    by apply idle_no_pending. }
  intros o [->|Ho]%elem_of_cons.
  - simpl. rewrite bool_decide_eq_false_2 by done.
    unfold promise_result. change (promises s3) with (promises s2). by rewrite Hlook2.
  - apply elem_of_replicate in Ho as [-> _]. simpl.
    unfold promise_result. change (promises s3) with (promises s2). by rewrite Hlook2.
Qed.

(** The three concurrent calls of the test suite, on a fresh manager. *)
Lemma getToken_single_flight_witness :
  (outstanding (create 0) ≤ 1)%nat
  ∧ ∃ outs s1 s2 s3,
      run [Call; Call; Call] (create 0) = Some (outs, s1)
      ∧ length outs = 3%nat
      ∧ (∀ o, o ∈ outs → o = Started 0 ∨ o = Joined 0)
      ∧ fetchCalls s1 = 1%nat ∧ outstanding s1 = 1%nat
      ∧ step (FetchResolved 0 {| access_token := "token"; expires_in := 3600 |}) s1
        = Some ([], s2)
      ∧ step (Resumed 0) s2 = Some ([], s3)
      ∧ fetchCalls s3 = 1%nat ∧ outstanding s3 = 0%nat
      ∧ ∀ o, o ∈ outs → settled s3 o = Some (Return "token").
Proof.
  destruct getToken_single_flight as (Hmost & _ & Hburst).
  split.
  - apply Hmost. by exists 0, [], [].
  - apply (Hburst (create 0) [Call; Call; Call]
             {| access_token := "token"; expires_in := 3600 |}).
    + by exists 0, [], [].
    + reflexivity.
    + reflexivity.
    + repeat constructor.
    + vm_compute. lia.
Defined.

(** *** After a failed fetch *)

Lemma dead_no_pending p reason s q : dead p reason s → promises s !! q ≠ Some Pending.
Proof.
  intros ([Hpk Hpd] & Hr & Hp & _) Hq.
  pose proof Hq as Hq'. apply Hpd, Hpk in Hq'. congruence.
Qed.

Lemma dead_step p reason ev s outs s' :
  dead p reason s → step ev s = Some (outs, s') →
  dead p reason s' ∧ promises s' = promises s ∧ token s' = token s
  ∧ expiresAt s' = expiresAt s ∧ (∀ o, o ∈ outs → o = Joined p)
  ∧ (∀ q, q ∈ parked s' → q ∈ parked s).
Proof.
  intros Hdead Hstep.
  pose proof Hdead as (Hinv & Hr & Hp & Hc).
  pose proof (inv_step _ _ _ _ Hinv Hstep) as Hinv'.
  unfold dead.
  destruct ev as [|q res|q r|q|dt]; simpl in Hstep.
  - unfold getToken in Hstep. rewrite Hc, Hr in Hstep. simplify_eq.
    split_and!; try done. by intros o ->%list_elem_of_singleton.
  - unfold refresh_resolved in Hstep.
    destruct (promises s !! q) as [[| |]|] eqn:Hq; try done.
    by destruct (dead_no_pending _ _ _ q Hdead).
  - unfold refresh_rejected in Hstep.
    destruct (promises s !! q) as [[| |]|] eqn:Hq; try done.
    by destruct (dead_no_pending _ _ _ q Hdead).
  - unfold getToken_resumed in Hstep. case_bool_decide as Hin; [|done].
    destruct Hinv as [Hpk _]. apply Hpk in Hin. rewrite Hr in Hin. simplify_eq.
    rewrite Hp in Hstep. simplify_eq/=.
    split_and!; try done.
    + by intros o ?%elem_of_nil.
    + by intros q' [? _]%elem_of_unpark.
  - simplify_eq. split_and!; try done.
    + apply (cached_None_later s); simpl; try done. lia.
    + by intros o ?%elem_of_nil.
Qed.

Lemma dead_run p reason evs : ∀ s outs s',
  dead p reason s → run evs s = Some (outs, s') →
  dead p reason s' ∧ promises s' = promises s ∧ token s' = token s
  ∧ expiresAt s' = expiresAt s ∧ (∀ o, o ∈ outs → o = Joined p)
  ∧ (∀ q, q ∈ parked s' → q ∈ parked s).
Proof.
  induction evs as [|ev evs IH]; intros s outs s' Hdead Hrun.
  - simpl in Hrun. simplify_eq. do 4 (split; [done|]).
    split; [by intros o ?%elem_of_nil|done].
  - apply run_cons in Hrun as (o1 & s1 & o2 & Hstep & Hrun & ->).
    destruct (dead_step _ _ _ _ _ _ Hdead Hstep) as (Hd1 & Hp1 & Ht1 & He1 & Ho1 & Hk1).
    destruct (IH _ _ _ Hd1 Hrun) as (Hd2 & Hp2 & Ht2 & He2 & Ho2 & Hk2).
    split; [done|]. split; [congruence|]. split; [congruence|].
    split; [congruence|]. split.
    + intros o [?|?]%elem_of_app; auto.
    + auto.
Qed.

(** C2 (what the code does instead).  A refresh whose fetch fails rejects
    its promise with the very reason the fetch gave, and stores no token and
    no expiry; but the marker is kept: the assignment that clears it stands
    after the [await] that throws.  So whatever happens afterwards, every
    later call of [getToken] is handed the same rejected promise, and
    [fetchToken] is never called again. *)
Theorem failed_refresh_is_never_retried :
  ∀ s0 reason evs outs s3,
    reachable s0 → cached s0 = None → refreshing s0 = None →
    let p := fetchCalls s0 in
    run (Call :: FetchRejected p reason :: evs) s0 = Some (outs, s3) →
    refreshing s3 = Some p
    ∧ promises s3 !! p = Some (Rejected reason)
    ∧ fetchCalls s3 = S (fetchCalls s0)
    ∧ token s3 = token s0 ∧ expiresAt s3 = expiresAt s0
    ∧ ∀ o, o ∈ outs →
        (o = Started p ∨ o = Joined p)
        ∧ (p ∉ parked s3 → settled s3 o = Some (Throw reason)).
Proof.
  intros s0 reason evs outs s3 Hreach Hc Hr p Hrun.
  pose proof (inv_reachable _ Hreach) as Hinv.
  apply run_cons in Hrun as (o1 & s1 & o' & Hstep1 & Hrun & ->).
  apply run_cons in Hrun as (o2 & s2 & o3 & Hstep2 & Hrun & ->).
  pose proof (inv_step _ _ _ _ Hinv Hstep1) as Hinv1.
  pose proof (inv_step _ _ _ _ Hinv1 Hstep2) as Hinv2.
  simpl in Hstep1. unfold getToken in Hstep1. rewrite Hc, Hr in Hstep1.
  fold (fetchCalls s0) in Hstep1. fold p in Hstep1. simplify_eq.
  simpl in Hstep2. unfold refresh_rejected in Hstep2. simpl in Hstep2.
  assert ((promises s0 ++ [Pending]) !! p = Some Pending) as Hlook
    by by apply list_lookup_middle.
  rewrite Hlook in Hstep2. simpl in Hstep2. simplify_eq.
  match type of Hrun with run evs ?s = _ => set (sr := s) in * end.
  assert (promises sr = promises s0 ++ [Rejected reason]) as Hp2.
  { simpl. unfold p, fetchCalls.
    replace (length (promises s0)) with (length (promises s0) + 0)%nat by lia.
    by rewrite insert_app_r. }
  assert (dead p reason sr) as Hdead.
  { split; [done|]. split; [done|]. split.
    - rewrite Hp2. by apply list_lookup_middle.
    - by apply (cached_None_later s0). }
  destruct (dead_run _ _ _ _ _ _ Hdead Hrun) as (Hd3 & Hp3 & Ht3 & He3 & Ho3 & Hk3).
  destruct Hd3 as (_ & Hr3 & Hl3 & _).
  split_and!; try done.
  - unfold fetchCalls. rewrite Hp3, Hp2, length_app. simpl. lia.
  - intros o Ho. simpl in Ho. apply elem_of_cons in Ho as [->|Ho].
    + split; [by left|]. intros Hnot. simpl.
      rewrite bool_decide_eq_false_2 by done.
      unfold promise_result. by rewrite Hl3.
    + apply Ho3 in Ho as ->. split; [by right|]. intros _. simpl.
      unfold promise_result. by rewrite Hl3.
Qed.

(** The failure of the test suite ([new Error("Network error")]) followed by
    two more calls, 1 second apart. *)
Lemma failed_refresh_is_never_retried_witness :
  ∃ outs s3,
    run [Call; FetchRejected 0 (Error "Network error"); Resumed 0; Call; Tick 1000; Call]
      (create 0) = Some (outs, s3)
    ∧ outs = [Started 0; Joined 0; Joined 0]
    ∧ refreshing s3 = Some 0%nat
    ∧ promises s3 !! 0%nat = Some (Rejected (Error "Network error"))
    ∧ fetchCalls s3 = 1%nat
    ∧ token s3 = None ∧ expiresAt s3 = None
    ∧ ∀ o, o ∈ outs →
        (o = Started 0 ∨ o = Joined 0)
        ∧ (0%nat ∉ parked s3 → settled s3 o = Some (Throw (Error "Network error"))).
Proof.
  eexists _, _. split; [reflexivity|]. split; [reflexivity|].
  apply (failed_refresh_is_never_retried (create 0) (Error "Network error")
           [Resumed 0; Call; Tick 1000; Call]).
  - by exists 0, [], [].
  - reflexivity.
  - reflexivity.
  - reflexivity.
Defined.

(** *** The validity window *)

Lemma cached_Some s t :
  cached s = Some t ↔
  token s = Some t ∧ t ≠ "" ∧ ∃ e, expiresAt s = Some e ∧ now s < e.
Proof.
  unfold cached. split.
  - destruct (token s) as [t'|]; [|done]. destruct (expiresAt s) as [e|]; [|done].
    destruct (String.eqb t' "") eqn:Ht; [done|]. simpl.
    destruct (now s <? e) eqn:Hlt; [|done]. intros [= ->].
    apply String.eqb_neq in Ht. apply Z.ltb_lt in Hlt. eauto.
  - intros (-> & Ht & e & -> & Hlt).
    apply String.eqb_neq in Ht. apply Z.ltb_lt in Hlt. by rewrite Ht, Hlt.
Qed.

Lemma getToken_Hit s t : (getToken s).1 = Hit t ↔ cached s = Some t.
Proof.
  unfold getToken. destruct (cached s) as [t'|]; simpl.
  - split; congruence.
  - destruct (refreshing s); simpl; split; congruence.
Qed.

Lemma two_calls_run t0 res latency gap :
  ∃ s, run [Call; Tick latency; FetchResolved 0 res; Resumed 0; Tick gap] (create t0)
       = Some ([Started 0], s)
       ∧ token s = Some (access_token res)
       ∧ expiresAt s = Some (t0 + Z.of_N latency + expires_in res * 1000 - 30000)
       ∧ refreshing s = None
       ∧ promises s = [Fulfilled (access_token res)]
       ∧ now s = t0 + Z.of_N latency + Z.of_N gap.
Proof. eexists. split; [reflexivity|]. by simpl. Qed.

Lemma run_snoc_call evs s outs s1 :
  run evs s = Some (outs, s1) →
  run (evs ++ [Call]) s = Some (outs ++ [(getToken s1).1], (getToken s1).2).
Proof.
  revert s outs. induction evs as [|ev evs IH]; intros s outs Hrun.
  - simpl in Hrun. simplify_eq. simpl. by destruct (getToken s1).
  - apply run_cons in Hrun as (o1 & s' & o2 & Hstep & Hrun & ->).
    rewrite <- app_comm_cons. apply run_cons.
    exists o1, s', (o2 ++ [(getToken s1).1]). split; [done|].
    split; [by apply IH|]. by rewrite app_assoc.
Qed.

(** C3.  [getToken] takes the cached token, with no fetch and no other
    effect, exactly when a token (a non-empty string) is stored and the
    clock is strictly before [expiresAt]; a refresh that succeeds stores the
    token with [expiresAt = now + expires_in * 1000 - 30000], [now] being
    the time of storing.  So with [expires_in = 3600] a second call less
    than 3570 s after the token was stored is served from the cache, one
    fetch in all; and with [expires_in = 100] a second call 70 s or more
    after it (75 s for one) starts a second fetch. *)
Theorem getToken_cache_window :
  (∀ s t, (getToken s).1 = Hit t ↔
          token s = Some t ∧ t ≠ "" ∧ ∃ e, expiresAt s = Some e ∧ now s < e)
  ∧ (∀ s t, (getToken s).1 = Hit t → (getToken s).2 = s)
  ∧ (∀ p res s s', refresh_resolved p res s = Some s' →
       token s' = Some (access_token res)
       ∧ expiresAt s' = Some (now s + expires_in res * 1000 - 30000))
  ∧ (∀ t0 tok latency gap, tok ≠ "" → Z.of_N gap < 3570000 →
       ∃ s, run (two_calls {| access_token := tok; expires_in := 3600 |} latency gap)
              (create t0) = Some ([Started 0; Hit tok], s)
            ∧ fetchCalls s = 1%nat)
  ∧ (∀ t0 tok latency gap, 70000 ≤ Z.of_N gap →
       ∃ s, run (two_calls {| access_token := tok; expires_in := 100 |} latency gap)
              (create t0) = Some ([Started 0; Started 1], s)
            ∧ fetchCalls s = 2%nat).
Proof.
  split_and!.
  - intros s t. by rewrite getToken_Hit, cached_Some.
  - intros s t. unfold getToken. destruct (cached s); [done|].
    by destruct (refreshing s).
  - intros p res s s' H. unfold refresh_resolved in H.
    destruct (promises s !! p) as [[| |]|]; by simplify_eq.
  - intros t0 tok latency gap Htok Hgap.
    destruct (two_calls_run t0 {| access_token := tok; expires_in := 3600 |} latency gap)
      as (s & Hrun & Ht & He & Hr & Hp & Hnow).
    apply run_snoc_call in Hrun.
    assert (cached s = Some tok) as Hc.
    { apply cached_Some. split; [done|]. split; [done|].
      eexists. split; [done|]. simpl. lia. }
    exists s. unfold two_calls. simpl app in Hrun. rewrite Hrun.
    unfold getToken. rewrite Hc. simpl. split; [done|].
    unfold fetchCalls. by rewrite Hp.
  - intros t0 tok latency gap Hgap.
    destruct (two_calls_run t0 {| access_token := tok; expires_in := 100 |} latency gap)
      as (s & Hrun & Ht & He & Hr & Hp & Hnow).
    apply run_snoc_call in Hrun.
    assert (cached s = None) as Hc.
    { destruct (cached s) as [t|] eqn:Hc; [|done].
      apply cached_Some in Hc as (_ & _ & e & He' & Hlt).
      rewrite He in He'. simpl in He'. simplify_eq. lia. }
    eexists. unfold two_calls. simpl app in Hrun. rewrite Hrun.
    unfold getToken. rewrite Hc, Hr, Hp. simpl. split; [done|].
    by unfold fetchCalls.
Qed.

(** The two scenarios of the test suite: a second call straight after the
    first with [expires_in = 3600], and one 75 s later with
    [expires_in = 100]. *)
Lemma getToken_cache_window_witness :
  (∃ s, run (two_calls {| access_token := "cached-token"; expires_in := 3600 |} 0 0)
          (create 0) = Some ([Started 0; Hit "cached-token"], s)
        ∧ fetchCalls s = 1%nat)
  ∧ (∃ s, run (two_calls {| access_token := "token-1"; expires_in := 100 |} 0 75000)
            (create 0) = Some ([Started 0; Started 1], s)
          ∧ fetchCalls s = 2%nat).
Proof.
  destruct getToken_cache_window as (_ & _ & _ & H3600 & H100).
  split.
  - apply (H3600 0 "cached-token" 0%N 0%N); [done|]. simpl. lia.
  - apply (H100 0 "token-1" 0%N 75000%N). simpl. lia.
Defined.

(** *** Tokens that expire within the buffer *)

Lemma expired_cached s : expired s → cached s = None.
Proof.
  intros Hexp. destruct (cached s) as [t|] eqn:Hc; [|done].
  apply cached_Some in Hc as (_ & _ & e & He & Hlt).
  apply Hexp in He. lia.
Qed.

Lemma expired_step ev s outs s' :
  expired s → step ev s = Some (outs, s') →
  Forall short_lived (responses [ev]) →
  expired s' ∧ ∀ o t, o ∈ outs → o ≠ Hit t.
Proof.
  intros Hexp Hstep Hshort. unfold expired in *.
  destruct ev as [|q res|q r|q|dt]; simpl in Hstep.
  - unfold getToken in Hstep. rewrite (expired_cached s Hexp) in Hstep.
    destruct (refreshing s); simplify_eq/=;
      (split; [done|]); by intros o t ->%list_elem_of_singleton.
  - unfold refresh_resolved in Hstep.
    destruct (promises s !! q) as [[| |]|]; simplify_eq/=.
    apply Forall_cons_1 in Hshort as [Hshort _]. unfold short_lived in Hshort.
    split; [|by intros o t ?%elem_of_nil].
    intros e [= <-]. lia.
  - unfold refresh_rejected in Hstep.
    destruct (promises s !! q) as [[| |]|]; simplify_eq/=.
    split; [done|]. by intros o t ?%elem_of_nil.
  - unfold getToken_resumed in Hstep. case_bool_decide; [|done].
    destruct (promises s !! q) as [[| |]|]; simplify_eq/=;
      (split; [done|]); by intros o t ?%elem_of_nil.
  - simplify_eq/=. split; [|by intros o t ?%elem_of_nil].
    intros e He. apply Hexp in He. lia.
Qed.

Lemma responses_cons ev evs : responses (ev :: evs) = responses [ev] ++ responses evs.
Proof. by destruct ev. Qed.

Lemma expired_run evs : ∀ s outs s',
  expired s → run evs s = Some (outs, s') → Forall short_lived (responses evs) →
  expired s' ∧ ∀ o t, o ∈ outs → o ≠ Hit t.
Proof.
  induction evs as [|ev evs IH]; intros s outs s' Hexp Hrun Hshort.
  - simpl in Hrun. simplify_eq. split; [done|]. by intros o t ?%elem_of_nil.
  - apply run_cons in Hrun as (o1 & s1 & o2 & Hstep & Hrun & ->).
    rewrite responses_cons in Hshort. apply Forall_app in Hshort as [Hs1 Hs2].
    destruct (expired_step _ _ _ _ Hexp Hstep Hs1) as [Hexp1 Ho1].
    destruct (IH _ _ _ Hexp1 Hrun Hs2) as [Hexp2 Ho2].
    split; [done|]. intros o t [?|?]%elem_of_app; eauto.
Qed.

(** C10, as stated, fails: right after a token good for 30 s has been
    stored, and before the call that started the refresh has resumed, a call
    of [getToken] performs no fetch and joins none in flight: it is handed
    the promise of the refresh that has completed, and so the short-lived
    token itself. *)
Lemma short_lived_token_is_handed_out :
  ∃ s1,
    run [Call; FetchResolved 0 {| access_token := "t"; expires_in := 30 |}] (create 0)
    = Some ([Started 0], s1)
    ∧ (∃ e, expiresAt s1 = Some e ∧ e ≤ now s1)
    ∧ outstanding s1 = 0%nat
    ∧ getToken s1 = (Joined 0, s1)
    ∧ settled s1 (Joined 0) = Some (Return "t")
    ∧ fetchCalls (getToken s1).2 = 1%nat.
Proof.
  eexists. split; [compute; reflexivity|].
  split; [eexists; split; [reflexivity|simpl; lia]|].
  by compute.
Qed.

(** C10 (amended).  Once a fetch has returned [expires_in <= 30], the expiry
    stored with the token is not later than the time of storing.  From then
    on, as long as no later fetch returns a longer-lived token and the clock
    does not go back, no call of [getToken] is served from the cache.  A
    call made while the marker is clear starts a new fetch.  A call made
    while the marker is set starts none: it is handed the marked promise,
    whatever has become of it; right after the storing, the marker still
    being that of the refresh, this is the fulfilled promise, and the caller
    gets the short-lived token. *)
Theorem short_lived_token_is_never_served :
  ∀ s p res s1 evs outs s2,
    refresh_resolved p res s = Some s1 → expires_in res ≤ 30 →
    run evs s1 = Some (outs, s2) → Forall short_lived (responses evs) →
    (∃ e, expiresAt s1 = Some e ∧ e ≤ now s1)
    ∧ (∀ o t, o ∈ outs → o ≠ Hit t)
    ∧ cached s2 = None
    ∧ (getToken s2).1 = match refreshing s2 with
                        | Some q => Joined q
                        | None => Started (fetchCalls s2)
                        end
    ∧ (refreshing s2 = None → fetchCalls (getToken s2).2 = S (fetchCalls s2))
    ∧ (∀ q, refreshing s2 = Some q → getToken s2 = (Joined q, s2))
    ∧ (refreshing s = Some p →
       getToken s1 = (Joined p, s1)
       ∧ settled s1 (Joined p) = Some (Return (access_token res))).
Proof.
  intros s p res s1 evs outs s2 Hstore Hres Hrun Hshort.
  unfold refresh_resolved in Hstore.
  destruct (promises s !! p) as [[| |]|] eqn:Hp; simplify_eq.
  match type of Hrun with run evs ?x = _ => set (s1 := x) in * end.
  assert (expired s1) as Hexp1.
  { intros e [= <-]. simpl. lia. }
  destruct (expired_run _ _ _ _ Hexp1 Hrun Hshort) as [Hexp2 Houts].
  pose proof (expired_cached _ Hexp2) as Hc.
  pose proof (expired_cached _ Hexp1) as Hc1.
  split_and!; try done.
  - eexists. split; [done|]. simpl. lia.
  - unfold getToken. rewrite Hc. by destruct (refreshing s2).
  - intros Hr. unfold getToken. rewrite Hc, Hr. simpl.
    unfold fetchCalls. simpl. rewrite length_app. simpl. lia.
  - intros q Hq. unfold getToken. by rewrite Hc, Hq.
  - intros Hr. split.
    + unfold getToken. rewrite Hc1. simpl. by rewrite Hr.
    + simpl. unfold promise_result. simpl.
      rewrite list_lookup_insert_eq; [done|]. by eapply lookup_lt_Some.
Qed.

(** A token good for 30 s, and a second call 1 ms after it was stored. *)
Lemma short_lived_token_is_never_served_witness :
  ∃ s s1 outs s2,
    run [Call] (create 0) = Some ([Started 0], s)
    ∧ refresh_resolved 0 {| access_token := "t"; expires_in := 30 |} s = Some s1
    ∧ run [Resumed 0; Tick 1; Call] s1 = Some (outs, s2)
    ∧ outs = [Started 1]
    ∧ (∃ e, expiresAt s1 = Some e ∧ e ≤ now s1)
    ∧ (∀ o t, o ∈ outs → o ≠ Hit t)
    ∧ cached s2 = None
    ∧ (getToken s2).1 = match refreshing s2 with
                        | Some q => Joined q
                        | None => Started (fetchCalls s2)
                        end
    ∧ (refreshing s2 = None → fetchCalls (getToken s2).2 = S (fetchCalls s2))
    ∧ (∀ q, refreshing s2 = Some q → getToken s2 = (Joined q, s2))
    ∧ (refreshing s = Some 0%nat →
       getToken s1 = (Joined 0, s1)
       ∧ settled s1 (Joined 0) = Some (Return "t")).
Proof.
  exists (getToken (create 0)).2. eexists _, _, _.
  split; [compute; reflexivity|]. split; [compute; reflexivity|].
  split; [compute; reflexivity|]. split; [reflexivity|].
  eapply (short_lived_token_is_never_served (getToken (create 0)).2 0%nat
            {| access_token := "t"; expires_in := 30 |} _ [Resumed 0; Tick 1; Call]).
  - compute. reflexivity.
  - simpl. lia.
  - compute. reflexivity.
  - repeat constructor.
Defined.

End TokenManagerFacts.

(** * Properties of the mapper *)

Section RateMapperFacts.
Import Js RateMapper.

Lemma bind_Return {E A B} (a : A) (k : A → result E B) : (Return a ≫= k) = k a.
Proof. done. Qed.

Lemma truthy_not_nullish v : truthy v = true → nullish v = false.
Proof. by destruct v. Qed.

Lemma get_not_nullish v k : nullish v = false → get v k = Return (opt_get v k).
Proof. by destruct v. Qed.

Lemma get_truthy v k : truthy v = true → get v k = Return (opt_get v k).
Proof. intros. by apply get_not_nullish, truthy_not_nullish. Qed.

Lemma opt_get_falsy v k : truthy v = false → opt_get v k = JUndefined.
Proof. by destruct v. Qed.

(** [(v || {}).k] reads what [v?.k] reads. *)
Lemma get_or_empty v k : get (or_else v (JObj [])) k = Return (opt_get v k).
Proof.
  unfold or_else. destruct (truthy v) eqn:Hv.
  - by apply get_truthy.
  - by rewrite (opt_get_falsy v k Hv).
Qed.

Lemma push_descriptions_ok entries : ∀ alerts,
  Forall (fun a => nullish a = false) entries →
  push_descriptions entries alerts = Return (alerts ++ descriptions (JArr entries)).
Proof.
  induction entries as [|a entries IH]; intros alerts Hok; simpl.
  - by rewrite app_nil_r.
  - apply Forall_cons_1 in Hok as [Ha Hok].
    rewrite (get_not_nullish a _ Ha), bind_Return, (IH _ Hok). simpl.
    rewrite filter_cons. destruct (truthy (opt_get a "Description")) eqn:Hd.
    + rewrite decide_True by done. by rewrite <- app_assoc.
    + rewrite decide_False by congruence. done.
Qed.

Lemma collect_alerts_ok loc alerts :
  entries_ok loc → collect_alerts loc alerts = Return (alerts ++ descriptions loc).
Proof.
  destruct loc; simpl; intros Hok; try by rewrite app_nil_r.
  by apply push_descriptions_ok.
Qed.

Lemma push_descriptions_throws entries : ∀ alerts e,
  push_descriptions entries alerts = Throw e → e_name e = Some "TypeError".
Proof.
  induction entries as [|a entries IH]; intros alerts e; simpl; [done|].
  destruct a; simpl; try (by intros [= <-]); apply IH.
Qed.

Lemma collect_alerts_throws loc alerts e :
  collect_alerts loc alerts = Throw e → e_name e = Some "TypeError".
Proof. destruct loc; simpl; try done. apply push_descriptions_throws. Qed.

Ltac read_property :=
  lazymatch goal with
  | |- (get (or_else ?v (JObj [])) ?k ≫= _) = _ => rewrite (get_or_empty v k)
  | |- (get ?v ?k ≫= _) = _ => rewrite (get_truthy v k) by done
  end;
  rewrite bind_Return; cbv beta zeta.

(** Induction on values, through the entries of arrays. *)
Lemma value_ind_entries (P : value → Prop) :
  P JUndefined → P JNull → (∀ b, P (JBool b)) → (∀ n, P (JNum n)) → (∀ s, P (JStr s)) →
  (∀ xs, Forall P xs → P (JArr xs)) → (∀ fields, P (JObj fields)) →
  ∀ v, P v.
Proof.
  intros Hu Hn Hb Hnum Hs Harr Hobj. fix IH 1.
  intros [| |b|n|s|xs|fields];
    [exact Hu|exact Hn|apply Hb|apply Hnum|apply Hs| |apply Hobj].
  apply Harr. revert xs. fix IHl 1.
  intros [|x xs]; [apply Forall_nil_2|apply Forall_cons_2; [apply IH|apply IHl]].
Qed.

(** The conversion fails in one way only. *)
Lemma ToString_chars_Throw v : ∀ e,
  ToString_chars v = Throw e →
  e = TypeError "Cannot convert object to primitive value".
Proof.
  induction v as [| | | | |xs IH|fields] using value_ind_entries; intros e; simpl;
    try done.
  - match goal with
    | |- match ?m with _ => _ end = _ → _ =>
        assert (∀ e', m = Throw e' →
                      e' = TypeError "Cannot convert object to primitive value") as Hm
    end.
    { induction IH as [|x xs Hx _ IHxs]; intros e'; [done|].
      destruct (match x with
                | JUndefined | JNull => Return []
                | _ => ToString_chars x
                end) as [p|e0] eqn:Hp.
      - match goal with
        | |- match ?m' with _ => _ end = _ → _ => destruct m' as [ps|e1]
        end; [done|]. intros [= <-]. by apply IHxs.
      - intros [= <-]. apply Hx. by destruct x. }
    match goal with
    | |- match ?m with _ => _ end = _ → _ => destruct m as [parts|e0]
    end; [done|]. intros [= <-]. by apply Hm.
  - destruct (has_key "toString" fields); [|done]. by intros [= <-].
Qed.

Lemma parseFloat_any_Throw v e :
  parseFloat_any v = Throw e →
  e = TypeError "Cannot convert object to primitive value".
Proof.
  unfold parseFloat_any, ToString.
  destruct (ToString_chars v) as [l|e0] eqn:Hv; [done|].
  intros [= <-]. by apply (ToString_chars_Throw v).
Qed.

Lemma charge_Throw rp k e :
  charge rp k = Throw e → e = TypeError "Cannot convert object to primitive value".
Proof.
  unfold charge. destruct (truthy _); [|done].
  destruct (parseFloat_any _) as [x|e0] eqn:Hx; [done|].
  intros [= <-]. by apply parseFloat_any_Throw in Hx.
Qed.

Lemma convertible_parseFloat v : convertible v ↔ ∃ x, parseFloat_any v = Return x.
Proof.
  unfold convertible, parseFloat_any. split.
  - intros [s ->]. by eexists.
  - intros [x Hx]. destruct (ToString v) as [s|e]; [by eexists|done].
Qed.

(** A falsy value is no object and no array. *)
Lemma falsy_convertible v : truthy v = false → convertible v.
Proof. destruct v; try done; intros _; by eexists. Qed.

Lemma convertible_or_else v s : convertible v → convertible (or_else v (JStr s)).
Proof. unfold or_else. destruct (truthy v); [done|]. intros _. by eexists. Qed.

Lemma charge_convertible rp k :
  convertible (opt_get (opt_get rp k) "MonetaryValue") ↔ ∃ c, charge rp k = Return c.
Proof.
  unfold charge. split.
  - intros [x Hx]%convertible_parseFloat.
    destruct (truthy _); [|by eexists]. rewrite Hx. by eexists.
  - intros [c Hc]. destruct (truthy _) eqn:Ht; [|by apply falsy_convertible].
    apply convertible_parseFloat.
    destruct (parseFloat_any _) as [x|e]; [by eexists|done].
Qed.

(** The numbers can be read exactly when the values are convertible. *)
Lemma charges_ok_read response :
  charges_ok response ↔ ∃ total base transport, charges_read response total base transport.
Proof.
  unfold charges_ok, charges_read. split.
  - intros (Ht & Hb & Htr).
    apply (convertible_or_else _ "0"), convertible_parseFloat in Ht as [total Ht].
    apply charge_convertible in Hb as [base Hb].
    apply charge_convertible in Htr as [transport Htr].
    by exists total, base, transport.
  - intros (total & base & transport & Ht & Hb & Htr). split_and!.
    + destruct (truthy (opt_get (totalCharges response) "MonetaryValue")) eqn:Hmv;
        [|by apply falsy_convertible].
      apply convertible_parseFloat. exists total. revert Ht. unfold or_else. by rewrite Hmv.
    + apply charge_convertible. by eexists.
    + apply charge_convertible. by eexists.
Qed.

(** The parser with its property reads resolved: the two tests, the three
    numbers and the two loops are left. *)
Lemma parseUpsResponse_unfold response :
  parseUpsResponse response =
  if negb (truthy (envelope response)) then
    Throw (Error "Invalid UPS response: missing RateResponse")
  else if negb (truthy (ratedShipment response)) then
    Throw (Error "Invalid UPS response: missing RatedShipment")
  else
    total ← parseFloat_any
               (or_else (opt_get (totalCharges response) "MonetaryValue") (JStr "0"));
    base ← charge (ratedPackage response) "BaseServiceCharge";
    transport ← charge (ratedPackage response) "TransportationCharges";
    al1 ← collect_alerts (shipmentAlerts response) [];
    al2 ← collect_alerts (responseAlerts response) al1;
    Return [quote_with_alerts response total base transport al2].
Proof.
  unfold parseUpsResponse. fold (envelope response).
  destruct (truthy (envelope response)) eqn:Hrr; simpl negb; cbv iota beta zeta; [|done].
  read_property. fold (ratedShipment response).
  destruct (truthy (ratedShipment response)) eqn:Hrs; simpl negb; cbv iota; [|done].
  do 5 read_property. fold (totalCharges response).
  destruct (parseFloat_any _) as [total|e0]; [|done].
  rewrite !bind_Return. cbv beta. do 2 read_property.
  fold (ratedPackage response).
  destruct (charge _ "BaseServiceCharge") as [base|e1]; [|done].
  rewrite !bind_Return. cbv beta.
  destruct (charge _ "TransportationCharges") as [transport|e2]; [|done].
  rewrite !bind_Return. cbv beta. read_property. fold (shipmentAlerts response).
  destruct (collect_alerts (shipmentAlerts response) []) as [al1|e3]; [|done].
  rewrite !bind_Return. cbv beta. read_property. done.
Qed.

Lemma parseUpsResponse_present response :
  truthy (envelope response) = true →
  truthy (ratedShipment response) = true →
  charges_ok response →
  entries_ok (shipmentAlerts response) →
  entries_ok (responseAlerts response) →
  ∃ total base transport,
    charges_read response total base transport
    ∧ parseUpsResponse response = Return [described_quote response total base transport].
Proof.
  intros Hrr Hrs (total & base & transport & Hread)%charges_ok_read Hsa Hra.
  exists total, base, transport. split; [done|].
  destruct Hread as (Ht & Hb & Htr).
  rewrite parseUpsResponse_unfold, Hrr, Hrs. simpl negb. cbv iota.
  rewrite Ht, bind_Return, Hb, bind_Return, Htr, bind_Return.
  rewrite (collect_alerts_ok _ [] Hsa), bind_Return.
  rewrite (collect_alerts_ok _ _ Hra), bind_Return.
  reflexivity.
Qed.

(** What [parseUpsResponse] does on any response: it fails for want of the
    envelope, or of the rated shipment, or with a [TypeError] (on a charge
    that cannot be converted to a string, or on an alert entry that is
    [null] or [undefined]), or returns the one quote, [described_quote] up
    to its alerts. *)
Lemma parseUpsResponse_cases response :
  (truthy (envelope response) = false
   ∧ parseUpsResponse response = Throw (Error "Invalid UPS response: missing RateResponse"))
  ∨ (truthy (envelope response) = true ∧ truthy (ratedShipment response) = false
     ∧ parseUpsResponse response = Throw (Error "Invalid UPS response: missing RatedShipment"))
  ∨ (truthy (envelope response) = true ∧ truthy (ratedShipment response) = true
     ∧ ∃ e, parseUpsResponse response = Throw e ∧ e_name e = Some "TypeError")
  ∨ (truthy (envelope response) = true ∧ truthy (ratedShipment response) = true
     ∧ ∃ total base transport al,
         charges_read response total base transport
         ∧ parseUpsResponse response
           = Return [quote_with_alerts response total base transport al]).
Proof.
  rewrite parseUpsResponse_unfold. unfold charges_read.
  destruct (truthy (envelope response)) eqn:Hrr; [|by left].
  right. simpl negb. cbv iota.
  destruct (truthy (ratedShipment response)) eqn:Hrs; [|by left].
  right. simpl negb. cbv iota.
  destruct (parseFloat_any _) as [total|e0] eqn:H0.
  2:{ left. split; [done|]. split; [done|]. exists e0. split; [done|].
      by apply parseFloat_any_Throw in H0 as ->. }
  rewrite bind_Return.
  destruct (charge _ "BaseServiceCharge") as [base|e0] eqn:Hb.
  2:{ left. split; [done|]. split; [done|]. exists e0. split; [done|].
      by apply charge_Throw in Hb as ->. }
  rewrite bind_Return.
  destruct (charge _ "TransportationCharges") as [transport|e0] eqn:Ht.
  2:{ left. split; [done|]. split; [done|]. exists e0. split; [done|].
      by apply charge_Throw in Ht as ->. }
  rewrite bind_Return.
  destruct (collect_alerts _ []) as [al1|e1] eqn:H1.
  - rewrite bind_Return.
    destruct (collect_alerts _ al1) as [al2|e2] eqn:H2.
    + right. split; [done|]. split; [done|]. by exists total, base, transport, al2.
    + left. split; [done|]. split; [done|]. exists e2. split; [done|].
      by apply collect_alerts_throws in H2.
  - left. split; [done|]. split; [done|]. exists e1. split; [done|].
    by apply collect_alerts_throws in H1.
Qed.

(** The failure for want of a field: it occurs exactly when the envelope or
    its rated shipment is missing (falsy). *)
Lemma parseUpsResponse_missing response :
  (∃ m, parseUpsResponse response = Throw (Error m) ∧ includes m "missing" = true)
  ↔ truthy (envelope response) = false ∨ truthy (ratedShipment response) = false.
Proof.
  destruct (parseUpsResponse_cases response)
    as [[H1 ->]|[(H1 & H2 & ->)|[(H1 & H2 & e & -> & He)
       |(H1 & H2 & total & base & transport & al & _ & ->)]]].
  - split; [by left|]. intros _. by eexists.
  - split; [by right|]. intros _. by eexists.
  - split.
    + intros (m & [= ->] & _). done.
    + intros [?|?]; congruence.
  - split.
    + by intros (m & ? & _).
    + intros [?|?]; congruence.
Qed.

(** C7, as stated, fails: in this response the envelope and the rated
    shipment are present, and the parser returns no quote: reading the
    description of the [null] alert entry raises a [TypeError]. *)
Lemma parseUpsResponse_null_alert_entry :
  truthy (envelope null_alert_response) = true
  ∧ truthy (ratedShipment null_alert_response) = true
  ∧ parseUpsResponse null_alert_response
    = Throw (TypeError "Cannot read properties of null (reading 'Description')").
Proof. by vm_compute. Qed.

(** C7 (amended).  For every response in which the envelope and its rated
    shipment are present (truthy), the charges [parseFloat] is applied to
    can be converted to a string (none is an object with an entry
    [toString] of its own) and no entry of an alerts array is [null] or
    [undefined], [parseUpsResponse] returns exactly one quote.  Its amount
    is [parseFloat] of the total charge, 0 when that is absent; its currency
    is the wire currency code, "USD" when that is absent; its base and
    transportation charges are read off the rated package, off its first
    entry when it is an array; its alerts are the descriptions of the
    shipment's alerts followed by those of the response's, and are
    [undefined] when there is none (when neither location is present in
    particular). *)
Theorem parseUpsResponse_single_quote :
  ∀ response,
    truthy (envelope response) = true →
    truthy (ratedShipment response) = true →
    charges_ok response →
    entries_ok (shipmentAlerts response) →
    entries_ok (responseAlerts response) →
    ∃ q total base transport,
      parseUpsResponse response = Return [q]
      ∧ q = described_quote response total base transport
      ∧ (if truthy (opt_get (totalCharges response) "MonetaryValue")
         then parseFloat_any (opt_get (totalCharges response) "MonetaryValue")
              = Return (amount q)
         else amount q = Dec false 0 0)
      ∧ currency q =
          (if truthy (opt_get (totalCharges response) "CurrencyCode")
           then opt_get (totalCharges response) "CurrencyCode"
           else JStr "USD")
      ∧ charge (ratedPackage response) "BaseServiceCharge" = Return (baseCharge q)
      ∧ charge (ratedPackage response) "TransportationCharges"
        = Return (transportationCharge q)
      ∧ (∀ first rest,
           opt_get (ratedShipment response) "RatedPackage" = JArr (first :: rest) →
           ratedPackage response = first)
      ∧ alerts q =
          match descriptions (shipmentAlerts response)
                ++ descriptions (responseAlerts response) with
          | [] => None
          | a :: l => Some (a :: l)
          end
      ∧ (shipmentAlerts response = JUndefined → responseAlerts response = JUndefined →
         alerts q = None).
Proof.
  intros response Hrr Hrs Hch Hsa Hra.
  destruct (parseUpsResponse_present response Hrr Hrs Hch Hsa Hra)
    as (total & base & transport & (Ht & Hb & Htr) & Hparse).
  exists (described_quote response total base transport), total, base, transport.
  split; [done|]. split; [done|].
  split_and!.
  - cbn [amount described_quote]. revert Ht. unfold or_else.
    destruct (truthy (opt_get (totalCharges response) "MonetaryValue")); [done|].
    vm_compute. by intros [= <-].
  - cbn [currency described_quote]. unfold or_else.
    by destruct (truthy (opt_get (totalCharges response) "CurrencyCode")).
  - done.
  - done.
  - intros first rest Hrp. unfold ratedPackage. by rewrite Hrp.
  - simpl. by destruct (descriptions _ ++ descriptions _).
  - intros H1 H2. simpl. by rewrite H1, H2.
Qed.

Lemma parseUpsResponse_single_quote_witness :
  ∃ q, parseUpsResponse valid_response = Return [q]
    ∧ carrier q = "UPS" ∧ serviceCode q = JStr "03"
    ∧ amount q = Dec false 1554 (-2) ∧ currency q = JStr "USD"
    ∧ baseCharge q = Some (Dec false 1446 (-2))
    ∧ transportationCharge q = Some (Dec false 1554 (-2))
    ∧ alerts q = None.
Proof.
  destruct (parseUpsResponse_single_quote valid_response)
    as (q & total & base & transport & Hq & -> & Ha & _ & Hb & Htr & _).
  - reflexivity.
  - reflexivity.
  - split_and!; eexists; vm_compute; reflexivity.
  - exact I.
  - exact I.
  - vm_compute in Ha. vm_compute in Hb. vm_compute in Htr.
    injection Ha as <-. injection Hb as <-. injection Htr as <-.
    eexists. split; [exact Hq|]. by vm_compute.
Defined.

(** *** Amount and currency *)

(** C9, as stated, fails: a total charge of "-1" on the wire gives a quote
    whose amount is -1. *)
Lemma parseUpsResponse_negative_amount :
  ∃ q, parseUpsResponse negative_total_response = Return [q]
    ∧ amount q = Dec true 1 0
    ∧ nonneg (amount q) = false.
Proof. eexists. split; [by vm_compute|]. by vm_compute. Qed.

(** C9 (amended).  Every quote [parseUpsResponse] produces has a currency,
    never empty (the wire currency code, or "USD"), and an amount: what
    [parseFloat] makes of the total charge on the wire, and 0 when there is
    none.  The amount is therefore non-negative when the wire has no total
    charge, and otherwise as the wire value is: nothing in the parser checks
    its sign, or that it is a number at all. *)
Theorem parseUpsResponse_amount_and_currency :
  ∀ response quotes,
    parseUpsResponse response = Return quotes →
    ∃ q, quotes = [q]
      ∧ truthy (currency q) = true
      ∧ (if truthy (opt_get (totalCharges response) "MonetaryValue")
         then parseFloat_any (opt_get (totalCharges response) "MonetaryValue")
              = Return (amount q)
         else amount q = Dec false 0 0)
      ∧ (truthy (opt_get (totalCharges response) "MonetaryValue") = false →
         nonneg (amount q) = true)
      ∧ (∀ x, parseFloat_any (opt_get (totalCharges response) "MonetaryValue") = Return x →
         nonneg x = true → nonneg (amount q) = true).
Proof.
  intros response quotes Hparse.
  destruct (parseUpsResponse_cases response)
    as [[_ H]|[(_ & _ & H)|[(_ & _ & e & H & _)
       |(_ & _ & total & base & transport & al & (Ht & _) & H)]]];
    rewrite H in Hparse; try done.
  injection Hparse as <-. eexists. split; [done|].
  cbn [currency amount quote_with_alerts described_quote].
  revert Ht. unfold or_else.
  destruct (truthy (opt_get (totalCharges response) "CurrencyCode")) eqn:Hcc;
    destruct (truthy (opt_get (totalCharges response) "MonetaryValue")) eqn:Hmv;
    intros Ht; split_and!; try done;
    try (intros x Hx Hnn; rewrite Ht in Hx; by injection Hx as <-);
    try (vm_compute in Ht; by injection Ht as <-);
    try (intros _; vm_compute in Ht; by injection Ht as <-);
    try (intros x _ _; vm_compute in Ht; by injection Ht as <-).
Qed.

Lemma parseUpsResponse_amount_and_currency_witness :
  ∃ q, parseUpsResponse valid_response = Return [q]
    ∧ truthy (currency q) = true
    ∧ amount q = Dec false 1554 (-2)
    ∧ nonneg (amount q) = true.
Proof.
  destruct (parseUpsResponse_amount_and_currency valid_response
              [described_quote valid_response (Dec false 1554 (-2))
                 (Some (Dec false 1446 (-2))) (Some (Dec false 1554 (-2)))])
    as (q & [= <-] & Hc & Ha & _ & Hn).
  - by vm_compute.
  - eexists. split; [by vm_compute|]. split; [exact Hc|]. split; [reflexivity|].
    apply (Hn (Dec false 1554 (-2))); by vm_compute.
Defined.

(** *** The wire request *)

(** C8, as stated, fails: two invocations in a row on the same request and
    account draw two identifiers, and the two documents differ. *)
Lemma mapToUpsRequest_two_runs_differ :
  (mapToUpsRequest sample_request "123" sample_crypto).1
  ≠ (mapToUpsRequest sample_request "123"
       (mapToUpsRequest sample_request "123" sample_crypto).2).1.
Proof. by vm_compute. Qed.

(** C8 (amended).  [mapToUpsRequest] reads the identifier generator once
    and nothing else besides its arguments: the document is a function of
    the request, the account and the identifier drawn.  Two invocations on
    the same request and account give documents that agree on the whole
    shipment and on the customer context, and are identical exactly when the
    identifiers drawn for [TransactionIdentifier] are. *)
Theorem mapToUpsRequest_deterministic_up_to_identifier :
  ∀ request shipperNumber c1 c2,
    let d1 := (mapToUpsRequest request shipperNumber c1).1 in
    let d2 := (mapToUpsRequest request shipperNumber c2).1 in
    d1 = wire_request request shipperNumber (draws c1 (drawn c1))
    ∧ drawn (mapToUpsRequest request shipperNumber c1).2 = S (drawn c1)
    ∧ Shipment d1 = Shipment d2
    ∧ CustomerContext (Request_TransactionReference d1)
      = CustomerContext (Request_TransactionReference d2)
    ∧ TransactionIdentifier (Request_TransactionReference d1) = draws c1 (drawn c1)
    ∧ (d1 = d2 ↔ draws c1 (drawn c1) = draws c2 (drawn c2)).
Proof.
  intros request shipperNumber c1 c2. simpl.
  split_and!; try done.
  split.
  - intros H. by injection H.
  - by intros ->.
Qed.

(** *** The mapper on the inputs of the test suite *)

(** One package entry per package, and the piece count is their number. *)
Lemma mapToUpsRequest_packages request shipperNumber c :
  let d := (mapToUpsRequest request shipperNumber c).1 in
  List.length (Package_ (Shipment d)) = List.length (packages request)
  ∧ NumOfPieces (Shipment d) = Z_toString (Z.of_nat (List.length (packages request))).
Proof. simpl. by rewrite length_map. Qed.

Example weights_keep_their_precision :
  Number_toString (parseFloat "25.5") = "25.5"
  ∧ Number_toString (of_Z 10) = "10"
  ∧ Weight (PackageWeight (wire_package
       {| weight := parseFloat "25.5"; weightUnit := LBS; length := of_Z 10;
          width := of_Z 8; height := of_Z 6; dimensionUnit := IN |})) = "25.5".
Proof. by vm_compute. Qed.

Example units_are_described :
  map (fun u => Description (Weight_UnitOfMeasurement (PackageWeight (wire_package
         {| weight := of_Z 1; weightUnit := u; length := of_Z 1; width := of_Z 1;
            height := of_Z 1; dimensionUnit := IN |})))) [LBS; KGS]
  = ["Pounds"; "Kilograms"]
  ∧ map (fun u => Description (Dimensions_UnitOfMeasurement (Dimensions (wire_package
           {| weight := of_Z 1; weightUnit := LBS; length := of_Z 1; width := of_Z 1;
              height := of_Z 1; dimensionUnit := u |})))) [IN; CM]
    = ["Inches"; "Centimeters"].
Proof. by vm_compute. Qed.

Example valid_response_is_parsed :
  parseUpsResponse valid_response
  = Return [ {| carrier := "UPS"; serviceCode := JStr "03"; serviceName := JStr "Ground";
                amount := parseFloat "15.54"; currency := JStr "USD";
                baseCharge := Some (parseFloat "14.46");
                transportationCharge := Some (parseFloat "15.54");
                alerts := None |} ].
Proof. by vm_compute. Qed.

Example object_total_is_refused :
  truthy (envelope object_total_response) = true
  ∧ truthy (ratedShipment object_total_response) = true
  ∧ parseUpsResponse object_total_response
    = Throw (TypeError "Cannot convert object to primitive value").
Proof. by vm_compute. Qed.

Example empty_envelope_is_refused :
  parseUpsResponse (JObj [("RateResponse", JObj [])])
  = Throw (Error "Invalid UPS response: missing RatedShipment")
  ∧ parseUpsResponse (JObj []) = Throw (Error "Invalid UPS response: missing RateResponse").
Proof. by vm_compute. Qed.

End RateMapperFacts.

(** * Properties of the rate operation *)

Section RateOperationFacts.
Import Js Errors RateMapper RateOperation.

(** *** Failures inside the [try] block *)

Lemma execute_token_failure env io request e :
  tokenManager_getToken io = Throw e →
  execute env io request = Throw (classify e).
Proof. intros H. unfold execute, attempt. by rewrite H. Qed.

Lemma execute_transport_failure env io request token e :
  tokenManager_getToken io = Return token →
  (∀ url payload headers, http_post io url payload headers = Throw e) →
  execute env io request = Throw (classify e).
Proof. intros H1 H2. unfold execute, attempt. rewrite H1. simpl. by rewrite H2. Qed.

Lemma execute_parse env io request token response :
  tokenManager_getToken io = Return token →
  (∀ url payload headers, http_post io url payload headers = Return response) →
  execute env io request =
  match parseUpsResponse (data response) with
  | Return quotes => Return quotes
  | Throw e => Throw (classify e)
  end.
Proof. intros H1 H2. unfold execute, attempt. rewrite H1. simpl. by rewrite H2. Qed.

Lemma classify_no_status e :
  has_failure_status e = false →
  classify e = classify_transport e.
Proof.
  unfold has_failure_status, classify.
  destruct (response_status e) as [st|]; [|done]. intros Hst%Z.leb_gt.
  rewrite !bool_decide_eq_false_2 by (intros [= ->]; lia).
  assert ((400 <=? st) = false) as -> by lia.
  assert ((500 <=? st) = false) as -> by lia.
  by rewrite !andb_false_r.
Qed.

(** *** Token-fetch failures *)

(** C4, as stated, fails: when the token fetch fails with
    [new Error("Network error")], [execute] throws the catch-all
    [HttpServerError(500)], not the error the fetch gave. *)
Lemma execute_wraps_token_failure :
  execute sample_env (token_fails (Error "Network error")) sample_request
  = Throw (Classified (HttpServerError 500 "Unknown error calling UPS API" true
                         (Some [("originalError", JStr "Network error")]))).
Proof. by vm_compute. Qed.

Lemma classify_transport_Raw_same e :
  classify_transport e = Raw e → looks_classified e = true.
Proof.
  unfold classify_transport.
  destruct (code_is e "ECONNABORTED"); [done|].
  destruct (e_message e) as [m|] eqn:Hm.
  - destruct (includes m "timeout"); [done|].
    destruct (code_is e "ENOTFOUND" || code_is e "ECONNREFUSED"); [done|].
    destruct (message_includes e "JSON" || e_isSyntaxError e); [done|].
    destruct (message_includes e "missing" || message_includes e "RateResponse"); [done|].
    by destruct (looks_classified e).
  - intros [= <-]. done.
Qed.

Lemma classify_Raw_same e : classify e = Raw e → looks_classified e = true.
Proof.
  unfold classify.
  destruct (bool_decide (response_status e = Some 401)); [done|].
  destruct (bool_decide (response_status e = Some 400)); [done|].
  destruct (bool_decide (response_status e = Some 429)) eqn:H429.
  { destruct (response_headers e) as [h|] eqn:Hh; [done|].
    intros [= <-]. apply bool_decide_eq_true in H429. done. }
  destruct (response_status e) as [st|]; [|apply classify_transport_Raw_same].
  destruct (negb (st =? 0) && (400 <=? st) && (st <? 500)); [done|].
  destruct (negb (st =? 0) && (500 <=? st)); [done|].
  apply classify_transport_Raw_same.
Qed.

(** C4 (amended).  A failure of the token fetch is caught by the handler of
    [execute] like any other and goes through the same chain of tests:
    [execute] throws what the chain makes of it.  The failure leaves
    [execute] unmodified only if the chain throws it again, which takes a
    name that includes "Error" and a truthy code; an error with no
    response, no code and a message none of the tests matches becomes
    [HttpServerError(500)], retryable. *)
Theorem execute_classifies_token_failure :
  ∀ env io request e,
    tokenManager_getToken io = Throw e →
    execute env io request = Throw (classify e)
    ∧ (execute env io request = Throw (Raw e) → looks_classified e = true)
    ∧ (∀ m, e_response e = None → e_code e = None → e_message e = Some m →
         e_isSyntaxError e = false →
         includes m "timeout" = false → includes m "JSON" = false →
         includes m "missing" = false → includes m "RateResponse" = false →
         ∃ d, execute env io request
              = Throw (Classified
                         (HttpServerError 500 "Unknown error calling UPS API" true d))).
Proof.
  intros env io request e Htoken.
  rewrite (execute_token_failure env io request e Htoken).
  split; [done|]. split.
  - intros [= H]. by apply classify_Raw_same.
  - intros m Hr Hc Hm Hs Ht Hj Hmi Hrr.
    unfold classify, response_status. rewrite Hr. simpl.
    unfold classify_transport, code_is, message_includes, looks_classified.
    rewrite Hc, Hm, Hs, Ht, Hj, Hmi, Hrr. simpl.
    destruct (e_name e); by eexists.
Qed.

Lemma execute_classifies_token_failure_witness :
  execute sample_env (token_fails (Error "Network error")) sample_request
  = Throw (classify (Error "Network error"))
  ∧ ∃ d, execute sample_env (token_fails (Error "Network error")) sample_request
         = Throw (Classified
                    (HttpServerError 500 "Unknown error calling UPS API" true d)).
Proof.
  destruct (execute_classifies_token_failure sample_env
              (token_fails (Error "Network error")) sample_request
              (Error "Network error") eq_refl) as (H1 & _ & H3).
  split; [exact H1|].
  apply (H3 "Network error"); reflexivity.
Defined.

(** *** Transport failures *)

(** C5, as stated, fails: on a connection reset the transport error has a
    name that includes "Error" and a code, so the handler throws it again
    as it is.  What leaves [execute] is no member of the taxonomy, and
    not the catch-all [HttpServerError(500)] either. *)
Lemma execute_rethrows_connection_reset :
  execute sample_env (transport_fails econnreset) sample_request = Throw (Raw econnreset)
  ∧ ∀ c, as_error c ≠ econnreset.
Proof.
  split; [by vm_compute|].
  intros c H. apply (f_equal e_code) in H. by destruct c.
Qed.

Lemma classify_transport_chain e m :
  e_message e = Some m →
  (is_timeout e = true →
     ∃ d, classify_transport e
          = Classified (TimeoutError "UPS request timed out" (Some 30000) d))
  ∧ (is_timeout e = false → is_connection_failure e = true →
     ∃ d, classify_transport e
          = Classified (NetworkError "Network error connecting to UPS API" (Some e) d))
  ∧ (is_timeout e = false → is_connection_failure e = false →
     is_json_failure e = true →
     ∃ d, classify_transport e
          = Classified (MalformedResponseError "UPS API returned invalid JSON"
                          (response_data e) d))
  ∧ (is_timeout e = false → is_connection_failure e = false →
     is_json_failure e = false → is_missing_field e = true →
     ∃ d, classify_transport e
          = Classified (MalformedResponseError "UPS API response missing required fields"
                          (JSON_stringify (response_data e)) d))
  ∧ (is_timeout e = false → is_connection_failure e = false →
     is_json_failure e = false → is_missing_field e = false →
     looks_classified e = true →
     classify_transport e = Raw e)
  ∧ (is_timeout e = false → is_connection_failure e = false →
     is_json_failure e = false → is_missing_field e = false →
     looks_classified e = false →
     ∃ d, classify_transport e
          = Classified (HttpServerError 500 "Unknown error calling UPS API" true d)).
Proof.
  intros Hm.
  unfold is_timeout, is_connection_failure, is_json_failure, is_missing_field,
    classify_transport.
  unfold message_includes. rewrite Hm.
  destruct (code_is e "ECONNABORTED"); simpl;
    [split_and!; intros; try done; by eexists|].
  destruct (includes m "timeout"); simpl;
    [split_and!; intros; try done; by eexists|].
  destruct (code_is e "ENOTFOUND" || code_is e "ECONNREFUSED"); simpl;
    [split_and!; intros; try done; by eexists|].
  destruct (includes m "JSON" || e_isSyntaxError e); simpl;
    [split_and!; intros; try done; by eexists|].
  destruct (includes m "missing" || includes m "RateResponse"); simpl;
    [split_and!; intros; try done; by eexists|].
  destruct (looks_classified e); simpl;
    split_and!; intros; try done; by eexists.
Qed.

(** C5 (amended).  When the transport fails with an error that carries a
    message, [execute] throws what the first applicable test of this chain
    gives: status 401, [AuthenticationError]; status 400,
    [HttpClientError(400)]; status 429 (the response having headers),
    [RateLimitError] whose [retryAfterMs] is [parseInt] of the [retry-after]
    header times 1000 when the header is there and not empty, and
    [undefined] otherwise; status 429 with no headers in the response, the
    [TypeError] the handler itself raises on reading the header, and no
    member of the taxonomy; another status from 400 to 499,
    [HttpClientError(status)]; a status of 500 or more,
    [HttpServerError(status)], retryable; then, no rule on the status having
    applied: code [ECONNABORTED] or a message that includes "timeout",
    [TimeoutError(30000)]; code [ENOTFOUND] or [ECONNREFUSED],
    [NetworkError] with the error as its cause; a message that includes
    "JSON" or a [SyntaxError], [MalformedResponseError] with the response
    body; a message that includes "missing" or "RateResponse",
    [MalformedResponseError] with the body stringified; a name that
    includes "Error" together with a truthy code, the error itself, thrown
    again as it is (an instance of the taxonomy or not); anything else,
    [HttpServerError(500)], retryable. *)
Theorem execute_classification_chain :
  ∀ env io request token e m,
    tokenManager_getToken io = Return token →
    (∀ url payload headers, http_post io url payload headers = Throw e) →
    e_message e = Some m →
    ∃ t, execute env io request = Throw t
      ∧ (response_status e = Some 401 → ∃ msg d, t = Classified (AuthenticationError msg d))
      ∧ (response_status e = Some 400 → ∃ msg d, t = Classified (HttpClientError 400 msg d))
      ∧ (∀ h, response_status e = Some 429 → response_headers e = Some h →
           ∃ msg d,
             t = Classified
                   (RateLimitError msg
                      match h !! "retry-after" with
                      | Some v =>
                          if String.eqb v "" then None
                          else Some (mul (parseInt v) (of_Z 1000))
                      | None => None
                      end d))
      ∧ (response_status e = Some 429 → response_headers e = None →
           t = Raw (TypeError
                      "Cannot read properties of undefined (reading 'retry-after')"))
      ∧ (∀ st, response_status e = Some st → 400 ≤ st < 500 →
           st ≠ 400 → st ≠ 401 → st ≠ 429 →
           ∃ msg d, t = Classified (HttpClientError st msg d))
      ∧ (∀ st, response_status e = Some st → 500 ≤ st →
           ∃ msg d, t = Classified (HttpServerError st msg true d))
      ∧ (has_failure_status e = false →
           (is_timeout e = true → ∃ msg d, t = Classified (TimeoutError msg (Some 30000) d))
           ∧ (is_timeout e = false → is_connection_failure e = true →
              ∃ msg d, t = Classified (NetworkError msg (Some e) d))
           ∧ (is_timeout e = false → is_connection_failure e = false →
              is_json_failure e = true →
              ∃ msg d, t = Classified (MalformedResponseError msg (response_data e) d))
           ∧ (is_timeout e = false → is_connection_failure e = false →
              is_json_failure e = false → is_missing_field e = true →
              ∃ msg d,
                t = Classified
                      (MalformedResponseError msg (JSON_stringify (response_data e)) d))
           ∧ (is_timeout e = false → is_connection_failure e = false →
              is_json_failure e = false → is_missing_field e = false →
              looks_classified e = true → t = Raw e)
           ∧ (is_timeout e = false → is_connection_failure e = false →
              is_json_failure e = false → is_missing_field e = false →
              looks_classified e = false →
              ∃ msg d, t = Classified (HttpServerError 500 msg true d))).
Proof.
  intros env io request token e m Htoken Hpost Hm.
  exists (classify e).
  split; [by apply (execute_transport_failure env io request token)|].
  split_and!.
  - intros Hst. unfold classify. rewrite Hst. simpl. by eexists _, _.
  - intros Hst. unfold classify. rewrite Hst. simpl. by eexists _, _.
  - intros h Hst Hh. unfold classify. rewrite Hst, Hh. simpl. by eexists _, _.
  - intros Hst Hh. unfold classify. by rewrite Hst, Hh.
  - intros st Hst Hrange H400 H401 H429. unfold classify. rewrite Hst.
    rewrite !bool_decide_eq_false_2 by congruence.
    assert (negb (st =? 0) && (400 <=? st) && (st <? 500) = true) as ->.
    { apply andb_true_iff. split; [apply andb_true_iff; split|]; lia. }
    by eexists _, _.
  - intros st Hst H500. unfold classify. rewrite Hst.
    rewrite !bool_decide_eq_false_2 by (intros [= ->]; lia).
    assert (negb (st =? 0) && (400 <=? st) && (st <? 500) = false) as ->.
    { apply andb_false_iff. right. lia. }
    assert (negb (st =? 0) && (500 <=? st) = true) as ->.
    { apply andb_true_iff. split; lia. }
    by eexists _, _.
  - intros Hno. rewrite (classify_no_status e Hno).
    destruct (classify_transport_chain e m Hm) as (H1 & H2 & H3 & H4 & H5 & H6).
    split_and!.
    + intros A. destruct (H1 A) as [d ->]. by eexists _, _.
    + intros A B. destruct (H2 A B) as [d ->]. by eexists _, _.
    + intros A B C. destruct (H3 A B C) as [d ->]. by eexists _, _.
    + intros A B C D. destruct (H4 A B C D) as [d ->]. by eexists _, _.
    + done.
    + intros A B C D F. destruct (H6 A B C D F) as [d ->]. by eexists _, _.
Qed.

(** The reply 429 with [retry-after: 5]: a [RateLimitError] with
    [retryAfterMs = 5000]. *)
Lemma execute_classification_chain_witness :
  ∃ msg d,
    execute sample_env (transport_fails too_many_requests) sample_request
    = Throw (Classified (RateLimitError msg (Some (of_Z 5000)) d)).
Proof.
  destruct (execute_classification_chain sample_env (transport_fails too_many_requests)
              sample_request "test-token" too_many_requests
              "Request failed with status code 429")
    as (t & Ht & _ & _ & H429 & _).
  - reflexivity.
  - reflexivity.
  - reflexivity.
  - destruct (H429 {[ "retry-after" := "5" ]} eq_refl eq_refl) as (msg & d & ->).
    exists msg, d. exact Ht.
Defined.

(** *** Responses with no rate *)

(** C6 (what the code does).  The parser fails for want of a field exactly
    when the envelope or its rated shipment is missing from the response
    body, and [execute] then throws a [MalformedResponseError]; but its
    [rawResponse] is [undefined] whatever the body was: the handler reads
    the body off [error.response], which the parser's error does not have. *)
Theorem missing_field_error_carries_no_body :
  ∀ env io request token response,
    tokenManager_getToken io = Return token →
    (∀ url payload headers, http_post io url payload headers = Return response) →
    ((∃ m, parseUpsResponse (data response) = Throw (Error m)
           ∧ includes m "missing" = true)
     ↔ truthy (envelope (data response)) = false
       ∨ truthy (ratedShipment (data response)) = false)
    ∧ (truthy (envelope (data response)) = false
       ∨ truthy (ratedShipment (data response)) = false →
       ∃ d, execute env io request
            = Throw (Classified
                       (MalformedResponseError "UPS API response missing required fields"
                          JUndefined d))).
Proof.
  intros env io request token response Htoken Hpost.
  split; [apply parseUpsResponse_missing|].
  intros Hmissing.
  rewrite (execute_parse env io request token response Htoken Hpost).
  destruct (parseUpsResponse_cases (data response))
    as [[H1 ->]|[(H1 & H2 & ->)|[(H1 & H2 & _)|(H1 & H2 & _)]]].
  - by eexists.
  - by eexists.
  - destruct Hmissing; congruence.
  - destruct Hmissing; congruence.
Qed.

(** The reply [{}] : the body is lost. *)
Lemma missing_field_error_carries_no_body_witness :
  ∃ d, execute sample_env (transport_answers (JObj [])) sample_request
       = Throw (Classified
                  (MalformedResponseError "UPS API response missing required fields"
                     JUndefined d))
       ∧ JSON_stringify (JObj []) = JStr "{}".
Proof.
  destruct (missing_field_error_carries_no_body sample_env (transport_answers (JObj []))
              sample_request "test-token" {| status := 200; data := JObj [] |}
              eq_refl (fun _ _ _ => eq_refl)) as [_ H].
  destruct (H (or_introl eq_refl)) as [d Hd].
  exists d. split; [exact Hd|reflexivity].
Defined.

(** *** The handler on the replies of the test suite *)

Example status_401_400_500 :
  (∃ d, execute sample_env
          (transport_fails (bad_status 401 (JObj [("error", JStr "Unauthorized")])))
          sample_request
        = Throw (Classified
                   (AuthenticationError
                      "UPS authentication failed: Invalid credentials or expired token" d)))
  ∧ (∃ d, execute sample_env
            (transport_fails (bad_status 400 (JObj [("error", JStr "Invalid request")])))
            sample_request
          = Throw (Classified
                     (HttpClientError 400 "UPS rejected request: Invalid shipment data" d)))
  ∧ (∃ d, execute sample_env
            (transport_fails (bad_status 500 (JObj [("error", JStr "Internal Server Error")])))
            sample_request
          = Throw (Classified (HttpServerError 500 "UPS server error: HTTP 500" true d))).
Proof. split_and!; eexists; by vm_compute. Qed.

Example valid_reply_gives_one_quote :
  ∃ q, execute sample_env (transport_answers valid_response) sample_request = Return [q]
    ∧ carrier q = "UPS" ∧ serviceCode q = JStr "03" ∧ amount q = parseFloat "15.54".
Proof. eexists. split; [by vm_compute|]. by vm_compute. Qed.

End RateOperationFacts.

(** * More on the token lifecycle manager *)

Section TokenManagerRuns.
Import Js TokenManager.

(** What one event does to the stored token and to the count of fetches. *)
Lemma step_effect ev s outs s' :
  step ev s = Some (outs, s') →
  token s' = match ev with
             | FetchResolved _ res => Some (access_token res)
             | _ => token s
             end
  ∧ expiresAt s' = match ev with
                   | FetchResolved _ res => Some (now s + expires_in res * 1000 - 30000)
                   | _ => expiresAt s
                   end
  ∧ fetchCalls s' = (fetchCalls s + started outs)%nat
  ∧ List.length outs = calls [ev]
  ∧ (∀ p, Started p ∈ outs → p = fetchCalls s)
  ∧ now s ≤ now s'.
Proof.
  intros Hstep. destruct ev as [|q res|q r|q|dt]; simpl in Hstep.
  - unfold getToken in Hstep.
    destruct (cached s); [|destruct (refreshing s)]; simplify_eq/=;
      unfold fetchCalls, started; simpl; rewrite ?length_app; simpl;
      split_and!; try done; try lia;
      intros p Hp%list_elem_of_singleton; by simplify_eq.
  - unfold refresh_resolved in Hstep.
    destruct (promises s !! q) as [[| |]|]; simplify_eq/=.
    unfold fetchCalls, started; simpl. rewrite length_insert.
    split_and!; try done; try lia. by intros p ?%elem_of_nil.
  - unfold refresh_rejected in Hstep.
    destruct (promises s !! q) as [[| |]|]; simplify_eq/=.
    unfold fetchCalls, started; simpl. rewrite length_insert.
    split_and!; try done; try lia. by intros p ?%elem_of_nil.
  - unfold getToken_resumed in Hstep. case_bool_decide; [|done].
    destruct (promises s !! q) as [[| |]|]; simplify_eq/=;
      unfold fetchCalls, started; simpl;
      split_and!; try done; try lia; by intros p ?%elem_of_nil.
  - simplify_eq/=. unfold fetchCalls, started; simpl.
    split_and!; try done; try lia. by intros p ?%elem_of_nil.
Qed.

Lemma started_app o1 o2 : started (o1 ++ o2) = (started o1 + started o2)%nat.
Proof. unfold started. by rewrite filter_app, length_app. Qed.

Lemma started_elem p outs : Started p ∈ outs → (0 < started outs)%nat.
Proof.
  intros Hp. unfold started.
  assert (Started p ∈ filter (λ o, is_started o = true) outs) as Hin.
  { by apply list_elem_of_filter. }
  destruct (filter _ outs); [by apply elem_of_nil in Hin|]. simpl. lia.
Qed.

Lemma last_token_cons ev evs :
  last_token (ev :: evs) =
  match last_token evs with
  | Some t => Some t
  | None => match ev with FetchResolved _ res => Some (access_token res) | _ => None end
  end.
Proof.
  unfold last_token. destruct ev; try (simpl; by destruct (last (responses evs))).
  cbn [responses]. rewrite last_cons. by destruct (last (responses evs)).
Qed.

(** The token stored at the end of a run is the one its last resolved fetch
    returned, and the one stored at its start when no fetch resolved. *)
Lemma run_token evs : ∀ s outs s',
  run evs s = Some (outs, s') →
  token s' = match last_token evs with Some t => Some t | None => token s end
  ∧ ((is_Some (token s) ↔ is_Some (expiresAt s)) →
     (is_Some (token s') ↔ is_Some (expiresAt s'))).
Proof.
  induction evs as [|ev evs IH]; intros s outs s' Hrun.
  - simpl in Hrun. by simplify_eq.
  - apply run_cons in Hrun as (o1 & s1 & o2 & Hstep & Hrun & ->).
    apply step_effect in Hstep as (Htok & Hexp & _).
    apply IH in Hrun as [Htok' Hpair].
    split.
    + rewrite last_token_cons, Htok'.
      destruct (last_token evs); [done|]. by destruct ev.
    + intros Hs. apply Hpair. rewrite Htok, Hexp.
      by destruct ev.
Qed.

(** X1.  In every state a manager can reach, the stored token is the
    [access_token] of the last fetch that resolved, and none is stored before
    a fetch has resolved; a token is stored exactly when an expiry is; so a
    call served from the cache is handed the token of the last resolved
    fetch, never an older one. *)
Theorem cache_holds_the_latest_token :
  ∀ t evs outs s,
    run evs (create t) = Some (outs, s) →
    token s = last_token evs
    ∧ (is_Some (token s) ↔ is_Some (expiresAt s))
    ∧ (∀ tok, (getToken s).1 = Hit tok →
         ∃ res, last (responses evs) = Some res ∧ access_token res = tok).
Proof.
  intros t evs outs s Hrun.
  apply run_token in Hrun as [Htok Hpair]. simpl in Htok.
  assert (token s = last_token evs) as Hlast.
  { rewrite Htok. by destruct (last_token evs). }
  split; [done|]. split.
  - apply Hpair. simpl. split; intros [? ?]; done.
  - intros tok Hhit. apply getToken_Hit, cached_Some in Hhit as (Hs & _).
    rewrite Hlast in Hs. unfold last_token in Hs.
    destruct (last (responses evs)) as [res|]; [|done].
    exists res. split; [done|]. simpl in Hs. congruence.
Qed.

(** Two fetches, the second after the first token has run out: the call
    that follows is handed the second token. *)
Lemma cache_holds_the_latest_token_witness :
  ∃ outs s,
    run two_refreshes (create 0) = Some (outs, s)
    ∧ (getToken s).1 = Hit "b"
    ∧ token s = last_token two_refreshes
    ∧ (is_Some (token s) ↔ is_Some (expiresAt s))
    ∧ (∀ tok, (getToken s).1 = Hit tok →
         ∃ res, last (responses two_refreshes) = Some res ∧ access_token res = tok).
Proof.
  eexists _, _. split; [compute; reflexivity|]. split; [compute; reflexivity|].
  eapply (cache_holds_the_latest_token 0 two_refreshes). compute. reflexivity.
Defined.

(** X2.  [fetchToken] is called by a call of [getToken] that starts a
    refresh and by nothing else: over any run from any state, the count of
    fetches grows by the number of calls that were handed a refresh they
    started themselves; a call served from the cache or handed a refresh in
    flight calls nothing, nor does the settling of a fetch or the passing of
    time.  Each call yields one outcome, and the refreshes started are
    numbered in the order of the fetches. *)
Theorem fetches_are_started_refreshes :
  ∀ evs s outs s',
    run evs s = Some (outs, s') →
    fetchCalls s' = (fetchCalls s + started outs)%nat
    ∧ List.length outs = calls evs
    ∧ (∀ p, Started p ∈ outs → (fetchCalls s ≤ p < fetchCalls s')%nat).
Proof.
  induction evs as [|ev evs IH]; intros s outs s' Hrun.
  - simpl in Hrun. simplify_eq. unfold started. simpl.
    split_and!; [lia|done|]. by intros p ?%elem_of_nil.
  - apply run_cons in Hrun as (o1 & s1 & o2 & Hstep & Hrun & ->).
    apply step_effect in Hstep as (_ & _ & Hf & Hlen & Hst & _).
    apply IH in Hrun as (Hf' & Hlen' & Hst').
    rewrite started_app, length_app, calls_cons.
    split_and!; [lia| |].
    { rewrite Hlen, Hlen'. unfold calls. by destruct ev. }
    intros p [Hp|Hp]%elem_of_app.
    + pose proof (started_elem _ _ Hp). apply Hst in Hp as ->. lia.
    + apply Hst' in Hp. lia.
Qed.

(** The cold start of [two_refreshes] and its second refresh are the two
    fetches. *)
Lemma fetches_are_started_refreshes_witness :
  ∃ outs s,
    run two_refreshes (create 0) = Some (outs, s)
    ∧ outs = [Started 0; Started 1]
    ∧ fetchCalls s = (fetchCalls (create 0) + started outs)%nat
    ∧ List.length outs = calls two_refreshes
    ∧ (∀ p, Started p ∈ outs → (fetchCalls (create 0) ≤ p < fetchCalls s)%nat).
Proof.
  eexists _, _. split; [compute; reflexivity|]. split; [reflexivity|].
  apply (fetches_are_started_refreshes two_refreshes (create 0)). compute. reflexivity.
Defined.

Lemma elapsed_nonneg evs : 0 ≤ elapsed evs.
Proof. induction evs as [|[] evs IH]; simpl; lia. Qed.

(** X3.  While the stored token is valid, calls are served from the cache
    however many they are: over any sequence of calls and waits that ends
    before the stored expiry, every call is handed the stored token, no
    fetch is started, and nothing changes in the manager but the clock. *)
Theorem valid_token_is_served_without_fetch :
  ∀ evs s tok e,
    cached s = Some tok → expiresAt s = Some e →
    Forall (λ ev, is_call_or_tick ev = true) evs →
    now s + elapsed evs < e →
    ∃ s', run evs s = Some (replicate (calls evs) (Hit tok), s')
          ∧ same_but_clock s s'
          ∧ now s' = now s + elapsed evs
          ∧ fetchCalls s' = fetchCalls s
          ∧ cached s' = Some tok.
Proof.
  induction evs as [|ev evs IH]; intros s tok e Hc He Hevs Hlt.
  - exists s. simpl in *. unfold same_but_clock. split_and!; try done; lia.
  - apply Forall_cons_1 in Hevs as [Hev Hevs].
    destruct ev as [| | | |dt]; try done.
    + simpl in Hlt. destruct (IH s tok e Hc He Hevs Hlt) as (s' & Hrun & Hrest).
      exists s'. split; [|done].
      rewrite calls_cons. simpl. unfold getToken. rewrite Hc. simpl.
      by rewrite Hrun.
    + simpl in Hlt. pose proof (elapsed_nonneg evs) as Hpos.
      assert (cached (tick dt s) = Some tok) as Hc'.
      { apply cached_Some in Hc as (Ht & Hne & e' & He' & Hlt').
        apply cached_Some. simpl. split_and!; try done.
        exists e. split; [done|]. lia. }
      destruct (IH (tick dt s) tok e Hc' He Hevs) as (s' & Hrun & Hsame & Hnow & Hf & Hc'').
      { simpl. lia. }
      exists s'. rewrite calls_cons. simpl. rewrite Hrun. simpl.
      destruct Hsame as (? & ? & ? & ? & ? & ?). simpl in *.
      unfold same_but_clock. split_and!; try done; lia.
Qed.

(** A token good for an hour: three calls over 59 minutes are served from
    the cache. *)
Lemma valid_token_is_served_without_fetch_witness :
  ∃ s',
    run (hour_token ++ three_calls) (create 0)
    = Some (Started 0 :: replicate (calls three_calls) (Hit "t"), s')
    ∧ ∃ s, run hour_token (create 0) = Some ([Started 0], s)
      ∧ ∃ s'', run three_calls s = Some (replicate (calls three_calls) (Hit "t"), s'')
          ∧ same_but_clock s s''
          ∧ now s'' = now s + elapsed three_calls
          ∧ fetchCalls s'' = fetchCalls s
          ∧ cached s'' = Some "t".
Proof.
  eexists. split; [compute; reflexivity|].
  eexists. split; [compute; reflexivity|].
  eapply (valid_token_is_served_without_fetch three_calls _ "t" 3570000).
  - compute. reflexivity.
  - reflexivity.
  - repeat constructor.
  - simpl. lia.
Defined.

(** Without a usable token and while no fetch resolves, no call is served
    from the cache. *)
Lemma unusable_run evs : ∀ s outs s',
  cached s = None → responses evs = [] → run evs s = Some (outs, s') →
  cached s' = None ∧ ∀ o t, o ∈ outs → o ≠ Hit t.
Proof.
  induction evs as [|ev evs IH]; intros s outs s' Hc Hres Hrun.
  - simpl in Hrun. simplify_eq. split; [done|]. by intros o t ?%elem_of_nil.
  - apply run_cons in Hrun as (o1 & s1 & o2 & Hstep & Hrun & ->).
    assert (responses evs = [] ∧ ∀ q res, ev ≠ FetchResolved q res) as [Hres' Hev].
    { destruct ev; simpl in Hres; done. }
    assert (∀ o t, o ∈ o1 → o ≠ Hit t) as Ho1.
    { destruct ev as [|q res|q r|q|dt]; simpl in Hstep.
      - unfold getToken in Hstep. rewrite Hc in Hstep.
        destruct (refreshing s); simplify_eq/=;
          by intros o t ->%list_elem_of_singleton.
      - by destruct (Hev q res).
      - destruct (refresh_rejected q r s); simplify_eq/=;
          by intros o t ?%elem_of_nil.
      - destruct (getToken_resumed q s); simplify_eq/=;
          by intros o t ?%elem_of_nil.
      - simplify_eq/=; by intros o t ?%elem_of_nil. }
    apply step_effect in Hstep as (Htok & Hexp & _ & _ & _ & Hnow).
    assert (cached s1 = None) as Hc1.
    { apply (cached_None_later s); [done| | |done].
      - rewrite Htok. by destruct ev.
      - rewrite Hexp. by destruct ev. }
    destruct (IH _ _ _ Hc1 Hres' Hrun) as [Hc2 Ho2].
    split; [done|]. intros o t [?|?]%elem_of_app; eauto.
Qed.

(** X4.  A fetch that resolves with an empty [access_token] leaves the
    manager without a usable token, whatever [expires_in] it came with: the
    empty string is stored, the cache test fails on it, and until a later
    fetch resolves no call is served from the cache.  A call made while the
    marker is clear starts a new fetch.  A call made while the marker is set
    starts none: it is handed the marked promise, whatever has become of
    it; right after the storing, the marker still being that of the
    refresh, this is the fulfilled promise, and the caller gets the empty
    token. *)
Theorem empty_token_is_never_served :
  ∀ s p res s1 evs outs s2,
    refresh_resolved p res s = Some s1 → access_token res = "" →
    run evs s1 = Some (outs, s2) → responses evs = [] →
    token s1 = Some ""
    ∧ (∀ o t, o ∈ outs → o ≠ Hit t)
    ∧ cached s2 = None
    ∧ (getToken s2).1 = match refreshing s2 with
                        | Some q => Joined q
                        | None => Started (fetchCalls s2)
                        end
    ∧ (refreshing s2 = None → fetchCalls (getToken s2).2 = S (fetchCalls s2))
    ∧ (∀ q, refreshing s2 = Some q → getToken s2 = (Joined q, s2))
    ∧ (refreshing s = Some p →
       getToken s1 = (Joined p, s1) ∧ settled s1 (Joined p) = Some (Return "")).
Proof.
  intros s p res s1 evs outs s2 Hstore Hres Hrun Hnone.
  unfold refresh_resolved in Hstore.
  destruct (promises s !! p) as [[| |]|] eqn:Hp; simplify_eq.
  match type of Hrun with run evs ?x = _ => set (s1 := x) in * end.
  assert (cached s1 = None) as Hc1.
  { unfold cached. simpl. by rewrite Hres. }
  destruct (unusable_run _ _ _ _ Hc1 Hnone Hrun) as [Hc2 Houts].
  split_and!; try done.
  - simpl. by rewrite Hres.
  - unfold getToken. rewrite Hc2. by destruct (refreshing s2).
  - intros Hr. unfold getToken. rewrite Hc2, Hr. simpl.
    unfold fetchCalls. simpl. rewrite length_app. simpl. lia.
  - intros q Hq. unfold getToken. by rewrite Hc2, Hq.
  - intros Hr. split.
    + unfold getToken. rewrite Hc1. simpl. by rewrite Hr.
    + simpl. unfold promise_result. simpl. rewrite Hres.
      rewrite list_lookup_insert_eq; [done|]. by eapply lookup_lt_Some.
Qed.

(** An empty token said to be good for an hour, and a second call 1 ms
    after it was stored: a second fetch. *)
Lemma empty_token_is_never_served_witness :
  ∃ s s1 outs s2,
    run [Call] (create 0) = Some ([Started 0], s)
    ∧ refresh_resolved 0 {| access_token := EmptyString; expires_in := 3600 |} s = Some s1
    ∧ run [Resumed 0; Tick 1; Call] s1 = Some (outs, s2)
    ∧ outs = [Started 1]
    ∧ token s1 = Some EmptyString
    ∧ (∀ o t, o ∈ outs → o ≠ Hit t)
    ∧ cached s2 = None
    ∧ (getToken s2).1 = match refreshing s2 with
                        | Some q => Joined q
                        | None => Started (fetchCalls s2)
                        end
    ∧ (refreshing s2 = None → fetchCalls (getToken s2).2 = S (fetchCalls s2))
    ∧ (∀ q, refreshing s2 = Some q → getToken s2 = (Joined q, s2))
    ∧ (refreshing s = Some 0%nat →
       getToken s1 = (Joined 0, s1) ∧ settled s1 (Joined 0) = Some (Return EmptyString)).
Proof.
  exists (getToken (create 0)).2. eexists _, _, _.
  split; [compute; reflexivity|]. split; [compute; reflexivity|].
  split; [compute; reflexivity|]. split; [reflexivity|].
  eapply (empty_token_is_never_served (getToken (create 0)).2 0%nat
            {| access_token := EmptyString; expires_in := 3600 |} _ [Resumed 0; Tick 1; Call]).
  - compute. reflexivity.
  - reflexivity.
  - compute. reflexivity.
  - reflexivity.
Defined.

Lemma unpark_all p l : (∀ q, q ∈ l → q = p) → unpark p l = [].
Proof.
  intros Hall. unfold unpark. induction l as [|q l IH]; [done|].
  rewrite filter_cons. rewrite decide_False.
  - apply IH. intros r Hr. apply Hall. by right.
  - intros Hne. apply Hne, Hall. by left.
Qed.

(** X5.  A refresh that succeeds brings the manager back to rest.  In every
    state a manager can reach, a fetch that has not settled can resolve and
    its starter can then resume; after that the marker is cleared, no fetch
    is outstanding, no activation is parked, the promise of the refresh
    holds the fetched token, and the token is stored with its expiry.  The
    next call is served from the cache when the token is not empty and good
    for more than 30 seconds. *)
Theorem resolved_refresh_clears_marker :
  ∀ s p res,
    reachable s → promises s !! p = Some Pending →
    ∃ s1 s2,
      step (FetchResolved p res) s = Some ([], s1)
      ∧ step (Resumed p) s1 = Some ([], s2)
      ∧ refreshing s2 = None
      ∧ outstanding s2 = 0%nat
      ∧ parked s2 = []
      ∧ promise_result s2 p = Some (Return (access_token res))
      ∧ token s2 = Some (access_token res)
      ∧ expiresAt s2 = Some (now s + expires_in res * 1000 - 30000)
      ∧ (access_token res ≠ "" → 30 < expires_in res →
         getToken s2 = (Hit (access_token res), s2)).
Proof.
  intros s p res Hreach Hp.
  pose proof (inv_reachable _ Hreach) as Hinv.
  pose proof (inv_pending _ Hinv _ Hp) as Hpk.
  assert (p < List.length (promises s))%nat as Hlen by by eapply lookup_lt_Some.
  assert (∃ s1 s2, step (FetchResolved p res) s = Some ([], s1)
                   ∧ step (Resumed p) s1 = Some ([], s2)
                   ∧ s2 = {| token := Some (access_token res);
                             expiresAt := Some (now s + expires_in res * 1000 - 30000);
                             refreshing := None;
                             promises := <[p := Fulfilled (access_token res)]> (promises s);
                             parked := unpark p (parked s);
                             now := now s |}) as (s1 & s2 & Hs1 & Hs2 & Heq).
  { eexists _, _. split.
    { simpl. unfold refresh_resolved. rewrite Hp. reflexivity. }
    split; [|reflexivity].
    simpl. unfold getToken_resumed. simpl.
    rewrite bool_decide_eq_true_2 by done.
    rewrite list_lookup_insert_eq by done. reflexivity. }
  exists s1, s2. split; [done|]. split; [done|].
  assert (inv s2) as Hinv2.
  { eapply (inv_step (Resumed p)); [|exact Hs2].
    eapply (inv_step (FetchResolved p res)); [exact Hinv|exact Hs1]. }
  assert (refreshing s2 = None) as Hr by by rewrite Heq.
  split; [done|]. split.
  { unfold outstanding. apply no_pending_count. by apply idle_no_pending. }
  rewrite Heq. simpl. split_and!; try done.
  - apply unpark_all. intros q Hq.
    pose proof (inv_parked _ Hinv _ Hq) as H1.
    pose proof (inv_parked _ Hinv _ Hpk) as H2. congruence.
  - unfold promise_result. simpl. by rewrite list_lookup_insert_eq.
  - intros Hne Hlong. unfold getToken, cached. simpl.
    apply String.eqb_neq in Hne. rewrite Hne. simpl.
    assert ((now s <? now s + expires_in res * 1000 - 30000) = true) as ->; [|done].
    apply Z.ltb_lt. lia.
Qed.

(** The cold start of a manager: the fetch of its first call resolves. *)
Lemma resolved_refresh_clears_marker_witness :
  reachable (getToken (create 0)).2
  ∧ ∃ s1 s2,
      step (FetchResolved 0 {| access_token := "t"; expires_in := 3600 |})
           (getToken (create 0)).2 = Some ([], s1)
      ∧ step (Resumed 0) s1 = Some ([], s2)
      ∧ refreshing s2 = None
      ∧ outstanding s2 = 0%nat
      ∧ parked s2 = []
      ∧ promise_result s2 0 = Some (Return "t")
      ∧ token s2 = Some "t"
      ∧ expiresAt s2 = Some (now (getToken (create 0)).2 + 3600 * 1000 - 30000)
      ∧ ("t" ≠ EmptyString → 30 < 3600 → getToken s2 = (Hit "t", s2)).
Proof.
  assert (reachable (getToken (create 0)).2) as Hreach.
  { by exists 0, [Call], [Started 0%nat]. }
  split; [exact Hreach|].
  apply (resolved_refresh_clears_marker (getToken (create 0)).2 0%nat
           {| access_token := "t"; expires_in := 3600 |} Hreach).
  reflexivity.
Defined.

End TokenManagerRuns.

(** * More on the mapper *)

Section RateMapperMore.
Import Js RateMapper.

(** ** Decimal numerals *)

Lemma str_list_list_str l : str_list (list_str l) = l.
Proof. induction l as [|c l IH]; simpl; congruence. Qed.

Lemma digit_char_spec d :
  (d < 10)%N → digit_val (digit_char d) = d ∧ is_digit (digit_char d) = true.
Proof.
  intros Hd.
  assert (d = 0 ∨ d = 1 ∨ d = 2 ∨ d = 3 ∨ d = 4 ∨ d = 5 ∨ d = 6 ∨ d = 7 ∨ d = 8 ∨ d = 9)%N
    as Hcases by lia.
  destruct_or!; subst d; by vm_compute.
Qed.

Lemma digits_val_snoc l c : digits_val (l ++ [c]) = (digits_val l * 10 + digit_val c)%N.
Proof. unfold digits_val. by rewrite foldl_app. Qed.

Lemma digits_go_spec f : ∀ m acc,
  (m < 2 ^ N.of_nat f * 10)%N →
  ∃ D, digits_go (S f) m acc = D ++ acc
       ∧ D ≠ []
       ∧ Forall (λ c, is_digit c = true) D
       ∧ digits_val D = m.
Proof.
  induction f as [|f IH]; intros m acc Hm.
  - assert (m < 10)%N as Hlt by (simpl in Hm; lia).
    exists [digit_char m]. simpl.
    apply N.ltb_lt in Hlt as Hb. rewrite Hb.
    rewrite N.mod_small by done.
    destruct (digit_char_spec m Hlt) as [Hv Hd].
    split_and!; try done; try (by constructor);
      unfold digits_val; simpl; lia.
  - change (digits_go (S (S f)) m acc)
      with (if (m <? 10)%N then digit_char (m `mod` 10)%N :: acc
            else digits_go (S f) (m `div` 10)%N (digit_char (m `mod` 10)%N :: acc)).
    assert (m `mod` 10 < 10)%N as Hmod by (apply N.mod_lt; lia).
    destruct (digit_char_spec _ Hmod) as [Hv Hd].
    destruct (m <? 10)%N eqn:Hb.
    + apply N.ltb_lt in Hb. exists [digit_char (m `mod` 10)%N].
      split_and!; try done; try (by constructor);
        unfold digits_val; simpl; rewrite Hv; rewrite N.mod_small by done; lia.
    + apply N.ltb_ge in Hb.
      destruct (IH (m `div` 10)%N (digit_char (m `mod` 10)%N :: acc))
        as (D & HD & Hne & Hall & Hval).
      { rewrite Nat2N.inj_succ, N.pow_succ_r' in Hm.
        assert (0 < 2 ^ N.of_nat f)%N by (apply N.neq_0_lt_0, N.pow_nonzero; lia).
        apply N.Div0.div_lt_upper_bound. lia. }
      exists (D ++ [digit_char (m `mod` 10)%N]).
      split_and!.
      * rewrite HD. by rewrite <- app_assoc.
      * by destruct D.
      * apply Forall_app. split; [done|]. by constructor.
      * rewrite digits_val_snoc, Hval, Hv.
        pose proof (N.div_mod m 10). lia.
Qed.

(** The digits of [m] are decimal digits, at least one, and stand for [m]. *)
Lemma digits_spec m :
  digits m ≠ [] ∧ Forall (λ c, is_digit c = true) (digits m) ∧ digits_val (digits m) = m.
Proof.
  unfold digits.
  destruct (digits_go_spec (N.to_nat (N.size m)) m []) as (D & HD & Hne & Hall & Hval).
  { rewrite N2Nat.id. pose proof (N.size_gt m). lia. }
  rewrite HD, app_nil_r. done.
Qed.

Lemma is_digit_range c :
  is_digit c = true → (48 ≤ Ascii.nat_of_ascii c ≤ 57)%nat.
Proof.
  unfold is_digit. intros [H1 H2]%andb_true_iff.
  apply Nat.leb_le in H1. apply Nat.leb_le in H2. lia.
Qed.

Lemma is_digit_not c n :
  is_digit c = true → (n < 48 ∨ 57 < n)%nat → (n < 256)%nat → ascii_eqb c (chr n) = false.
Proof.
  intros Hd%is_digit_range Hn Hlt. unfold ascii_eqb. apply bool_decide_eq_false.
  intros ->. unfold chr in Hd. rewrite Ascii.nat_ascii_embedding in Hd by done. lia.
Qed.

Lemma is_digit_not_space c : is_digit c = true → is_space c = false.
Proof.
  intros Hd%is_digit_range. unfold is_space.
  apply orb_false_iff. split.
  - apply andb_false_iff. right. apply Nat.leb_gt. lia.
  - apply Nat.eqb_neq. lia.
Qed.

Lemma span_all p l : Forall (λ c, p c = true) l → span p l = (l, []).
Proof.
  induction 1 as [|c l Hc _ IH]; [done|]. simpl. by rewrite Hc, IH.
Qed.

(** [parseInt] reads back what the conversion of an integer to a string
    wrote. *)
Lemma parseInt_digits (neg : bool) (ds : list ascii) :
  ds ≠ [] → Forall (λ c, is_digit c = true) ds →
  parseInt (list_str ((if neg then [chr 45] else []) ++ ds))
  = norm neg (digits_val ds) 0.
Proof.
  intros Hne Hall. unfold parseInt. rewrite str_list_list_str.
  destruct ds as [|d ds]; [done|].
  apply Forall_cons_1 in Hall as Hd. destruct Hd as [Hd Hds].
  assert (read_sign (skip_spaces ((if neg then [chr 45] else []) ++ d :: ds))
          = (neg, d :: ds)) as ->.
  { destruct neg; simpl.
    - reflexivity.
    - rewrite (is_digit_not_space d Hd). simpl.
      rewrite (is_digit_not d 45 Hd), (is_digit_not d 43 Hd) by lia. done. }
  assert (match d :: ds with
          | z :: x :: r =>
              if ascii_eqb z (chr 48) && (ascii_eqb x (chr 120) || ascii_eqb x (chr 88))
              then Some r else None
          | _ => None
          end = None) as ->.
  { destruct ds as [|x r]; [done|].
    apply Forall_cons_1 in Hds as [Hx _].
    rewrite (is_digit_not x 120 Hx), (is_digit_not x 88 Hx) by lia.
    by rewrite andb_false_r. }
  by rewrite (span_all _ _ Hall).
Qed.

Lemma parseInt_Z_toString z : parseInt (Z_toString z) = of_Z z.
Proof.
  unfold Z_toString, of_Z.
  destruct (digits_spec (Z.abs_N z)) as (Hne & Hall & Hval).
  by rewrite parseInt_digits, Hval.
Qed.

(** ** The request mapper *)

(** X6.  The wire document lists the packages of the request in their
    order, one wire package each: the package at index [i] carries the
    weight and the dimensions of the request's package at [i], written as
    JavaScript writes numbers, and its unit codes, "Pounds" being the
    description of LBS alone and "Inches" of IN alone.  The piece count is
    the number of packages in decimal: [parseInt] reads it back. *)
Theorem wire_packages_follow_the_request :
  ∀ request shipperNumber c,
    let shipment := Shipment (mapToUpsRequest request shipperNumber c).1 in
    parseInt (NumOfPieces shipment) = of_Z (Z.of_nat (List.length (packages request)))
    ∧ List.length (Package_ shipment) = List.length (packages request)
    ∧ (∀ i, Package_ shipment !! i = wire_package <$> packages request !! i)
    ∧ (∀ i pkg,
         packages request !! i = Some pkg →
         ∃ wp, Package_ shipment !! i = Some wp
           ∧ Weight (PackageWeight wp) = Number_toString (weight pkg)
           ∧ Length (Dimensions wp) = Number_toString (length pkg)
           ∧ Width (Dimensions wp) = Number_toString (width pkg)
           ∧ Height (Dimensions wp) = Number_toString (height pkg)
           ∧ (Code (Weight_UnitOfMeasurement (PackageWeight wp)) = "LBS"
              ↔ weightUnit pkg = LBS)
           ∧ (Description (Weight_UnitOfMeasurement (PackageWeight wp)) = "Pounds"
              ↔ weightUnit pkg = LBS)
           ∧ (Description (Weight_UnitOfMeasurement (PackageWeight wp)) = "Kilograms"
              ↔ weightUnit pkg = KGS)
           ∧ (Code (Dimensions_UnitOfMeasurement (Dimensions wp)) = "IN"
              ↔ dimensionUnit pkg = IN)
           ∧ (Description (Dimensions_UnitOfMeasurement (Dimensions wp)) = "Inches"
              ↔ dimensionUnit pkg = IN)
           ∧ (Description (Dimensions_UnitOfMeasurement (Dimensions wp)) = "Centimeters"
              ↔ dimensionUnit pkg = CM)).
Proof.
  intros request shipperNumber c. simpl.
  split; [apply parseInt_Z_toString|].
  split; [by rewrite length_map|].
  split; [intros i; by rewrite list_lookup_fmap|].
  intros i pkg Hi. exists (wire_package pkg).
  rewrite list_lookup_fmap, Hi. simpl.
  destruct (weightUnit pkg), (dimensionUnit pkg); simpl; split_and!; done.
Qed.

(** ** The response parser *)

Lemma push_descriptions_Return entries : ∀ alerts l,
  push_descriptions entries alerts = Return l →
  Forall (fun a => nullish a = false) entries
  ∧ (Forall (λ d, truthy d = true) alerts → Forall (λ d, truthy d = true) l).
Proof.
  induction entries as [|a entries IH]; intros alerts l; simpl.
  - intros [= <-]. by split.
  - destruct (nullish a) eqn:Ha.
    { by destruct a. }
    rewrite (get_not_nullish a _ Ha), bind_Return.
    intros [Hok Htr]%IH. split; [by constructor|].
    intros Hal. apply Htr.
    destruct (truthy (opt_get a "Description")) eqn:Hd; [|done].
    apply Forall_app. split; [done|]. by constructor.
Qed.

Lemma collect_alerts_Return loc alerts l :
  collect_alerts loc alerts = Return l →
  entries_ok loc
  ∧ (Forall (λ d, truthy d = true) alerts → Forall (λ d, truthy d = true) l).
Proof.
  destruct loc; simpl; try (intros [= <-]; by split).
  apply push_descriptions_Return.
Qed.

(** What the parser returns, when it returns. *)
Lemma parseUpsResponse_Return response quotes :
  parseUpsResponse response = Return quotes →
  truthy (envelope response) = true ∧ truthy (ratedShipment response) = true
  ∧ charges_ok response
  ∧ entries_ok (shipmentAlerts response) ∧ entries_ok (responseAlerts response)
  ∧ ∃ total base transport al,
      charges_read response total base transport
      ∧ quotes = [quote_with_alerts response total base transport al]
      ∧ Forall (λ d, truthy d = true) al.
Proof.
  rewrite parseUpsResponse_unfold.
  destruct (truthy (envelope response)); [|done].
  destruct (truthy (ratedShipment response)); [|done]. simpl negb. cbv iota.
  destruct (parseFloat_any _) as [total|e0] eqn:Ht; [|done]. rewrite bind_Return.
  destruct (charge _ "BaseServiceCharge") as [base|e0] eqn:Hb; [|done].
  rewrite bind_Return.
  destruct (charge _ "TransportationCharges") as [transport|e0] eqn:Htr; [|done].
  rewrite bind_Return.
  destruct (collect_alerts _ []) as [al1|e1] eqn:H1; [|done].
  rewrite bind_Return.
  destruct (collect_alerts _ al1) as [al2|e2] eqn:H2; [|done].
  rewrite bind_Return. intros [= <-].
  apply collect_alerts_Return in H1 as [Hok1 Htr1].
  apply collect_alerts_Return in H2 as [Hok2 Htr2].
  assert (charges_read response total base transport) as Hread by done.
  split_and!; try done.
  - apply charges_ok_read. by exists total, base, transport.
  - exists total, base, transport, al2. split; [done|]. split; [done|].
    apply Htr2, Htr1. constructor.
Qed.

(** X7.  The three ways the parser ends, told apart by the response alone.
    It returns, and then a list of exactly one quote, exactly when the
    envelope and its rated shipment are truthy, the charges [parseFloat] is
    applied to can be converted to a string, and no alerts array holds a
    [null] or [undefined] entry; it raises a [TypeError] exactly when both
    are truthy and a charge cannot be converted or some alerts array holds
    such an entry; in every other case it throws the [Error] for the
    missing field. *)
Theorem parseUpsResponse_outcomes :
  ∀ response,
    ((∃ quotes, parseUpsResponse response = Return quotes)
     ↔ truthy (envelope response) = true ∧ truthy (ratedShipment response) = true
       ∧ charges_ok response
       ∧ entries_ok (shipmentAlerts response) ∧ entries_ok (responseAlerts response))
    ∧ ((∃ e, parseUpsResponse response = Throw e ∧ e_name e = Some "TypeError")
       ↔ truthy (envelope response) = true ∧ truthy (ratedShipment response) = true
         ∧ ¬ (charges_ok response
              ∧ entries_ok (shipmentAlerts response)
              ∧ entries_ok (responseAlerts response)))
    ∧ ((∃ e, parseUpsResponse response = Throw e ∧ e_name e = Some "Error")
       ↔ truthy (envelope response) = false ∨ truthy (ratedShipment response) = false)
    ∧ (∀ quotes, parseUpsResponse response = Return quotes → List.length quotes = 1%nat).
Proof.
  intros response.
  assert ((∃ quotes, parseUpsResponse response = Return quotes)
          ↔ truthy (envelope response) = true ∧ truthy (ratedShipment response) = true
            ∧ charges_ok response
            ∧ entries_ok (shipmentAlerts response) ∧ entries_ok (responseAlerts response))
    as Hret.
  { split.
    - intros [quotes (? & ? & ? & ? & ? & _)%parseUpsResponse_Return]. done.
    - intros (H1 & H2 & H3 & H4 & H5).
      destruct (parseUpsResponse_present response H1 H2 H3 H4 H5)
        as (total & base & transport & _ & Hp).
      by eexists. }
  split; [exact Hret|].
  destruct (parseUpsResponse_cases response)
    as [[H1 H]|[(H1 & H2 & H)|[(H1 & H2 & e & H & He)
       |(H1 & H2 & total & base & transport & al & _ & H)]]].
  - split_and!.
    + split; [|intros (? & _); congruence]. intros (e & He & Hn).
      rewrite H in He. by simplify_eq.
    + split; [by left|]. intros _. eexists. by split.
    + intros quotes. by rewrite H.
  - split_and!.
    + split; [|intros (_ & ? & _); congruence]. intros (e & He & Hn).
      rewrite H in He. by simplify_eq.
    + split; [by right|]. intros _. eexists. by split.
    + intros quotes. by rewrite H.
  - split_and!.
    + split; [|intros _; by exists e]. intros _. split_and!; try done.
      intros (H3 & H4 & H5).
      destruct (proj2 Hret (conj H1 (conj H2 (conj H3 (conj H4 H5))))) as [quotes Hq].
      congruence.
    + split; [|intros [?|?]; congruence]. intros (e' & He' & Hn).
      rewrite H in He'. simplify_eq; congruence.
    + intros quotes. by rewrite H.
  - split_and!.
    + split; [intros (e & He & _); congruence|]. intros (_ & _ & Hno).
      destruct Hno. assert (∃ quotes, parseUpsResponse response = Return quotes) as Hq
        by by eexists.
      apply Hret in Hq as (_ & _ & ? & ? & ?). done.
    + split; [intros (e & He & _); congruence|]. intros [?|?]; congruence.
    + intros quotes. rewrite H. by intros [= <-].
Qed.

Lemma charge_Return rp k c :
  charge rp k = Return c →
  is_Some c ↔ truthy (opt_get (opt_get rp k) "MonetaryValue") = true.
Proof.
  unfold charge. destruct (truthy _).
  - destruct (parseFloat_any _) as [x|e]; [|done]. intros [= <-].
    split; [done|]. intros _. by exists x.
  - intros [= <-]. split; [|done]. by intros [? ?].
Qed.

(** X8.  Every quote the parser returns is a UPS quote whose optional fields
    are absent or meaningful.  The service name is [undefined] rather than
    an empty string; the service code is the wire's or the empty string;
    the alerts are [undefined] rather than an empty list, and each of them is
    a truthy description; a base or transportation charge is reported
    exactly when the wire holds a truthy value for it, so a wire charge of
    0 or of the empty string is reported as absent. *)
Theorem parseUpsResponse_quote_is_well_formed :
  ∀ response quotes,
    parseUpsResponse response = Return quotes →
    ∃ q, quotes = [q]
      ∧ carrier q = "UPS"
      ∧ (serviceName q = JUndefined ∨ truthy (serviceName q) = true)
      ∧ (serviceCode q = JStr "" ∨ truthy (serviceCode q) = true)
      ∧ (∀ l, alerts q = Some l → l ≠ [] ∧ Forall (λ d, truthy d = true) l)
      ∧ (is_Some (baseCharge q)
         ↔ truthy (opt_get (opt_get (ratedPackage response) "BaseServiceCharge")
                     "MonetaryValue") = true)
      ∧ (is_Some (transportationCharge q)
         ↔ truthy (opt_get (opt_get (ratedPackage response) "TransportationCharges")
                     "MonetaryValue") = true).
Proof.
  intros response quotes
    (_ & _ & _ & _ & _ & total & base & transport & al & (_ & Hb & Htr) & -> & Hal)
      %parseUpsResponse_Return.
  eexists. split; [done|].
  cbn [carrier serviceName serviceCode alerts baseCharge transportationCharge
       quote_with_alerts described_quote].
  split; [done|]. split.
  { unfold or_else.
    destruct (truthy (opt_get (opt_get (ratedShipment response) "Service") "Description"))
      eqn:Hd; [rewrite Hd; by right|]. by left. }
  split.
  { unfold or_else.
    destruct (truthy (opt_get (opt_get (ratedShipment response) "Service") "Code"))
      eqn:Hc; [by right|]. by left. }
  split.
  { intros l. destruct al as [|a al]; [done|]. by intros [= <-]. }
  split; by apply charge_Return.
Qed.

(** The successful reply of the test suite. *)
Lemma parseUpsResponse_quote_is_well_formed_witness :
  ∃ quotes,
    parseUpsResponse valid_response = Return quotes
    ∧ ∃ q, quotes = [q]
      ∧ carrier q = "UPS"
      ∧ (serviceName q = JUndefined ∨ truthy (serviceName q) = true)
      ∧ (serviceCode q = JStr EmptyString ∨ truthy (serviceCode q) = true)
      ∧ (∀ l, alerts q = Some l → l ≠ [] ∧ Forall (λ d, truthy d = true) l)
      ∧ (is_Some (baseCharge q)
         ↔ truthy (opt_get (opt_get (ratedPackage valid_response) "BaseServiceCharge")
                     "MonetaryValue") = true)
      ∧ (is_Some (transportationCharge q)
         ↔ truthy (opt_get (opt_get (ratedPackage valid_response) "TransportationCharges")
                     "MonetaryValue") = true).
Proof.
  eexists. split; [vm_compute; reflexivity|].
  apply (parseUpsResponse_quote_is_well_formed valid_response). vm_compute. reflexivity.
Defined.

(** X9.  A rated shipment that is not an object is not read: when the
    response holds an array of rated shipments (or a string, a number or
    [true]) where one rated shipment is expected, the parser does not fail
    and returns one quote with no service code, no service name, the amount
    0, the currency "USD" and no charge; of the alerts only those of the
    response are kept. *)
Theorem parseUpsResponse_ignores_a_list_of_shipments :
  ∀ response,
    truthy (ratedShipment response) = true →
    (∀ fields, ratedShipment response ≠ JObj fields) →
    entries_ok (responseAlerts response) →
    parseUpsResponse response
    = Return [ {| carrier := "UPS";
                  serviceCode := JStr "";
                  serviceName := JUndefined;
                  amount := Dec false 0 0;
                  currency := JStr "USD";
                  baseCharge := None;
                  transportationCharge := None;
                  alerts := match descriptions (responseAlerts response) with
                            | [] => None
                            | a :: l => Some (a :: l)
                            end |} ].
Proof.
  intros response Hrs Hobj Hra.
  assert (∀ k, opt_get (ratedShipment response) k = JUndefined) as Hk.
  { intros k. destruct (ratedShipment response) as [| | | | | |fields]; try done.
    by destruct (Hobj fields). }
  assert (truthy (envelope response) = true) as Hrr.
  { unfold ratedShipment in Hrs. by destruct (envelope response). }
  rewrite parseUpsResponse_unfold, Hrr, Hrs. simpl negb. cbv iota.
  unfold quote_with_alerts, described_quote, totalCharges, ratedPackage, shipmentAlerts.
  rewrite !Hk. simpl isArray. cbv iota.
  change (charge JUndefined "BaseServiceCharge") with (@Return error _ (@None number)).
  change (charge JUndefined "TransportationCharges") with (@Return error _ (@None number)).
  change (parseFloat_any (or_else (opt_get JUndefined "MonetaryValue") (JStr "0")))
    with (@Return error _ (Dec false 0 0)).
  rewrite !bind_Return. cbv beta. simpl collect_alerts. rewrite bind_Return.
  rewrite (collect_alerts_ok _ [] Hra), bind_Return. simpl.
  by destruct (descriptions (responseAlerts response)).
Qed.

(** The reply to a request for every service: two rated shipments. *)
Lemma parseUpsResponse_ignores_a_list_of_shipments_witness :
  parseUpsResponse shop_response
  = Return [ {| carrier := "UPS";
                serviceCode := JStr EmptyString;
                serviceName := JUndefined;
                amount := Dec false 0 0;
                currency := JStr "USD";
                baseCharge := None;
                transportationCharge := None;
                alerts := match descriptions (responseAlerts shop_response) with
                          | [] => None
                          | a :: l => Some (a :: l)
                          end |} ].
Proof.
  apply (parseUpsResponse_ignores_a_list_of_shipments shop_response).
  - reflexivity.
  - intros fields. vm_compute. discriminate.
  - vm_compute. exact I.
Defined.

End RateMapperMore.

(** * More on the rate operation *)

Section RateOperationMore.
Import Js Errors RateMapper RateOperation.

(** ** What the handler builds *)

Lemma classify_transport_Classified e c :
  classify_transport e = Classified c →
  (∃ d, c = TimeoutError "UPS request timed out" (Some 30000) d ∧ is_timeout e = true)
  ∨ (∃ d, c = NetworkError "Network error connecting to UPS API" (Some e) d
          ∧ is_timeout e = false ∧ is_connection_failure e = true)
  ∨ (∃ d, c = MalformedResponseError "UPS API returned invalid JSON" (response_data e) d
          ∧ is_timeout e = false ∧ is_connection_failure e = false
          ∧ is_json_failure e = true)
  ∨ (∃ d, c = MalformedResponseError "UPS API response missing required fields"
                (JSON_stringify (response_data e)) d
          ∧ is_timeout e = false ∧ is_connection_failure e = false
          ∧ is_json_failure e = false ∧ is_missing_field e = true)
  ∨ (∃ d, c = HttpServerError 500 "Unknown error calling UPS API" true d
          ∧ is_timeout e = false ∧ is_connection_failure e = false
          ∧ is_json_failure e = false ∧ is_missing_field e = false
          ∧ looks_classified e = false).
Proof.
  unfold classify_transport, is_timeout, is_connection_failure, is_json_failure,
    is_missing_field, message_includes.
  destruct (code_is e "ECONNABORTED") eqn:Hab.
  { intros [= <-]. left. by eexists. }
  destruct (e_message e) as [m|] eqn:Hm; [|done].
  destruct (includes m "timeout") eqn:Hto.
  { intros [= <-]. left. by eexists. }
  destruct (code_is e "ENOTFOUND" || code_is e "ECONNREFUSED") eqn:Hnet.
  { intros [= <-]. right. left. by eexists. }
  destruct (includes m "JSON" || e_isSyntaxError e) eqn:Hjs.
  { intros [= <-]. do 2 right. left. by eexists. }
  destruct (includes m "missing" || includes m "RateResponse") eqn:Hmi.
  { intros [= <-]. do 3 right. left. by eexists. }
  destruct (looks_classified e) eqn:Hlc; [done|].
  intros [= <-]. do 4 right. by eexists.
Qed.

(** Every instance of the taxonomy the handler can build, with the test
    that led to it. *)
Lemma classify_Classified e c :
  classify e = Classified c →
  (∃ d, c = AuthenticationError
              "UPS authentication failed: Invalid credentials or expired token" d
        ∧ response_status e = Some 401)
  ∨ (∃ d, c = HttpClientError 400 "UPS rejected request: Invalid shipment data" d
          ∧ response_status e = Some 400)
  ∨ (∃ r d, c = RateLimitError "UPS rate limit exceeded" r d
            ∧ response_status e = Some 429)
  ∨ (∃ st d, c = HttpClientError st ("UPS request failed: HTTP " +:+ Z_toString st) d
             ∧ response_status e = Some st ∧ 400 ≤ st < 500
             ∧ st ≠ 400 ∧ st ≠ 401 ∧ st ≠ 429)
  ∨ (∃ st d, c = HttpServerError st ("UPS server error: HTTP " +:+ Z_toString st) true d
             ∧ response_status e = Some st ∧ 500 ≤ st)
  ∨ (has_failure_status e = false ∧ classify_transport e = Classified c).
Proof.
  unfold classify, has_failure_status.
  case_bool_decide as H401.
  { intros [= <-]. left. by eexists. }
  case_bool_decide as H400.
  { intros [= <-]. right. left. by eexists. }
  case_bool_decide as H429.
  { destruct (response_headers e); [|done].
    intros [= <-]. do 2 right. left. by eexists _, _. }
  destruct (response_status e) as [st|] eqn:Hst.
  - destruct (negb (st =? 0) && (400 <=? st) && (st <? 500)) eqn:H4.
    { intros [= <-]. do 3 right. left. eexists _, _. split; [done|]. split; [done|].
      split; [lia|]. split_and!; congruence. }
    destruct (negb (st =? 0) && (500 <=? st)) eqn:H5.
    { intros [= <-]. do 4 right. left. eexists _, _. split; [done|]. split; [done|]. lia. }
    intros Hc. do 5 right. split; [lia|done].
  - intros Hc. do 5 right. done.
Qed.

Ltac settle_status :=
  first
    [ done
    | by (intros ? [= <-]; left; split; [done|lia])
    | by (split; [done|]; intros ?; simplify_eq; lia)
    | by (split; [done|]; intros (? & ? & ? & ? & ?); simplify_eq; lia)
    | by (split; [|done]; intros _; eexists; split_and!; [done|lia|lia|done|done])
    | by (intros ? ? ? ? [= _ _ <- _]) ].

(** X10.  An instance of the taxonomy built by the handler tells what
    failed.  Its status code is the HTTP status of the failed reply, or the
    500 of the catch-all when no rule on the status applied; it is an
    [AuthenticationError] exactly for status 401, a [RateLimitError] exactly
    for 429, an [HttpClientError] exactly for the other statuses from 400
    to 499; an [HttpServerError] is always retryable; a [TimeoutError]
    always carries 30000 ms; a [NetworkError] carries the caught error as
    its cause; a timeout, a network or a malformed-response error is built
    only when no rule on the status applied; and the handler never builds a
    [ValidationError]. *)
Theorem classified_error_reflects_the_failure :
  ∀ e c,
    classify e = Classified c →
    Errors.name c ≠ "ValidationError"
    ∧ (∀ st, statusCode c = Some st →
         (response_status e = Some st ∧ 400 ≤ st)
         ∨ (st = 500 ∧ has_failure_status e = false))
    ∧ (Errors.name c = "AuthenticationError" ↔ response_status e = Some 401)
    ∧ (Errors.name c = "RateLimitError" ↔ response_status e = Some 429)
    ∧ (Errors.name c = "HttpClientError"
       ↔ ∃ st, response_status e = Some st ∧ 400 ≤ st < 500 ∧ st ≠ 401 ∧ st ≠ 429)
    ∧ (∀ st m r d, c = HttpServerError st m r d → r = true)
    ∧ (∀ m t d, c = TimeoutError m t d →
         t = Some 30000 ∧ has_failure_status e = false ∧ is_timeout e = true)
    ∧ (∀ m o d, c = NetworkError m o d →
         o = Some e ∧ has_failure_status e = false ∧ is_connection_failure e = true)
    ∧ (∀ m raw d, c = MalformedResponseError m raw d →
         has_failure_status e = false
         ∧ (is_json_failure e = true ∨ is_missing_field e = true)).
Proof.
  intros e c Hc.
  destruct (classify_Classified e c Hc)
    as [(d & -> & Hst)|[(d & -> & Hst)|[(r & d & -> & Hst)|[(st & d & -> & Hst & Hr & Hne)
       |[(st & d & -> & Hst & Hr)|[Hno Htr]]]]]].
  - rewrite Hst. split_and!; settle_status.
  - rewrite Hst. split_and!; settle_status.
  - rewrite Hst. split_and!; settle_status.
  - destruct Hne as (H400 & H401 & H429). rewrite Hst. split_and!; settle_status.
  - rewrite Hst. split_and!; settle_status.
  - assert (response_status e ≠ Some 401 ∧ response_status e ≠ Some 429
            ∧ ∀ st, response_status e = Some st → ¬ 400 ≤ st) as (N401 & N429 & Nst).
    { unfold has_failure_status in Hno.
      destruct (response_status e) as [st|]; [|done].
      split_and!; try (intros [= ->]; done). intros st' [= <-]. lia. }
    destruct (classify_transport_Classified e c Htr)
      as [(d & -> & H1)|[(d & -> & H1 & H2)|[(d & -> & H1 & H2 & H3)
         |[(d & -> & H1 & H2 & H3 & H4)|(d & -> & H1 & H2 & H3 & H4 & H5)]]]];
      (split_and!;
       [done
       |intros st Hs; simpl in Hs; simplify_eq; try by right
       |split; [done|by intros ?]
       |split; [done|by intros ?]
       |split; [done|intros (st & Hs & ? & _); by destruct (Nst st Hs); lia]
       |intros st m r d' Heq; by simplify_eq
       |intros m t d' Heq; by simplify_eq
       |intros m o d' Heq; by simplify_eq
       |intros m raw d' Heq; simplify_eq; try (split; [done|]; by auto)]).
Qed.

(** The reply 429 of [too_many_requests]. *)
Lemma classified_error_reflects_the_failure_witness :
  ∃ c,
    classify too_many_requests = Classified c
    ∧ Errors.name c ≠ "ValidationError"
    ∧ (∀ st, statusCode c = Some st →
         (response_status too_many_requests = Some st ∧ 400 ≤ st)
         ∨ (st = 500 ∧ has_failure_status too_many_requests = false))
    ∧ (Errors.name c = "AuthenticationError"
       ↔ response_status too_many_requests = Some 401)
    ∧ (Errors.name c = "RateLimitError" ↔ response_status too_many_requests = Some 429)
    ∧ (Errors.name c = "HttpClientError"
       ↔ ∃ st, response_status too_many_requests = Some st
               ∧ 400 ≤ st < 500 ∧ st ≠ 401 ∧ st ≠ 429)
    ∧ (∀ st m r d, c = HttpServerError st m r d → r = true)
    ∧ (∀ m t d, c = TimeoutError m t d →
         t = Some 30000 ∧ has_failure_status too_many_requests = false
         ∧ is_timeout too_many_requests = true)
    ∧ (∀ m o d, c = NetworkError m o d →
         o = Some too_many_requests ∧ has_failure_status too_many_requests = false
         ∧ is_connection_failure too_many_requests = true)
    ∧ (∀ m raw d, c = MalformedResponseError m raw d →
         has_failure_status too_many_requests = false
         ∧ (is_json_failure too_many_requests = true
            ∨ is_missing_field too_many_requests = true)).
Proof.
  eexists. split; [vm_compute; reflexivity|].
  apply (classified_error_reflects_the_failure too_many_requests).
  vm_compute. reflexivity.
Defined.

(** ** Errors that are classified already *)

Lemma str_list_append a b : str_list (a +:+ b) = str_list a ++ str_list b.
Proof. induction a as [|c a IH]; simpl; [done|]. by rewrite IH. Qed.

Lemma prefix_chars t : ∀ s c,
  String.prefix t s = true → c ∈ str_list t → c ∈ str_list s.
Proof.
  induction t as [|a t IH]; intros s c.
  - by intros _ ?%elem_of_nil.
  - destruct s as [|b s]; simpl; [done|].
    destruct (Ascii.ascii_dec a b) as [->|]; [|done].
    intros Hp [->|Hc]%elem_of_cons.
    + by left.
    + right. by apply IH.
Qed.

(** A string that includes [t] holds every character of [t]. *)
Lemma includes_chars s : ∀ t c,
  includes s t = true → c ∈ str_list t → c ∈ str_list s.
Proof.
  induction s as [|b s IH]; intros t c; cbn [includes].
  - rewrite orb_false_r. apply prefix_chars.
  - intros [Hp|Hi]%orb_true_iff Hc.
    + by apply (prefix_chars t (String b s)).
    + right. by apply (IH t).
Qed.

Lemma Z_toString_chars z c :
  c ∈ str_list (Z_toString z) → c = chr 45 ∨ is_digit c = true.
Proof.
  unfold Z_toString. rewrite str_list_list_str.
  destruct (digits_spec (Z.abs_N z)) as (_ & Hall & _).
  intros [Hs|Hd]%elem_of_app.
  - destruct (z <? 0); [|by apply elem_of_nil in Hs].
    apply list_elem_of_singleton in Hs. by left.
  - right. by apply (proj1 (Forall_forall _ _) Hall).
Qed.

(** The message written for a status holds none of the words the handler
    looks for. *)
Lemma status_message_plain (pre t : string) (c : ascii) z :
  c ∈ str_list t → c ∉ str_list pre → c ≠ chr 45 → is_digit c = false →
  includes (pre +:+ Z_toString z) t = false.
Proof.
  intros Ht Hpre Hminus Hdig.
  destruct (includes (pre +:+ Z_toString z) t) eqn:Hi; [|done].
  pose proof (includes_chars _ _ c Hi Ht) as Hc.
  rewrite str_list_append in Hc. apply elem_of_app in Hc as [Hc|Hc]; [done|].
  apply Z_toString_chars in Hc as [?|?]; congruence.
Qed.

Lemma looks_classified_as_error c : looks_classified (as_error c) = true.
Proof. by destruct c. Qed.

(** The handler on an instance of the taxonomy: only the tests on the
    message are left. *)
Lemma classify_as_error c :
  classify (as_error c) =
  if includes (message c) "timeout" then
    Classified (TimeoutError "UPS request timed out" (Some 30000)
                  (Some [("originalError", JStr (message c))]))
  else if includes (message c) "JSON" then
    Classified (MalformedResponseError "UPS API returned invalid JSON" JUndefined
                  (Some [("originalError", JStr (message c))]))
  else if includes (message c) "missing" || includes (message c) "RateResponse" then
    Classified (MalformedResponseError "UPS API response missing required fields"
                  JUndefined (Some [("originalError", JStr (message c))]))
  else Raw (as_error c).
Proof.
  unfold classify. simpl.
  unfold classify_transport, message_includes, originalError_message. simpl.
  assert (code_is (as_error c) "ECONNABORTED" = false
          ∧ code_is (as_error c) "ENOTFOUND" = false
          ∧ code_is (as_error c) "ECONNREFUSED" = false) as (-> & -> & ->).
  { by destruct c. }
  rewrite looks_classified_as_error. simpl.
  destruct (includes (message c) "timeout"); [done|].
  rewrite orb_false_r.
  destruct (includes (message c) "JSON"); [done|].
  by destruct (includes (message c) "missing" || includes (message c) "RateResponse").
Qed.

(** X11.  An instance of the taxonomy that reaches the handler, thrown by a
    collaborator for one, passes the test of the rule that throws an error
    again, whatever its class; and it is thrown again as it is exactly when
    its message holds none of the words the earlier rules look for.  With
    "timeout" in its message it is replaced by a [TimeoutError]; with
    "JSON", "missing" or "RateResponse", by a [MalformedResponseError] whose
    raw response is [undefined]. *)
Theorem classified_errors_pass_unless_their_message_matches :
  ∀ c,
    looks_classified (as_error c) = true
    ∧ (classify (as_error c) = Raw (as_error c)
       ↔ includes (message c) "timeout" = false ∧ includes (message c) "JSON" = false
         ∧ includes (message c) "missing" = false
         ∧ includes (message c) "RateResponse" = false)
    ∧ (includes (message c) "timeout" = true →
       ∃ d, classify (as_error c)
            = Classified (TimeoutError "UPS request timed out" (Some 30000) d))
    ∧ (includes (message c) "timeout" = false →
       includes (message c) "JSON" = true ∨ includes (message c) "missing" = true
       ∨ includes (message c) "RateResponse" = true →
       ∃ m d, classify (as_error c) = Classified (MalformedResponseError m JUndefined d)).
Proof.
  intros c. split; [apply looks_classified_as_error|].
  rewrite classify_as_error.
  destruct (includes (message c) "timeout").
  { split_and!; try done.
    - split; [done|]. by intros (? & _).
    - intros _. by eexists. }
  destruct (includes (message c) "JSON").
  { split_and!; try done.
    - split; [done|]. by intros (_ & ? & _).
    - intros _ _. by eexists _, _. }
  destruct (includes (message c) "missing").
  { split_and!; try done.
    - split; [done|]. by intros (_ & _ & ? & _).
    - intros _ _. by eexists _, _. }
  destruct (includes (message c) "RateResponse").
  { split_and!; try done.
    - split; [done|]. by intros (_ & _ & _ & ?).
    - intros _ _. by eexists _, _. }
  simpl. split_and!; try done. intros _ [?|[?|?]]; done.
Qed.

(** X12.  The handler leaves alone what it has built itself, up to the raw
    response: an instance of the taxonomy built by the handler and caught by
    the handler once more (of an enclosing operation, say) is thrown again
    as it is, but for a [MalformedResponseError], which is built anew with
    the same message and with [undefined] as its raw response.  The class
    and the message of the error never change. *)
Theorem classify_is_stable_on_its_results :
  ∀ e c,
    classify e = Classified c →
    (Errors.name c ≠ "MalformedResponseError" →
     classify (as_error c) = Raw (as_error c))
    ∧ (Errors.name c = "MalformedResponseError" →
       ∃ d, classify (as_error c)
            = Classified (MalformedResponseError (message c) JUndefined d)).
Proof.
  intros e c Hc. rewrite classify_as_error.
  assert (chr 109 ∈ str_list "timeout" ∧ chr 74 ∈ str_list "JSON"
          ∧ chr 109 ∈ str_list "missing" ∧ chr 82 ∈ str_list "RateResponse")
    as (Htimeout & Hjson & Hmissing & Hrate).
  { split_and!; apply list_elem_of_In; simpl; tauto. }
  assert (∀ pre z, chr 109 ∉ str_list pre → chr 74 ∉ str_list pre →
                   chr 82 ∉ str_list pre →
                   includes (pre +:+ Z_toString z) "timeout" = false
                   ∧ includes (pre +:+ Z_toString z) "JSON" = false
                   ∧ includes (pre +:+ Z_toString z) "missing" = false
                   ∧ includes (pre +:+ Z_toString z) "RateResponse" = false) as Hplain.
  { intros pre z Hm Hj Hr.
    split_and!; eapply status_message_plain; try eassumption; done. }
  assert (∀ (c : ascii) (l : list ascii), c ∉ l ↔ ¬ In c l) as Hnotin.
  { intros c0 l. by rewrite list_elem_of_In. }
  destruct (classify_Classified e c Hc)
    as [(d & -> & Hst)|[(d & -> & Hst)|[(r & d & -> & Hst)|[(st & d & -> & Hst & Hr & Hne)
       |[(st & d & -> & Hst & Hr)|[Hno Htr]]]]]].
  - by vm_compute.
  - by vm_compute.
  - by vm_compute.
  - cbn [message Errors.name].
    destruct (Hplain "UPS request failed: HTTP " st) as (-> & -> & -> & ->);
      try (apply Hnotin; simpl; intros H; destruct_or!; done).
    by simpl.
  - cbn [message Errors.name].
    destruct (Hplain "UPS server error: HTTP " st) as (-> & -> & -> & ->);
      try (apply Hnotin; simpl; intros H; destruct_or!; done).
    by simpl.
  - destruct (classify_transport_Classified e c Htr)
      as [(d & -> & _)|[(d & -> & _)|[(d & -> & _)|[(d & -> & _)|(d & -> & _)]]]].
    + by vm_compute.
    + by vm_compute.
    + split; [done|]. intros _. eexists. by vm_compute.
    + split; [done|]. intros _. eexists. by vm_compute.
    + by vm_compute.
Qed.

(** The error of the parser for a reply with no envelope: the handler
    makes a [MalformedResponseError] of it, and the same one of that. *)
Lemma classify_is_stable_on_its_results_witness :
  ∃ c,
    classify (Error "Invalid UPS response: missing RateResponse") = Classified c
    ∧ Errors.name c = "MalformedResponseError"
    ∧ (Errors.name c ≠ "MalformedResponseError" →
       classify (as_error c) = Raw (as_error c))
    ∧ (Errors.name c = "MalformedResponseError" →
       ∃ d, classify (as_error c)
            = Classified (MalformedResponseError (message c) JUndefined d)).
Proof.
  eexists. split; [vm_compute; reflexivity|]. split; [reflexivity|].
  apply (classify_is_stable_on_its_results
           (Error "Invalid UPS response: missing RateResponse")).
  vm_compute. reflexivity.
Defined.

(** ** What the handler throws and has not built *)

Lemma classify_transport_Raw e t :
  classify_transport e = Raw t ↔
  (t = e ∧ is_timeout e = false ∧ is_connection_failure e = false
   ∧ is_json_failure e = false ∧ is_missing_field e = false
   ∧ looks_classified e = true ∧ is_Some (e_message e))
  ∨ (t = TypeError "Cannot read properties of undefined (reading 'includes')"
     ∧ code_is e "ECONNABORTED" = false ∧ e_message e = None).
Proof.
  unfold classify_transport, is_timeout, is_connection_failure, is_json_failure,
    is_missing_field, message_includes.
  destruct (code_is e "ECONNABORTED") eqn:Hab.
  { split; [done|]. intros [(_ & ? & _)|(_ & ? & _)]; done. }
  destruct (e_message e) as [m|] eqn:Hm.
  2:{ split.
      - intros [= <-]. by right.
      - intros [(_ & _ & _ & _ & _ & _ & [? ?])|(-> & _)]; done. }
  simpl. destruct (includes m "timeout") eqn:Hto.
  { split; [done|]. intros [(_ & ? & _)|(_ & _ & ?)]; done. }
  destruct (code_is e "ENOTFOUND" || code_is e "ECONNREFUSED") eqn:Hnet.
  { split; [done|]. intros [(_ & _ & ? & _)|(_ & _ & ?)]; done. }
  destruct (includes m "JSON" || e_isSyntaxError e) eqn:Hjs.
  { split; [done|]. intros [(_ & _ & _ & ? & _)|(_ & _ & ?)]; done. }
  destruct (includes m "missing" || includes m "RateResponse") eqn:Hmi.
  { split; [done|]. intros [(_ & _ & _ & _ & ? & _)|(_ & _ & ?)]; done. }
  destruct (looks_classified e) eqn:Hlc.
  - split.
    + intros [= <-]. left. by split_and!.
    + intros [(-> & _)|(_ & _ & ?)]; done.
  - split; [done|]. intros [(_ & _ & _ & _ & _ & ? & _)|(_ & _ & ?)]; done.
Qed.


(** ** An alert entry that cannot be read *)

Lemma push_descriptions_TypeError entries : ∀ alerts e,
  push_descriptions entries alerts = Throw e →
  e = TypeError "Cannot read properties of undefined (reading 'Description')"
  ∨ e = TypeError "Cannot read properties of null (reading 'Description')".
Proof.
  induction entries as [|a entries IH]; intros alerts e; simpl; [done|].
  destruct a; simpl; try (intros [= <-]; by auto); apply IH.
Qed.

Lemma collect_alerts_TypeError loc alerts e :
  collect_alerts loc alerts = Throw e →
  e = TypeError "Cannot read properties of undefined (reading 'Description')"
  ∨ e = TypeError "Cannot read properties of null (reading 'Description')".
Proof. destruct loc; simpl; try done. apply push_descriptions_TypeError. Qed.

(** The [TypeError]s of the parser. *)
Lemma parseUpsResponse_TypeError response e :
  truthy (envelope response) = true → truthy (ratedShipment response) = true →
  parseUpsResponse response = Throw e →
  e = TypeError "Cannot convert object to primitive value"
  ∨ e = TypeError "Cannot read properties of undefined (reading 'Description')"
  ∨ e = TypeError "Cannot read properties of null (reading 'Description')".
Proof.
  intros Hrr Hrs. rewrite parseUpsResponse_unfold, Hrr, Hrs. simpl negb. cbv iota.
  destruct (parseFloat_any _) as [total|e0] eqn:H0.
  2:{ intros [= <-]. left. by apply parseFloat_any_Throw in H0. }
  rewrite bind_Return.
  destruct (charge _ "BaseServiceCharge") as [base|e0] eqn:Hb.
  2:{ intros [= <-]. left. by apply charge_Throw in Hb. }
  rewrite bind_Return.
  destruct (charge _ "TransportationCharges") as [transport|e0] eqn:Ht.
  2:{ intros [= <-]. left. by apply charge_Throw in Ht. }
  rewrite bind_Return.
  destruct (collect_alerts _ []) as [al1|e1] eqn:H1.
  2:{ intros [= <-]. right. by apply collect_alerts_TypeError in H1. }
  rewrite bind_Return.
  destruct (collect_alerts _ al1) as [al2|e2] eqn:H2; [done|].
  intros [= <-]. right. by apply collect_alerts_TypeError in H2.
Qed.

(** X14.  A reply with status 200 whose alerts cannot be read is reported as
    a failure of the server: when the envelope and the rated shipment are
    there and an alerts array holds a [null] or [undefined] entry, the
    [TypeError] of the parser is caught by the handler of [execute], matches
    none of its tests, and leaves as the catch-all [HttpServerError(500)],
    retryable, not as a [MalformedResponseError]. *)
Theorem unreadable_alert_is_reported_as_server_error :
  ∀ env io request token response,
    tokenManager_getToken io = Return token →
    (∀ url payload headers, http_post io url payload headers = Return response) →
    truthy (envelope (data response)) = true →
    truthy (ratedShipment (data response)) = true →
    ¬ (entries_ok (shipmentAlerts (data response))
       ∧ entries_ok (responseAlerts (data response))) →
    ∃ d, execute env io request
         = Throw (Classified (HttpServerError 500 "Unknown error calling UPS API" true d)).
Proof.
  intros env io request token response Htok Hpost Hrr Hrs Hbad.
  destruct (parseUpsResponse (data response)) as [quotes|e] eqn:Hparse.
  { apply parseUpsResponse_Return in Hparse as (_ & _ & _ & ? & ? & _).
    by destruct Hbad. }
  pose proof (parseUpsResponse_TypeError _ _ Hrr Hrs Hparse) as He.
  pose proof (execute_parse env io request token response Htok Hpost) as Hex.
  rewrite Hparse in Hex. rewrite Hex.
  destruct He as [-> | [-> | ->]]; eexists; by vm_compute.
Qed.

(** The reply of [null_alert_response]. *)
Lemma unreadable_alert_is_reported_as_server_error_witness :
  ∃ d, execute sample_env (transport_answers null_alert_response) sample_request
       = Throw (Classified (HttpServerError 500 "Unknown error calling UPS API" true d)).
Proof.
  apply (unreadable_alert_is_reported_as_server_error sample_env
           (transport_answers null_alert_response) sample_request "test-token"
           {| status := 200; data := null_alert_response |}).
  - reflexivity.
  - intros url payload headers. reflexivity.
  - reflexivity.
  - reflexivity.
  - vm_compute. intros [H _]. inversion H as [|? ? Hn]. discriminate Hn.
Defined.

End RateOperationMore.

(** * The operation and the service on their collaborators *)

Section ServiceFacts.
Import Js Errors RateMapper RateOperation ShippingService.

(** ** A token manager whose fetch has failed *)

Lemma rejected_is_dead s0 reason o sr :
  TokenManager.reachable s0 → TokenManager.cached s0 = None →
  TokenManager.refreshing s0 = None →
  TokenManager.run
    [TokenManager.Call; TokenManager.FetchRejected (TokenManager.fetchCalls s0) reason] s0
  = Some (o, sr) →
  dead (TokenManager.fetchCalls s0) reason sr
  ∧ TokenManager.fetchCalls sr = S (TokenManager.fetchCalls s0).
Proof.
  intros Hreach Hc Hr Hrun.
  pose proof (inv_reachable _ Hreach) as Hinv.
  pose proof (inv_run _ _ _ _ Hinv Hrun) as Hinv2.
  simpl in Hrun. unfold TokenManager.getToken in Hrun. rewrite Hc, Hr in Hrun.
  simpl in Hrun. unfold TokenManager.refresh_rejected in Hrun. simpl in Hrun.
  assert ((TokenManager.promises s0 ++ [TokenManager.Pending])
            !! List.length (TokenManager.promises s0) = Some TokenManager.Pending) as Hlook
    by by apply list_lookup_middle.
  unfold TokenManager.fetchCalls in *. rewrite Hlook in Hrun. simpl in Hrun.
  simplify_eq.
  assert (<[List.length (TokenManager.promises s0) := TokenManager.Rejected reason]>
            (TokenManager.promises s0 ++ [TokenManager.Pending])
          = TokenManager.promises s0 ++ [TokenManager.Rejected reason]) as Hp2.
  { replace (List.length (TokenManager.promises s0))
      with (List.length (TokenManager.promises s0) + 0)%nat at 1 by lia.
    by rewrite insert_app_r. }
  split.
  - split; [done|]. split; [done|]. split.
    + simpl. rewrite Hp2. by apply list_lookup_middle.
    + by apply (cached_None_later s0).
  - simpl. rewrite Hp2, length_app. simpl. lia.
Qed.

(** X15.  One failed token fetch fails every later request.  Once a fetch
    of the token manager has been rejected, whatever happens next, the call
    of [getToken] that [execute] makes is handed the rejected promise and
    starts no fetch; so [execute] throws what its handler makes of the
    reason of that first failure, for every request and whatever the
    transport would have answered. *)
Theorem failed_token_fetch_fails_every_later_request :
  ∀ s0 reason evs outs s3 env request,
    TokenManager.reachable s0 → TokenManager.cached s0 = None →
    TokenManager.refreshing s0 = None →
    TokenManager.run
      (TokenManager.Call
         :: TokenManager.FetchRejected (TokenManager.fetchCalls s0) reason :: evs) s0
    = Some (outs, s3) →
    let call := TokenManager.getToken s3 in
    call.1 = TokenManager.Joined (TokenManager.fetchCalls s0)
    ∧ TokenManager.fetchCalls call.2 = S (TokenManager.fetchCalls s0)
    ∧ TokenManager.settled call.2 call.1 = Some (Throw reason)
    ∧ ∀ r io, TokenManager.settled call.2 call.1 = Some r →
        execute env (with_token r io) request = Throw (classify reason).
Proof.
  intros s0 reason evs outs s3 env request Hreach Hc Hr Hrun.
  apply run_cons in Hrun as (o1 & s1 & o' & Hstep1 & Hrun & ->).
  apply run_cons in Hrun as (o2 & s2 & o3 & Hstep2 & Hrun & ->).
  assert (TokenManager.run
            [TokenManager.Call;
             TokenManager.FetchRejected (TokenManager.fetchCalls s0) reason] s0
          = Some (o1 ++ o2 ++ [], s2)) as Hrun2.
  { apply run_cons. exists o1, s1, (o2 ++ []). split; [done|]. split; [|done].
    apply run_cons. by exists o2, s2, []. }
  destruct (rejected_is_dead _ _ _ _ Hreach Hc Hr Hrun2) as [Hdead Hf].
  destruct (dead_run _ _ _ _ _ _ Hdead Hrun) as (Hd3 & Hp3 & _).
  destruct Hd3 as (_ & Hr3 & Hl3 & Hc3).
  assert (TokenManager.getToken s3
          = (TokenManager.Joined (TokenManager.fetchCalls s0), s3)) as Hcall.
  { unfold TokenManager.getToken. by rewrite Hc3, Hr3. }
  assert (TokenManager.settled s3 (TokenManager.Joined (TokenManager.fetchCalls s0))
          = Some (Throw reason)) as Hset.
  { simpl. unfold TokenManager.promise_result. by rewrite Hl3. }
  cbv zeta. rewrite Hcall. simpl fst. simpl snd.
  split; [done|]. split.
  { unfold TokenManager.fetchCalls in *. by rewrite Hp3. }
  split; [done|].
  intros r io. rewrite Hset. intros [= <-].
  by apply execute_token_failure.
Qed.

(** The failure of the test suite, then the starter resuming and a request
    one second later. *)
Lemma failed_token_fetch_fails_every_later_request_witness :
  ∃ outs s3,
    TokenManager.run
      [TokenManager.Call; TokenManager.FetchRejected 0 (Error "Network error");
       TokenManager.Resumed 0; TokenManager.Tick 1000] (TokenManager.create 0)
    = Some (outs, s3)
    ∧ (TokenManager.getToken s3).1 = TokenManager.Joined 0
    ∧ TokenManager.fetchCalls (TokenManager.getToken s3).2 = 1%nat
    ∧ TokenManager.settled (TokenManager.getToken s3).2 (TokenManager.getToken s3).1
      = Some (Throw (Error "Network error"))
    ∧ ∀ r io,
        TokenManager.settled (TokenManager.getToken s3).2 (TokenManager.getToken s3).1
        = Some r →
        execute sample_env (with_token r io) sample_request
        = Throw (classify (Error "Network error")).
Proof.
  eexists _, _. split; [compute; reflexivity|].
  eapply (failed_token_fetch_fails_every_later_request (TokenManager.create 0)
            (Error "Network error") [TokenManager.Resumed 0; TokenManager.Tick 1000]).
  - by exists 0, [], [].
  - reflexivity.
  - reflexivity.
  - compute. reflexivity.
Defined.

(** ** The successful path *)

(** X19.  [execute] returns only what it has parsed from the reply to its
    one request.  If it returns, the token manager gave a token, the POST
    to [baseUrl + "/api/rating/v2403/rate"] of the document
    [mapToUpsRequest] made, with that token as bearer, resolved, and the
    result is the list of exactly one quote, a UPS quote, that
    [parseUpsResponse] made of the body of the reply.  The status of a
    reply that resolved is not looked at. *)
Theorem execute_returns_one_parsed_quote :
  ∀ env io request quotes,
    execute env io request = Return quotes →
    ∃ token response q,
      tokenManager_getToken io = Return token
      ∧ http_post io (baseUrl env +:+ "/api/rating/v2403/rate")
          (mapToUpsRequest request (shipperNumber env) (crypto io)).1
          [("Authorization", "Bearer " +:+ token);
           ("Content-Type", "application/json");
           ("transID", transID io);
           ("transactionSrc", "RatingService")]
        = Return response
      ∧ parseUpsResponse (data response) = Return [q]
      ∧ quotes = [q]
      ∧ carrier q = "UPS"
      ∧ ∀ st, execute env
                {| tokenManager_getToken := Return token;
                   http_post := λ _ _ _, Return {| status := st; data := data response |};
                   transID := transID io;
                   crypto := crypto io |}
                request
              = Return quotes.
Proof.
  intros env io request quotes. unfold execute, attempt.
  destruct (tokenManager_getToken io) as [token|e] eqn:Htok; [|done].
  rewrite bind_Return.
  destruct (http_post io _ _ _) as [response|e] eqn:Hpost; [|done].
  rewrite bind_Return.
  destruct (parseUpsResponse (data response)) as [qs|e] eqn:Hparse; [|done].
  intros [= <-].
  destruct (parseUpsResponse_Return _ _ Hparse)
    as (_ & _ & _ & _ & _ & total & base & transport & al & _ & -> & _).
  eexists token, response, _. split_and!; try done.
  intros st. simpl. by rewrite Hparse.
Qed.

(** The successful reply of the test suite. *)
Lemma execute_returns_one_parsed_quote_witness :
  ∃ token response q,
    tokenManager_getToken (transport_answers valid_response) = Return token
    ∧ http_post (transport_answers valid_response)
        (baseUrl sample_env +:+ "/api/rating/v2403/rate")
        (mapToUpsRequest sample_request (shipperNumber sample_env)
           (crypto (transport_answers valid_response))).1
        [("Authorization", "Bearer " +:+ token);
         ("Content-Type", "application/json");
         ("transID", transID (transport_answers valid_response));
         ("transactionSrc", "RatingService")]
      = Return response
    ∧ parseUpsResponse (data response) = Return [q]
    ∧ [valid_quote] = [q]
    ∧ carrier q = "UPS"
    ∧ ∀ st, execute sample_env
              {| tokenManager_getToken := Return token;
                 http_post := λ _ _ _, Return {| status := st; data := data response |};
                 transID := transID (transport_answers valid_response);
                 crypto := crypto (transport_answers valid_response) |}
              sample_request
            = Return [valid_quote].
Proof.
  apply (execute_returns_one_parsed_quote sample_env (transport_answers valid_response)
           sample_request [valid_quote]).
  vm_compute. reflexivity.
Defined.

(** ** The service facade *)

Lemma classify_Raw_cases e t :
  classify e = Raw t → t = e ∨ e_name t = Some "TypeError".
Proof.
  unfold classify.
  case_bool_decide; [done|]. case_bool_decide; [done|].
  case_bool_decide.
  { destruct (response_headers e); [done|]. intros [= <-]. by right. }
  assert (classify_transport e = Raw t → t = e ∨ e_name t = Some "TypeError") as Htr.
  { intros [(-> & _)|(-> & _)]%classify_transport_Raw; [by left|by right]. }
  destruct (response_status e) as [st|]; [|done].
  destruct (negb (st =? 0) && (400 <=? st) && (st <? 500)); [done|].
  by destruct (negb (st =? 0) && (500 <=? st)).
Qed.

Lemma classify_builds_no_ValidationError e c :
  classify e = Classified c → Errors.name c ≠ "ValidationError".
Proof.
  intros Hc.
  apply classify_Classified in Hc
    as [(? & -> & _)|[(? & -> & _)|[(? & ? & -> & _)|[(? & ? & -> & _)
       |[(? & ? & -> & _)|[_ Htr]]]]]]; try done.
  apply classify_transport_Classified in Htr
    as [(? & -> & _)|[(? & -> & _)|[(? & -> & _)|[(? & -> & _)|(? & -> & _)]]]]; done.
Qed.

Lemma parseUpsResponse_Throw_name response e :
  parseUpsResponse response = Throw e →
  e_name e = Some "Error" ∨ e_name e = Some "TypeError".
Proof.
  destruct (parseUpsResponse_cases response)
    as [[_ ->]|[(_ & _ & ->)|[(_ & _ & e' & -> & He)
       |(_ & _ & total & base & transport & al & _ & ->)]]].
  - intros [= <-]. by left.
  - intros [= <-]. by left.
  - intros [= <-]. by right.
  - done.
Qed.

(** X16.  [getRates] checks the request before anything else.  A request
    the schema accepts is handed to the operation, whose result or failure
    is the result or failure of [getRates]; a request it refuses never
    reaches the operation: [getRates] throws
    [ValidationError('Invalid rate request')] whatever the token manager
    and the transport would do.  For a request the schema accepts, an error
    whose name is "ValidationError" leaves [getRates] only when the token
    manager or the transport threw that very error, which the handler of
    the operation throws again: the handler builds none, and the parser
    throws none. *)
Theorem getRates_validates_before_anything_else :
  ∀ infinite_passes validationErrors env request,
    (RateRequestSchema infinite_passes request = true →
     ∀ io, getRates infinite_passes validationErrors (execute env io) request
           = execute env io request)
    ∧ (RateRequestSchema infinite_passes request = false →
       ∀ io, getRates infinite_passes validationErrors (execute env io) request
             = Throw (Classified
                        (ValidationError "Invalid rate request"
                           (Some [("validationErrors", validationErrors request)]))))
    ∧ (RateRequestSchema infinite_passes request = true →
       ∀ io t,
         getRates infinite_passes validationErrors (execute env io) request = Throw t →
         thrown_name t = Some "ValidationError" →
         ∃ e, t = Raw e
           ∧ (tokenManager_getToken io = Throw e
              ∨ ∃ token,
                  tokenManager_getToken io = Return token
                  ∧ http_post io (baseUrl env +:+ "/api/rating/v2403/rate")
                      (mapToUpsRequest request (shipperNumber env) (crypto io)).1
                      [("Authorization", "Bearer " +:+ token);
                       ("Content-Type", "application/json");
                       ("transID", transID io);
                       ("transactionSrc", "RatingService")]
                    = Throw e)).
Proof.
  intros inf ve env request. unfold getRates.
  destruct (RateRequestSchema inf request) eqn:Hs.
  2:{ split; [done|]. split; [done|]. done. }
  split; [done|]. split; [done|]. intros _ io t Hex Hname.
  unfold execute in Hex.
  destruct (attempt env io request) as [quotes|e] eqn:Hat; [done|].
  injection Hex as <-.
  destruct (classify e) as [c|t] eqn:Hc.
  { apply classify_builds_no_ValidationError in Hc. simpl in Hname. congruence. }
  apply classify_Raw_cases in Hc as [->|Ht]; [|simpl in Hname; congruence].
  simpl in Hname. exists e. split; [done|].
  unfold attempt in Hat.
  destruct (tokenManager_getToken io) as [token|e0]; [|left; by simplify_eq/=].
  right. exists token. split; [done|]. rewrite bind_Return in Hat.
  destruct (http_post io _ _ _) as [response|e0]; [|by simplify_eq/=].
  rewrite bind_Return in Hat.
  apply parseUpsResponse_Throw_name in Hat as [?|?]; congruence.
Qed.

Lemma min1_nonempty s : min1 s = true → s ≠ "".
Proof. by intros H ->. Qed.

(** How a number the schema accepts is written. *)
Lemma Number_toString_positive infinite_passes x :
  positive infinite_passes x = true →
  (infinite_passes = true ∧ Number_toString x = "Infinity")
  ∨ plain_positive (Number_toString x).
Proof.
  destruct x as [|neg|neg m e]; simpl; [done| |].
  { destruct infinite_passes, neg; try done. by left. }
  destruct neg; [done|]. simpl. intros Hm%negb_true_iff. rewrite Hm. right.
  destruct (digits_spec m) as (Hne & Hall & Hval).
  destruct (digits m) as [|d r] eqn:Hd; [done|].
  apply Forall_cons_1 in Hall as [Hdig _].
  cbv zeta.
  match goal with |- plain_positive (list_str ?b) => set (body := b) end.
  assert ((∃ d' rest, body = d' :: rest ∧ is_digit d' = true ∧ rest ≠ [])
          ∨ (∃ d', body = [d'] ∧ is_digit d' = true ∧ d' ≠ chr 48)) as Hbody.
  { subst body.
    set (k := Z.of_nat (List.length (d :: r))). set (n := e + k).
    destruct ((k <=? n) && (n <=? 21)) eqn:H1.
    { rewrite <- app_comm_cons.
      destruct (r ++ replicate _ _) as [|r1 rest] eqn:Hrest.
      - right. exists d. split_and!; try done. intros ->.
        apply app_eq_nil in Hrest as [-> _].
        apply N.eqb_neq in Hm. apply Hm. rewrite <- Hval. reflexivity.
      - left. by exists d, (r1 :: rest). }
    destruct ((0 <? n) && (n <=? 21)) eqn:H2.
    { apply andb_true_iff in H2 as [H2 _]. apply Z.ltb_lt in H2.
      destruct (Z.to_nat n) as [|n'] eqn:Hn; [lia|].
      left. eexists _, _. split; [reflexivity|]. split; [done|].
      intros Hnil. by apply app_eq_nil in Hnil as [_ ?]. }
    destruct ((-6 <? n) && (n <=? 0)) eqn:H3.
    { left. eexists _, _. split; [reflexivity|]. by split. }
    left. destruct r as [|r1 r]; eexists _, _; (split; [reflexivity|]); by split. }
  split.
  - destruct Hbody as [(d' & rest & -> & Hd' & _)|(d' & -> & Hd' & _)];
      eexists _, _; (split; [|exact Hd']); simpl; by rewrite ?str_list_list_str.
  - destruct Hbody as [(d' & rest & -> & _ & Hrest)|(d' & -> & _ & Hd')]; simpl.
    + intros [= _ Hnil]. by destruct rest.
    + intros [= ?]. by apply Hd'.
Qed.

Lemma AddressSchema_wire a :
  AddressSchema a = true →
  name a ≠ ""
  ∧ AddressLine (wire_address a) ≠ []
  ∧ ("" ∉ AddressLine (wire_address a))
  ∧ City (wire_address a) ≠ ""
  ∧ PostalCode (wire_address a) ≠ ""
  ∧ utf16_length (CountryCode (wire_address a)) = 2%nat.
Proof.
  unfold AddressSchema. rewrite !andb_true_iff.
  intros (((((Hn & Hl) & Hl1) & Hc) & Hp) & Hcc). simpl.
  split_and!; try by apply min1_nonempty.
  - intros Hnil. by rewrite Hnil in Hl1.
  - intros Hin. apply list_elem_of_In in Hin.
    by apply (proj1 (forallb_forall _ _) Hl) in Hin.
  - by apply Nat.eqb_eq.
Qed.

Lemma PackageSchema_wire infinite_passes pkg v :
  PackageSchema infinite_passes pkg = true →
  v ∈ [Weight (PackageWeight (wire_package pkg)); Length (Dimensions (wire_package pkg));
       Width (Dimensions (wire_package pkg)); Height (Dimensions (wire_package pkg))] →
  (infinite_passes = true ∧ v = "Infinity") ∨ plain_positive v.
Proof.
  unfold PackageSchema. rewrite !andb_true_iff. intros (((Hw & Hl) & Hwi) & Hh).
  simpl. rewrite !elem_of_cons.
  intros [->|[->|[->|[->|?%elem_of_nil]]]]; try done;
    by apply Number_toString_positive.
Qed.

(** X17.  What a request the schema accepts looks like on the wire.  The
    document [mapToUpsRequest] makes of it has at least one package and a
    piece count of 1 or more; each weight and each dimension is written as
    a positive decimal (it starts with a digit and is not "0": never "NaN",
    never negative), or as "Infinity" where the schema library lets
    infinite numbers through; the names of the parties are not empty; and
    each address has at least one line and no empty line, a city, a postal
    code, and a country code of two UTF-16 units. *)
Theorem accepted_request_on_the_wire :
  ∀ infinite_passes request shipperNumber c,
    RateRequestSchema infinite_passes request = true →
    let shipment := Shipment (mapToUpsRequest request shipperNumber c).1 in
    Package_ shipment ≠ []
    ∧ (∃ n, 1 ≤ n ∧ parseInt (NumOfPieces shipment) = of_Z n)
    ∧ (∀ wp v,
         wp ∈ Package_ shipment →
         v ∈ [Weight (PackageWeight wp); Length (Dimensions wp);
              Width (Dimensions wp); Height (Dimensions wp)] →
         (infinite_passes = true ∧ v = "Infinity") ∨ plain_positive v)
    ∧ Shipper_Name (Shipper shipment) ≠ ""
    ∧ Name (ShipFrom shipment) ≠ ""
    ∧ Name (ShipTo shipment) ≠ ""
    ∧ (∀ a,
         a ∈ [Shipper_Address (Shipper shipment); Address_ (ShipFrom shipment);
              Address_ (ShipTo shipment)] →
         AddressLine a ≠ [] ∧ ("" ∉ AddressLine a) ∧ City a ≠ "" ∧ PostalCode a ≠ ""
         ∧ utf16_length (CountryCode a) = 2%nat).
Proof.
  intros inf request shipperNumber c.
  unfold RateRequestSchema. rewrite !andb_true_iff.
  intros (((Hfrom & Hto) & Hpk) & Hlen). cbv zeta. simpl.
  apply AddressSchema_wire in Hfrom as (Hn1 & Hfrom).
  apply AddressSchema_wire in Hto as (Hn2 & Hto).
  apply Nat.leb_le in Hlen.
  split_and!; try done.
  - destruct (packages request); [simpl in Hlen; lia|done].
  - exists (Z.of_nat (List.length (packages request))). split; [lia|].
    apply parseInt_Z_toString.
  - intros wp v Hwp Hv.
    apply list_elem_of_fmap in Hwp as (pkg & -> & Hin).
    apply (PackageSchema_wire inf pkg); [|done].
    apply list_elem_of_In in Hin.
    by apply (proj1 (forallb_forall _ _) Hpk) in Hin.
  - intros a. rewrite !elem_of_cons.
    intros [->|[->|[->|?%elem_of_nil]]]; done.
Qed.

(** The request of the test suite. *)
Lemma accepted_request_on_the_wire_witness :
  let shipment := Shipment (mapToUpsRequest sample_request "123" sample_crypto).1 in
  RateRequestSchema false sample_request = true
  ∧ Package_ shipment ≠ []
  ∧ (∃ n, 1 ≤ n ∧ parseInt (NumOfPieces shipment) = of_Z n)
  ∧ (∀ wp v,
       wp ∈ Package_ shipment →
       v ∈ [Weight (PackageWeight wp); Length (Dimensions wp);
            Width (Dimensions wp); Height (Dimensions wp)] →
       (false = true ∧ v = "Infinity") ∨ plain_positive v)
  ∧ Shipper_Name (Shipper shipment) ≠ EmptyString
  ∧ Name (ShipFrom shipment) ≠ EmptyString
  ∧ Name (ShipTo shipment) ≠ EmptyString
  ∧ (∀ a,
       a ∈ [Shipper_Address (Shipper shipment); Address_ (ShipFrom shipment);
            Address_ (ShipTo shipment)] →
       AddressLine a ≠ [] ∧ (EmptyString ∉ AddressLine a) ∧ City a ≠ EmptyString
       ∧ PostalCode a ≠ EmptyString ∧ utf16_length (CountryCode a) = 2%nat).
Proof.
  split; [vm_compute; reflexivity|].
  apply (accepted_request_on_the_wire false sample_request "123" sample_crypto).
  vm_compute. reflexivity.
Defined.

End ServiceFacts.

(** * The delay of a rate-limited reply *)

Section RetryAfter.
Import Js Errors RateMapper RateOperation.

(** ** Products of integers *)






(** ** The [retry-after] header *)



Example retry_after_5_seconds :
  ∃ d, classify too_many_requests
       = Classified (RateLimitError "UPS rate limit exceeded" (Some (of_Z 5000)) d).
Proof. eexists. by vm_compute. Qed.

End RetryAfter.
